(** * facebook-hashtag-scraper: a shallow embedding and its properties

    The development follows the three source files

    - [src/extractors/content_cleaner.py]  (module [ContentCleaner]),
    - [src/utils/proxy_manager.py]         (module [ProxyManagerPy]),
    - [src/extractors/facebook_parser.py]  (module [FacebookParser]),

    on top of a small model of the Python values they manipulate
    (module [Py]), of the BeautifulSoup tree API (module [Bs4]) and of
    [urllib.parse.quote_plus] (module [Urllib]).  Module [Spec] holds the
    vocabulary in which the properties are stated, module [Samples] the
    concrete inputs on which they are exercised; the properties come last.

    Python [str] values are sequences of Unicode code points; integers are
    unbounded ([Z]); floats are IEEE-754 binary64 values, taken from the
    standard library's executable specification ([spec_float], with
    [prec = 53] and [emax = 1024]).  Exceptions are values of [exn] carried
    by the [result] type; effects on the outside world (rotators, HTTP
    transport, clock) are recorded, in order, in a trace of events.
    Logging has no effect on any result and is left out. *)

From Stdlib Require Import List ZArith NArith Lia Bool Ascii.
From Stdlib Require String.
Import String.StringSyntax.
Delimit Scope string_scope with string.
Bind Scope string_scope with String.string.
From Stdlib Require Import Floats.SpecFloat.
From Stdlib Require DecimalZ.
Import ListNotations.

Set Implicit Arguments.
Set Warnings "-abstract-large-number".
Local Open Scope Z_scope.

(* ================================================================== *)
(** * Python values                                                    *)
(* ================================================================== *)

Module Py.

(** A Python [str]: a sequence of code points. *)
Definition char := N.
Definition pystr := list char.

(** String literals of the source, written as Rocq strings. *)
Definition lit (s : String.string) : pystr :=
  map N_of_ascii (String.list_ascii_of_string s).

(** The exceptions the modelled code can meet. *)
Inductive exn :=
| ValueError
| OverflowError
| OSError
| UnicodeEncodeError.

Inductive result (A : Type) :=
| OK (a : A)
| Raise (e : exn).
Arguments OK {A} a.
Arguments Raise {A} e.

Definition bind {A B} (r : result A) (k : A -> result B) : result B :=
  match r with
  | OK a => k a
  | Raise e => Raise e
  end.

Fixpoint mapM {A B} (f : A -> result B) (l : list A) : result (list B) :=
  match l with
  | [] => OK []
  | a :: l' =>
      bind (f a) (fun b => bind (mapM f l') (fun bs => OK (b :: bs)))
  end.

(** [str.isspace] on one code point; the same class is used by [\s] in
    [re] patterns over [str], by [str.strip()] and by [str.split()]. *)
Definition isspace (c : char) : bool :=
  ((9 <=? c) && (c <=? 13) || (28 <=? c) && (c <=? 32)
   || (c =? 133) || (c =? 160) || (c =? 5760)
   || (8192 <=? c) && (c <=? 8202)
   || (c =? 8232) || (c =? 8233) || (c =? 8239) || (c =? 8287)
   || (c =? 12288))%N.

Definition space : char := 32%N.

Fixpoint lstrip_by (p : char -> bool) (s : pystr) : pystr :=
  match s with
  | [] => []
  | c :: r => if p c then lstrip_by p r else s
  end.

Fixpoint rstrip_by (p : char -> bool) (s : pystr) : pystr :=
  match s with
  | [] => []
  | c :: r =>
      match rstrip_by p r with
      | [] => if p c then [] else [c]
      | r' => c :: r'
      end
  end.

(** [s.strip()] *)
Definition strip (s : pystr) : pystr := rstrip_by isspace (lstrip_by isspace s).

(** [s.lstrip(chars)] *)
Definition lstrip_chars (chars : pystr) (s : pystr) : pystr :=
  lstrip_by (fun c => existsb (N.eqb c) chars) s.

(** [s.split()]: the maximal runs of non-whitespace characters. *)
Fixpoint split_aux (cur : pystr) (s : pystr) : list pystr :=
  match s with
  | [] => match cur with [] => [] | _ => [rev cur] end
  | c :: r =>
      if isspace c
      then match cur with
           | [] => split_aux [] r
           | _ => rev cur :: split_aux [] r
           end
      else split_aux (c :: cur) r
  end.

Definition split (s : pystr) : list pystr := split_aux [] s.

(** [s.split(sep)] for a separator [sep] of one character: the pieces
    between the separators, the empty ones included. *)
Fixpoint split_on (sep : char) (s : pystr) : list pystr :=
  match s with
  | [] => [[]]
  | c :: r =>
      if (c =? sep)%N then [] :: split_on sep r
      else match split_on sep r with
           | piece :: pieces => (c :: piece) :: pieces
           | [] => [[c]]
           end
  end.

(** [sep.join(parts)] *)
Fixpoint join (sep : pystr) (parts : list pystr) : pystr :=
  match parts with
  | [] => []
  | [p] => p
  | p :: rest => p ++ sep ++ join sep rest
  end.

Fixpoint startswith (p s : pystr) : bool :=
  match p, s with
  | [], _ => true
  | _ :: _, [] => false
  | a :: p', b :: s' => (a =? b)%N && startswith p' s'
  end.

(** [s.find(sub)]: the lowest index at which [sub] occurs, or [-1]. *)
Fixpoint find_from (i : Z) (sub s : pystr) : Z :=
  if startswith sub s then i
  else match s with
       | [] => -1
       | _ :: r => find_from (i + 1) sub r
       end.

Definition find (s sub : pystr) : Z := find_from 0 sub s.

(** [sub in s] *)
Definition contains (sub s : pystr) : bool := 0 <=? find s sub.

Definition endswith (s suffix : pystr) : bool :=
  startswith (rev suffix) (rev s).

Definition len (s : pystr) : Z := Z.of_nat (length s).

(** Slice bounds as Python normalises them: a negative index counts from
    the end, and both ends are clamped to the string. *)
Definition slice_index (n i : Z) : Z :=
  if i <? 0 then Z.max 0 (i + n) else Z.min i n.

(** [s[lo:hi]] *)
Definition slice (s : pystr) (lo hi : Z) : pystr :=
  let n := len s in
  skipn (Z.to_nat (slice_index n lo)) (firstn (Z.to_nat (slice_index n hi)) s).

(** [s[:hi]] *)
Definition slice_to (s : pystr) (hi : Z) : pystr := slice s 0 hi.

Definition str_eqb (a b : pystr) : bool :=
  (length a =? length b)%nat && startswith a b.

(** The decimal numeral of an integer: what [str(n)] returns when it
    returns. *)
Fixpoint digits_of_uint (d : Decimal.uint) : pystr :=
  match d with
  | Decimal.Nil => []
  | Decimal.D0 r => 48%N :: digits_of_uint r
  | Decimal.D1 r => 49%N :: digits_of_uint r
  | Decimal.D2 r => 50%N :: digits_of_uint r
  | Decimal.D3 r => 51%N :: digits_of_uint r
  | Decimal.D4 r => 52%N :: digits_of_uint r
  | Decimal.D5 r => 53%N :: digits_of_uint r
  | Decimal.D6 r => 54%N :: digits_of_uint r
  | Decimal.D7 r => 55%N :: digits_of_uint r
  | Decimal.D8 r => 56%N :: digits_of_uint r
  | Decimal.D9 r => 57%N :: digits_of_uint r
  end.

Definition decimal_of_int (z : Z) : pystr :=
  match Z.to_int z with
  | Decimal.Pos d => digits_of_uint d
  | Decimal.Neg d => 45%N :: digits_of_uint d
  end.

(** ** Floats

    Python's [float] is IEEE-754 binary64.  The operations below are the
    standard library's executable specification at [prec = 53],
    [emax = 1024]; all roundings are to nearest, ties to even. *)

Definition prec : Z := 53.
Definition emax : Z := 1024.
Definition float := spec_float.

(** Conversion of an integer to the nearest float (exact below [2^53]). *)
Definition float_of_int (n : Z) : float := binary_normalize prec emax n 0 false.

(** [x * y] on floats. *)
Definition float_mul (x y : float) : float := SFmul prec emax x y.

(** [x * n] for a float [x] and an integer [n] within the float range:
    the integer is converted to a float first.  (The integers multiplied
    this way are the multipliers of [safe_int]; [float_times_int] below
    is the product for any integer.) *)
Definition float_mul_int (x : float) (n : Z) : float :=
  float_mul x (float_of_int n).

(** [int(x)]: truncation towards zero; infinities and NaN raise. *)
Definition int_of_float (x : float) : result Z :=
  match x with
  | S754_zero _ => OK 0
  | S754_infinity _ => Raise OverflowError
  | S754_nan => Raise ValueError
  | S754_finite s m e =>
      let a := if 0 <=? e then Z.pos m * 2 ^ e else Z.pos m / 2 ^ (- e) in
      OK (if s then - a else a)
  end.

(** [x * n] for a float [x] and an integer [n] as the interpreter
    evaluates it: an integer too large for a float is refused with an
    [OverflowError] before anything is multiplied. *)
Definition float_times_int (x : float) (n : Z) : result float :=
  match float_of_int n with
  | S754_infinity _ => Raise OverflowError
  | y => OK (float_mul x y)
  end.

(** The argument of [time.sleep(seconds)], as the interpreter checks it
    before it asks the operating system for the delay: NaN is refused with
    a [ValueError]; the duration is multiplied by [1e9] and rounded away
    from zero to a count of nanoseconds, which must fit a signed 64-bit
    integer ([OverflowError] otherwise); a negative count is refused with
    a [ValueError].  (A product of exactly [2 ^ 63] passes the range check
    of CPython 3.11 and is then read as a negative count.) *)
Definition sleep_nanoseconds (seconds : float) : result Z :=
  match seconds with
  | S754_nan => Raise ValueError
  | _ =>
      match float_mul seconds (float_of_int 1000000000) with
      | S754_nan => Raise ValueError
      | S754_infinity _ => Raise OverflowError
      | S754_zero _ => OK 0
      | S754_finite s m e =>
          let ns := if 0 <=? e then Z.pos m * 2 ^ e
                    else (Z.pos m + 2 ^ (- e) - 1) / 2 ^ (- e) in
          if 2 ^ 63 <? ns then Raise OverflowError
          else if s || (ns =? 2 ^ 63) then Raise ValueError
          else OK ns
      end
  end.

Definition is_digit (c : char) : bool := ((48 <=? c) && (c <=? 57))%N.
Definition dot : char := 46%N.

(** Value of a string of ASCII digits read in base ten (most significant
    digit first); [acc] is the value of the digits already read. *)
Fixpoint decimal_value (acc : Z) (s : pystr) : Z :=
  match s with
  | [] => acc
  | c :: r => decimal_value (10 * acc + (Z.of_N c - 48)) r
  end.

(** [int(s)] for a non-empty string [s] of ASCII digits.  The interpreter
    refuses strings of more than [max_str_digits] digits with a
    [ValueError] ([sys.get_int_max_str_digits()], 4300 by default; [0]
    switches the limit off). *)
Definition int_of_digits (max_str_digits : nat) (s : pystr) : result Z :=
  if (negb (max_str_digits =? 0)%nat && (max_str_digits <? length s)%nat)
  then Raise ValueError
  else OK (decimal_value 0 s).

(** The part of [s] before the first ['.'], and what follows that dot
    ([None] when [s] has no dot). *)
Fixpoint split_at_dot (s : pystr) : pystr * option pystr :=
  match s with
  | [] => ([], None)
  | c :: r =>
      if (c =? dot)%N then ([], Some r)
      else let (a, b) := split_at_dot r in (c :: a, b)
  end.

(** [10 ^ k] *)
Fixpoint pow10 (k : nat) : positive :=
  match k with
  | O => 1%positive
  | S k' => (10 * pow10 k')%positive
  end.

(** [float(s)] for a string [s] over the digits and ['.'] that holds at
    least one dot (the only strings [safe_int] passes to [float]): the
    literal must have exactly one dot and at least one digit, and denotes
    the float nearest to the decimal number written. *)
Definition float_of_decimal (s : pystr) : result float :=
  match split_at_dot s with
  | (ip, Some fp) =>
      if forallb is_digit ip && forallb is_digit fp
         && negb ((length ip + length fp =? 0)%nat)
      then
        match decimal_value 0 (ip ++ fp) with
        | Z.pos n =>
            OK (SFdiv prec emax
                  (S754_finite false n 0)
                  (S754_finite false (pow10 (length fp)) 0))
        | _ => OK (S754_zero false)
        end
      else Raise ValueError
  | (_, None) => Raise ValueError
  end.

(** ** What the interpreter and its libraries provide

    [str.lower] follows the Unicode case tables, general [int(s)] accepts
    signs, blanks, underscores and every Unicode decimal digit, and
    formatting a timestamp depends on the local time zone: these are taken
    as given, together with the interpreter's integer-string limit. *)
Class Runtime := {
  (** [s.lower()] *)
  str_lower : pystr -> pystr;
  (** [sys.get_int_max_str_digits()] *)
  int_max_str_digits : nat;
  (** [int(s)] on an arbitrary string; [None] stands for [ValueError]. *)
  int_of_str : pystr -> option Z;
  (** [time.strftime("%Y-%m-%d %H:%M:%S", time.localtime(ts))] *)
  strftime_localtime : Z -> result pystr
}.

(** [str(n)] for an integer, which is also how an f-string writes it:
    an integer of more than [int_max_str_digits] digits is refused with a
    [ValueError] (the sign is not counted; [0] switches the limit off). *)
Definition str_of_int `{Runtime} (z : Z) : result pystr :=
  if negb (int_max_str_digits =? 0)%nat
     && (int_max_str_digits <? length (decimal_of_int (Z.abs z)))%nat
  then Raise ValueError
  else OK (decimal_of_int z).

End Py.

(* ================================================================== *)
(** * src/extractors/content_cleaner.py                                *)
(* ================================================================== *)

Module ContentCleaner.
Import Py.

(** [CONTROL_CHARS_RE = re.compile(r"[\x00-\x08\x0b-\x0c\x0e-\x1f]")] *)
Definition CONTROL_CHARS_RE (c : char) : bool :=
  ((c <=? 8) || (11 <=? c) && (c <=? 12) || (14 <=? c) && (c <=? 31))%N.

(** [CONTROL_CHARS_RE.sub("", text)] *)
Definition sub_control_chars (text : pystr) : pystr :=
  filter (fun c => negb (CONTROL_CHARS_RE c)) text.

(** [WHITESPACE_RE.sub(" ", text)], with [WHITESPACE_RE = re.compile(r"\s+")]:
    every maximal run of whitespace becomes one space.  [in_run] tells
    that the previous character belonged to a run already replaced. *)
Fixpoint sub_whitespace_from (in_run : bool) (text : pystr) : pystr :=
  match text with
  | [] => []
  | c :: r =>
      if isspace c
      then if in_run then sub_whitespace_from true r
           else space :: sub_whitespace_from true r
      else c :: sub_whitespace_from false r
  end.

Definition sub_whitespace (text : pystr) : pystr :=
  sub_whitespace_from false text.

Definition max_len : Z := 10000.

(** [clean_content(text)]; the calls to [logger.debug] have no effect on
    the result and are left out. *)
Definition clean_content (text : option pystr) : pystr :=
  match text with
  | None => []
  | Some text =>
      let text := sub_control_chars text in
      let text := strip (sub_whitespace text) in
      if max_len <? len text then slice_to text max_len else text
  end.

(** The arguments [safe_int] is written for: [None], an [int], or a
    [str]. *)
Inductive value :=
| VNone
| VInt (n : Z)
| VStr (s : pystr).

(** [re.sub(r"[^0-9.]", "", s)] *)
Definition keep_digits_and_dots (s : pystr) : pystr :=
  filter (fun c => is_digit c || (c =? dot)%N) s.

(** The [try] block of [safe_int]. *)
Definition parse_number `{Runtime} (cleaned : pystr) (multiplier : Z) : result Z :=
  if existsb (N.eqb dot) cleaned
  then bind (float_of_decimal cleaned)
         (fun num => int_of_float (float_mul_int num multiplier))
  else bind (int_of_digits int_max_str_digits cleaned)
         (fun num => OK (num * multiplier)).

(** [except ValueError: return 0]; any other exception propagates. *)
Definition except_ValueError (r : result Z) (handler : Z) : result Z :=
  match r with
  | Raise ValueError => OK handler
  | _ => r
  end.

Definition safe_int `{Runtime} (v : value) : result Z :=
  match v with
  | VNone => OK 0
  | VInt n => OK n
  | VStr text =>
      let s := str_lower (strip text) in
      match s with
      | [] => OK 0
      | _ =>
          let '(multiplier, s) :=
            if endswith s (lit "k") then (1000, slice s 0 (-1))
            else if endswith s (lit "m") then (1000000, slice s 0 (-1))
            else (1, s) in
          let cleaned := keep_digits_and_dots s in
          match cleaned with
          | [] => OK 0
          | _ => except_ValueError (parse_number cleaned multiplier) 0
          end
      end
  end.

(** [x or 0] for an optional integer. *)
Definition or_zero (x : option Z) : Z :=
  match x with
  | Some n => n
  | None => 0
  end.

Definition compute_total_engagement
  (like_count comment_count share_count video_views_count : option Z) : Z :=
  let like_count := or_zero like_count in
  let comment_count := or_zero comment_count in
  let share_count := or_zero share_count in
  let video_views_count := or_zero video_views_count in
  let total := like_count + comment_count + share_count + video_views_count in
  if total <? 0 then 0 else total.

End ContentCleaner.

(* ================================================================== *)
(** * src/utils/proxy_manager.py                                       *)
(* ================================================================== *)

Module ProxyManagerPy.
Import Py.

(** A [Dict[str, str]], as the ordered list of its items. *)
Definition dict := list (pystr * pystr).

(** [ProxyType = Union[str, Dict[str, str]]] *)
Inductive ProxyType :=
| ProxyUrl (url : pystr)
| ProxyDict (d : dict).

(** The manager's attributes.  [_cycle] is the position reached by
    [itertools.cycle(self._proxies)], or [None] when there is no proxy. *)
Record ProxyManager := {
  _proxies : list ProxyType;
  _cycle : option nat
}.

(** [ProxyManager(proxy_list)] for an explicit [proxy_list]. *)
Definition __init__ (proxy_list : list ProxyType) : ProxyManager :=
  {| _proxies := proxy_list;
     _cycle := match proxy_list with [] => None | _ => Some O end |}.

Definition get_next_proxy (self : ProxyManager) : option dict * ProxyManager :=
  match _cycle self with
  | None => (None, self)
  | Some i =>
      match nth_error (_proxies self) i with
      | None => (None, self)
      | Some proxy =>
          let self' :=
            {| _proxies := _proxies self;
               _cycle := Some (S i mod length (_proxies self))%nat |} in
          match proxy with
          | ProxyUrl url => (Some [(lit "http", url); (lit "https", url)], self')
          | ProxyDict d => (Some d, self')
          end
      end
  end.

Definition comma : char := 44%N.

(** [_load_from_env], given what the environment holds for
    [SCRAPER_PROXIES] ([None] when the variable is not set). *)
Definition _load_from_env (environ : option pystr) : list ProxyType :=
  let env_val := strip (match environ with Some v => v | None => [] end) in
  match env_val with
  | [] => []
  | _ =>
      flat_map
        (fun token =>
           match strip token with
           | [] => []
           | token => [ProxyDict [(lit "http", token); (lit "https", token)]]
           end)
        (split_on comma env_val)
  end.

(** [ProxyManager(proxy_list)] where [proxy_list] may be [None]: the
    proxies are then read from the environment. *)
Definition new (environ : option pystr) (proxy_list : option (list ProxyType))
  : ProxyManager :=
  __init__ (match proxy_list with
            | None => _load_from_env environ
            | Some proxy_list => proxy_list
            end).

End ProxyManagerPy.

(* ================================================================== *)
(** * The BeautifulSoup tree                                           *)
(* ================================================================== *)

Module Bs4.
Import Py.

#[local] Unset Elimination Schemes.

(** A parsed document: tags with their attributes and contents, and the
    strings between them.  Comments, declarations and the strings of
    script and style elements, which [get_text] passes over, are not
    represented.  The attributes are the tag's [attrs] dictionary as an
    association list (the first binding of a name is the one it holds). *)
Inductive node :=
| NavigableString (s : pystr)
| Tag (name : pystr) (attrs : list (pystr * pystr)) (contents : list node).

#[local] Set Elimination Schemes.

(** [tag.descendants]: every node below [n], in document order. *)
Fixpoint descendants (n : node) : list node :=
  match n with
  | NavigableString _ => []
  | Tag _ _ contents => flat_map (fun c => c :: descendants c) contents
  end.

(** [tag.get(key)] *)
Fixpoint get (attrs : list (pystr * pystr)) (key : pystr) : option pystr :=
  match attrs with
  | [] => None
  | (k, v) :: rest => if str_eqb k key then Some v else get rest key
  end.

(** What a search asks of one attribute: [True] (the attribute is
    there), a string (the value is that string), or, for [class_], a
    class name (one of the whitespace-separated classes, or the whole
    list joined by single spaces, is that name). *)
Inductive attr_filter :=
| IsPresent
| Equals (v : pystr)
| HasClass (cls : pystr).

Definition attr_matches (attrs : list (pystr * pystr)) (f : pystr * attr_filter) : bool :=
  match get attrs (fst f), snd f with
  | None, _ => false
  | Some _, IsPresent => true
  | Some v, Equals w => str_eqb v w
  | Some v, HasClass cls =>
      existsb (str_eqb cls) (split v) || str_eqb (join [space] (split v)) cls
  end.

(** Does node [n] satisfy a search by tag names and attribute filters? *)
Definition matches (names : list pystr) (filters : list (pystr * attr_filter))
  (n : node) : bool :=
  match n with
  | NavigableString _ => false
  | Tag name attrs _ =>
      existsb (str_eqb name) names && forallb (attr_matches attrs) filters
  end.

(** [tag.find_all(names, attrs=filters)] *)
Definition find_all (n : node) (names : list pystr)
  (filters : list (pystr * attr_filter)) : list node :=
  filter (matches names filters) (descendants n).

(** [tag.find(name, ...)]: the first result of [find_all], or [None]. *)
Definition find (n : node) (names : list pystr)
  (filters : list (pystr * attr_filter)) : option node :=
  hd_error (find_all n names filters).

Definition attrs_of (n : node) : list (pystr * pystr) :=
  match n with
  | NavigableString _ => []
  | Tag _ attrs _ => attrs
  end.

Definition name_of (n : node) : pystr :=
  match n with
  | NavigableString _ => []
  | Tag name _ _ => name
  end.

(** The strings below [n], in document order. *)
Fixpoint strings (n : node) : list pystr :=
  match n with
  | NavigableString s => [s]
  | Tag _ _ contents => flat_map strings contents
  end.

(** [tag.get_text(separator, strip=True)]: every string is stripped, the
    empty ones are dropped, the others joined by [separator]. *)
Definition get_text (n : node) (separator : pystr) : pystr :=
  join separator
    (filter (fun s => negb (str_eqb s [])) (map strip (strings n))).

End Bs4.

(* ================================================================== *)
(** * urllib.parse.quote_plus                                          *)
(* ================================================================== *)

Module Urllib.
Import Py.

(** UTF-8 encoding with [errors="strict"]: surrogates cannot be encoded. *)
Definition utf8_encode_char (c : char) : result (list N) :=
  (if c <? 128 then OK [c]
   else if c <? 2048 then OK [192 + c / 64; 128 + c mod 64]
   else if (55296 <=? c) && (c <=? 57343) then Raise UnicodeEncodeError
   else if c <? 65536
        then OK [224 + c / 4096; 128 + (c / 64) mod 64; 128 + c mod 64]
   else if c <? 1114112
        then OK [240 + c / 262144; 128 + (c / 4096) mod 64;
                 128 + (c / 64) mod 64; 128 + c mod 64]
   else Raise UnicodeEncodeError)%N.

Definition utf8_encode (s : pystr) : result (list N) :=
  bind (mapM utf8_encode_char s) (fun bs => OK (concat bs)).

(** The bytes [quote] never escapes: letters, digits and [_.-~]. *)
Definition always_safe (b : N) : bool :=
  ((65 <=? b) && (b <=? 90) || (97 <=? b) && (b <=? 122)
   || (48 <=? b) && (b <=? 57)
   || (b =? 95) || (b =? 46) || (b =? 45) || (b =? 126))%N.

Definition hex_digit (d : N) : char :=
  (if d <? 10 then 48 + d else 55 + d)%N.

Definition percent : char := 37%N.
Definition plus : char := 43%N.

(** One byte of [quote_from_bytes]: itself when safe, [%XX] otherwise. *)
Definition quoter (safe : list N) (b : N) : pystr :=
  if always_safe b || existsb (N.eqb b) safe then [b]
  else [percent; hex_digit (b / 16)%N; hex_digit (b mod 16)%N].

(** [quote(string, safe)] for a [str]. *)
Definition quote (string : pystr) (safe : list N) : result pystr :=
  bind (utf8_encode string) (fun bs => OK (flat_map (quoter safe) bs)).

(** [quote_plus(string)]: spaces become [+]. *)
Definition quote_plus (string : pystr) : result pystr :=
  if existsb (N.eqb space) string
  then bind (quote string [space])
         (fun q => OK (map (fun c => if (c =? space)%N then plus else c) q))
  else quote string [].

End Urllib.

(* ================================================================== *)
(** * src/extractors/facebook_parser.py                                *)
(* ================================================================== *)

Module FacebookParser.
Import Py ContentCleaner ProxyManagerPy Bs4 Urllib.

(** [@dataclass class FacebookPost] *)
Record FacebookPost := {
  permalink : pystr;
  content : pystr;
  media_type : pystr;
  like_count : Z;
  comment_count : Z;
  share_count : Z;
  total_engagement : Z;
  video_views_count : Z;
  date : pystr
}.

(** The [settings] dictionary: the five keys the scraper reads, each
    present or not, with values already of the type the scraper converts
    them to. *)
Record Settings := {
  base_url_setting : option pystr;
  request_timeout : option Z;
  sleep_between_requests_setting : option float;
  max_retries_setting : option Z;
  backoff_factor_setting : option float
}.

(** [d.get(key, default)] *)
Definition get_default {A} (entry : option A) (default : A) : A :=
  match entry with
  | Some v => v
  | None => default
  end.

(** The float [1.5], default of both durations. *)
Definition one_and_a_half : float := S754_finite false 6755399441055744 (-52).

(** The attributes of a scraper that its methods only read; the proxy
    manager, the user-agent rotator and the HTTP session, which the methods
    advance, live in the [World] below. *)
Record FacebookHashtagScraper := {
  hashtag : pystr;
  max_pages : Z;
  settings : Settings;
  base_url : pystr;
  timeout : Z;
  sleep_between_requests : float
}.

Definition __init__ (hashtag : pystr) (max_pages : Z) (settings : Settings)
  : FacebookHashtagScraper :=
  {| hashtag := lstrip_chars (lit "#") hashtag;
     max_pages := max_pages;
     settings := settings;
     base_url := get_default (base_url_setting settings)
                   (lit "https://www.facebook.com/hashtag/");
     timeout := get_default (request_timeout settings) 15;
     sleep_between_requests :=
       get_default (sleep_between_requests_setting settings) one_and_a_half |}.

Definition _build_page_url `{Runtime} (self : FacebookHashtagScraper) (page : Z)
  : result pystr :=
  bind (quote_plus (hashtag self)) (fun encoded =>
    if page <=? 1
    then OK (base_url self ++ encoded)
    else bind (str_of_int page) (fun digits =>
           OK (base_url self ++ encoded ++ lit "?page=" ++ digits))).

(** ** The outside world *)

(** The keyword arguments of one [session.get]. *)
Record Request := {
  req_url : pystr;
  req_headers : dict;
  req_timeout : Z;
  req_proxies : option dict
}.

(** What [session.get] does: a response with its status code and text, or
    a [requests.RequestException]. *)
Inductive Outcome :=
| Response (status_code : Z) (text : pystr)
| RequestException.

(** The collaborators the scraper is given: a user-agent rotator with
    its own state, the HTTP transport (the answer to the [n]-th request
    the session sends, counting from 0) and the HTML parser
    ([BeautifulSoup(html, "html.parser")]); and the operating system's
    clock, asked for a delay of so many nanoseconds, which answers with
    an [OSError] when it refuses the delay. *)
Class Collaborators := {
  UserAgentRotator : Type;
  get_user_agent : UserAgentRotator -> pystr * UserAgentRotator;
  session_get : nat -> Request -> Outcome;
  BeautifulSoup : pystr -> node;
  nanosleep : Z -> result unit
}.

(** The calls made to the collaborators and to the clock, in order. *)
Inductive Event :=
| CallGetUserAgent (returned : pystr)
| CallGetNextProxy (returned : option dict)
| CallGet (request : Request)
| CallSleep (seconds : float).

(** The state the methods advance: the two rotators, the number of
    requests the session has sent, and the calls made so far. *)
Record World `{Collaborators} := {
  user_agent_rotator : UserAgentRotator;
  proxy_manager : ProxyManager;
  requests_sent : nat;
  trace : list Event
}.

Section Methods.
Context {rt : Runtime} {env : Collaborators}.

Definition log (e : Event) (w : World) : World :=
  {| user_agent_rotator := user_agent_rotator w;
     proxy_manager := proxy_manager w;
     requests_sent := requests_sent w;
     trace := trace w ++ [e] |}.

(** [self.user_agent_rotator.get_user_agent()] *)
Definition call_get_user_agent (w : World) : pystr * World :=
  let (ua, rotator) := get_user_agent (user_agent_rotator w) in
  (ua, log (CallGetUserAgent ua)
         {| user_agent_rotator := rotator;
            proxy_manager := proxy_manager w;
            requests_sent := requests_sent w;
            trace := trace w |}).

(** [self.proxy_manager.get_next_proxy()] *)
Definition call_get_next_proxy (w : World) : option dict * World :=
  let (proxies, manager) := get_next_proxy (proxy_manager w) in
  (proxies, log (CallGetNextProxy proxies)
              {| user_agent_rotator := user_agent_rotator w;
                 proxy_manager := manager;
                 requests_sent := requests_sent w;
                 trace := trace w |}).

(** [self.session.get(url, **request_kwargs)] *)
Definition call_get (request : Request) (w : World) : Outcome * World :=
  (session_get (requests_sent w) request,
   log (CallGet request)
     {| user_agent_rotator := user_agent_rotator w;
        proxy_manager := proxy_manager w;
        requests_sent := S (requests_sent w);
        trace := trace w |}).

(** [time.sleep(seconds)]: the interpreter checks the duration, then the
    operating system is asked for the delay; either can refuse. *)
Definition time_sleep (seconds : float) : result unit :=
  bind (sleep_nanoseconds seconds) nanosleep.

(** A call of [time.sleep]: recorded with its argument, whether or not
    it raises. *)
Definition call_sleep (seconds : float) (w : World) : result unit * World :=
  (time_sleep seconds, log (CallSleep seconds) w).

(** [range(lo, hi)] *)
Definition range (lo hi : Z) : list Z :=
  map (fun i => lo + Z.of_nat i) (seq 0 (Z.to_nat (hi - lo))).

(** The loop [for attempt in range(1, max_retries + 1)] of [_fetch_page],
    over the attempts still to make, and the two statements after it.
    The product and the sleep are outside the [try]: what they raise
    leaves the loop and the method. *)
Fixpoint fetch_attempts (request : Request) (max_retries : Z)
  (backoff_factor : float) (attempts : list Z) (w : World)
  : result (option pystr) * World :=
  match attempts with
  | [] => (OK None, w)
  | attempt :: rest =>
      let (outcome, w) := call_get request w in
      let retry (w : World) :=
        if attempt <? max_retries
        then
          match float_times_int backoff_factor attempt with
          | Raise e => (Raise e, w)
          | OK sleep_time =>
              let (slept, w) := call_sleep sleep_time w in
              match slept with
              | Raise e => (Raise e, w)
              | OK _ =>
                  fetch_attempts request max_retries backoff_factor rest w
              end
          end
        else fetch_attempts request max_retries backoff_factor rest w in
      match outcome with
      | Response status_code text =>
          if status_code =? 200 then (OK (Some text), w) else retry w
      | RequestException => retry w
      end
  end.

Definition _fetch_page (self : FacebookHashtagScraper) (url : pystr) (w : World)
  : result (option pystr) * World :=
  let (user_agent, w) := call_get_user_agent w in
  let headers := [(lit "User-Agent", user_agent);
                  (lit "Accept-Language", lit "en-US,en;q=0.9")] in
  let (proxies, w) := call_get_next_proxy w in
  let request :=
    {| req_url := url;
       req_headers := headers;
       req_timeout := timeout self;
       req_proxies := match proxies with
                      | Some (_ :: _) => proxies
                      | _ => None
                      end |} in
  let max_retries := get_default (max_retries_setting (settings self)) 3 in
  let backoff_factor :=
    get_default (backoff_factor_setting (settings self)) one_and_a_half in
  fetch_attempts request max_retries backoff_factor
    (range 1 (max_retries + 1)) w.

Definition _detect_media_type (n : node) : pystr :=
  match find n [lit "video"] [] with
  | Some _ => lit "video"
  | None =>
      match find n [lit "img"] [] with
      | Some _ => lit "photo"
      | None => lit "text"
      end
  end.

(** The loop [for tok in tokens] of [_extract_stat]. *)
Fixpoint scan_tokens (tokens : list pystr) (candidate_value : Z) : result Z :=
  match tokens with
  | [] => OK candidate_value
  | tok :: rest =>
      bind (safe_int (VStr tok)) (fun val =>
        scan_tokens rest
          (if candidate_value <? val then val else candidate_value))
  end.

(** The loop [for keyword in keywords] of [_extract_stat]. *)
Fixpoint scan_keywords (text : pystr) (keywords : list pystr)
  (candidate_value : Z) : result Z :=
  match keywords with
  | [] => OK candidate_value
  | keyword :: rest =>
      let idx := Py.find text keyword in
      if idx =? -1 then scan_keywords text rest candidate_value
      else
        let window := slice text (Z.max 0 (idx - 10)) (idx + 20) in
        let tokens := split window in
        bind (scan_tokens tokens candidate_value)
          (scan_keywords text rest)
  end.

Definition _extract_stat (n : node) (keywords : list pystr) : result Z :=
  let text := str_lower (get_text n [space]) in
  scan_keywords text keywords 0.

(** The loop [for tag_name in ["time", "abbr"]] of [_extract_date] and
    the final [return ""]. *)
Fixpoint date_from_tags (n : node) (tag_names : list pystr) : pystr :=
  match tag_names with
  | [] => []
  | tag_name :: rest =>
      match find n [tag_name] [] with
      | None => date_from_tags n rest
      | Some t =>
          match get (attrs_of t) (lit "title") with
          | Some (c :: title) => c :: title
          | _ =>
              match get_text t [] with
              | [] => date_from_tags n rest
              | text => text
              end
          end
      end
  end.

Definition _extract_date (n : node) : result pystr :=
  let fallback := date_from_tags n [lit "time"; lit "abbr"] in
  match find n [lit "abbr"] [] with
  | None => OK fallback
  | Some time_tag =>
      match get (attrs_of time_tag) (lit "data-utime") with
      | None => OK fallback
      | Some utime =>
          match int_of_str utime with
          | None => OK fallback
          | Some ts =>
              match strftime_localtime ts with
              | Raise ValueError => OK fallback
              | formatted => formatted
              end
          end
      end
  end.

(** The permalink statements that open [_parse_single_post]. *)
Definition find_permalink (n : node) : pystr :=
  match find n [lit "a"] [(lit "href", IsPresent)] with
  | None => []
  | Some link =>
      let href := get_default (get (attrs_of link) (lit "href")) [] in
      if contains (lit "facebook.com") href then href
      else lit "https://www.facebook.com" ++ href
  end.

(** The content statements of [_parse_single_post], up to [raw_content]. *)
Definition find_raw_content (n : node) : pystr :=
  let content_blocks :=
    flat_map
      (fun cls =>
         filter (fun text => negb (str_eqb text []))
           (map (fun div => get_text div [space])
              (find_all n [lit "div"] [(lit "class", HasClass cls)])))
      [lit "userContent"; lit "ecm0bbzt"] in
  let content_blocks :=
    match content_blocks with
    | [] => match get_text n [space] with
            | [] => []
            | text => [text]
            end
    | _ => content_blocks
    end in
  join [space] content_blocks.

Definition _parse_single_post (n : node) : result (option FacebookPost) :=
  let permalink := find_permalink n in
  let content := clean_content (Some (find_raw_content n)) in
  match content, permalink with
  | [], [] => OK None
  | _, _ =>
      let media_type := _detect_media_type n in
      bind (_extract_stat n [lit "like"; lit "reaction"]) (fun stat =>
      bind (safe_int (VInt stat)) (fun like_count =>
      bind (_extract_stat n [lit "comment"]) (fun stat =>
      bind (safe_int (VInt stat)) (fun comment_count =>
      bind (_extract_stat n [lit "share"]) (fun stat =>
      bind (safe_int (VInt stat)) (fun share_count =>
      bind (_extract_stat n [lit "view"]) (fun stat =>
      bind (safe_int (VInt stat)) (fun video_views_count =>
      let total_engagement :=
        compute_total_engagement (Some like_count) (Some comment_count)
          (Some share_count) (Some video_views_count) in
      bind (_extract_date n) (fun date_str =>
      OK (Some {| permalink := permalink;
                  content := content;
                  media_type := media_type;
                  like_count := like_count;
                  comment_count := comment_count;
                  share_count := share_count;
                  total_engagement := total_engagement;
                  video_views_count := video_views_count;
                  date := date_str |}))))))))))
  end.

(** The two searches that open [_parse_page]. *)
Definition find_candidates (soup : node) : list node :=
  match find_all soup [lit "article"; lit "div"]
          [(lit "role", Equals (lit "article"))] with
  | [] => find_all soup [lit "div"] [(lit "data-ft", IsPresent)]
  | candidates => candidates
  end.

(** [_parse_page]: a candidate whose parsing raises is logged and
    skipped ([except Exception]). *)
Definition _parse_page (html : pystr) : list FacebookPost :=
  let soup := BeautifulSoup html in
  flat_map
    (fun n => match _parse_single_post n with
              | OK (Some post) => [post]
              | OK None => []
              | Raise _ => []
              end)
    (find_candidates soup).

(** The loop [for page in range(1, self.max_pages + 1)] of [run], over
    the pages still to visit, and the final [return all_posts].  The
    records stand for the dictionaries [asdict] makes of them.  What
    [_build_page_url], [_fetch_page] or the sleep raises ends the run. *)
Fixpoint run_pages (self : FacebookHashtagScraper) (pages : list Z)
  (all_posts : list FacebookPost) (w : World)
  : result (list FacebookPost * World) :=
  match pages with
  | [] => OK (all_posts, w)
  | page :: rest =>
      bind (_build_page_url self page) (fun url =>
        let (html, w) := _fetch_page self url w in
        match html with
        | Raise e => Raise e
        | OK None => OK (all_posts, w)
        | OK (Some []) => OK (all_posts, w)
        | OK (Some html) =>
            match _parse_page html with
            | [] => OK (all_posts, w)
            | page_posts =>
                let (slept, w) :=
                  call_sleep (sleep_between_requests self) w in
                match slept with
                | Raise e => Raise e
                | OK _ => run_pages self rest (all_posts ++ page_posts) w
                end
            end
        end)
  end.

Definition run (self : FacebookHashtagScraper) (w : World)
  : result (list FacebookPost * World) :=
  run_pages self (range 1 (max_pages self + 1)) [] w.

End Methods.

End FacebookParser.

(* ================================================================== *)
(** * The specification's vocabulary                                   *)
(* ================================================================== *)

Module Spec.
Import Py ContentCleaner ProxyManagerPy Bs4 Urllib FacebookParser.

(** ** What is assumed of the interpreter *)

Definition is_ascii (c : char) : bool := (c <? 128)%N.

(** [str.lower] on one ASCII character. *)
Definition ascii_lower_char (c : char) : char :=
  if ((65 <=? c) && (c <=? 90))%N then (c + 32)%N else c.

(** What every CPython interpreter guarantees of a [Runtime]:
    on ASCII text [str.lower] lowers the letters A-Z and nothing else;
    on any text it leaves the ASCII digits and dots where they are and
    makes no new ones; and the limit on integer strings is either off or
    at least 640. *)
Record conforming (rt : Runtime) : Prop := {
  lower_ascii :
    forall s, forallb is_ascii s = true ->
              str_lower s = map ascii_lower_char s;
  lower_digits :
    forall s, keep_digits_and_dots (str_lower s) = keep_digits_and_dots s;
  digits_threshold :
    int_max_str_digits = 0%nat \/ (640 <= int_max_str_digits)%nat
}.

(** ** Words of the claims *)

(** The character '#'. *)
Definition hash : char := 35%N.

(** [sub] occurs in [s]. *)
Definition occurs_in (sub s : pystr) : Prop :=
  exists before after, s = before ++ sub ++ after.

(** [sub] occurs in [s] at index [i], and nowhere before. *)
Definition first_occurrence (sub s : pystr) (i : nat) : Prop :=
  startswith sub (skipn i s) = true /\ (i <= length s)%nat /\
  forall j, (j < i)%nat -> startswith sub (skipn j s) = false.

(** The characters of [text] at the indices from [idx - 10] up to, and
    not including, [idx + 20]. *)
Definition window_around (text : pystr) (idx : nat) : pystr :=
  skipn (idx - 10) (firstn (idx + 20) text).

(** The whitespace-delimited tokens of the windows around the first
    occurrence of each keyword that occurs in [text]. *)
Inductive window_tokens (text : pystr) : list pystr -> list pystr -> Prop :=
| wt_nil : window_tokens text [] []
| wt_absent keyword rest tokens :
    ~ occurs_in keyword text ->
    window_tokens text rest tokens ->
    window_tokens text (keyword :: rest) tokens
| wt_present keyword rest tokens idx :
    first_occurrence keyword text idx ->
    window_tokens text rest tokens ->
    window_tokens text (keyword :: rest)
      (split (window_around text idx) ++ tokens).

(** The same tokens, computed. *)
Fixpoint window_tokens_of (text : pystr) (keywords : list pystr) : list pystr :=
  match keywords with
  | [] => []
  | keyword :: rest =>
      let idx := Py.find text keyword in
      if idx <? 0 then window_tokens_of text rest
      else split (window_around text (Z.to_nat idx))
             ++ window_tokens_of text rest
  end.

(** The text [clean_content] has before it looks at the length. *)
Definition normalized (text : pystr) : pystr :=
  strip (sub_whitespace (sub_control_chars text)).

(** Whitespace is normalised in [s]: every whitespace character is a
    space and no two follow each other; [after_space] tells that the
    character before [s] is a space. *)
Fixpoint single_spaced (after_space : bool) (s : pystr) : bool :=
  match s with
  | [] => true
  | c :: r =>
      if isspace c
      then (c =? space)%N && negb after_space && single_spaced true r
      else single_spaced false r
  end.

(** The largest of the values, and at least 0. *)
Definition maximum (values : list Z) : Z := fold_right Z.max 0 values.

(** The values [safe_int] gives to the tokens, in order; the first token
    on which it raises decides the exception. *)
Definition token_values `{Runtime} (tokens : list pystr) : result (list Z) :=
  mapM (fun tok => safe_int (VStr tok)) tokens.

(** A float that is not a negative number. *)
Definition not_negative (x : float) : Prop :=
  match x with
  | S754_finite true _ _ => False
  | _ => True
  end.

(** A float that is zero or finite, of magnitude below [2 ^ B]. *)
Definition finite_below (B : Z) (x : float) : Prop :=
  match x with
  | S754_zero _ => True
  | S754_finite _ m e => Zdigits2 (Z.pos m) + e <= B /\ e <= 971
  | _ => False
  end.

(** The counters of a post are non-negative and add up to its total. *)
Definition counters_in_order (post : FacebookPost) : Prop :=
  0 <= like_count post /\ 0 <= comment_count post /\
  0 <= share_count post /\ 0 <= video_views_count post /\
  total_engagement post
  = like_count post + comment_count post + share_count post
    + video_views_count post.

(** A path: an href that starts with a slash. *)
Definition is_path (href : pystr) : bool := startswith (lit "/") href.

Definition site_domain : pystr := lit "facebook.com".
Definition site_origin : pystr := lit "https://www.facebook.com".

(** [n] is an element named [name]. *)
Definition named (name : String.string) (n : node) : Prop :=
  match n with
  | Tag nm _ _ => nm = lit name
  | NavigableString _ => False
  end.

(** [n] is an element whose attribute [key] is [v]. *)
Definition has_attr_value (key : String.string) (v : pystr) (n : node) : Prop :=
  get (attrs_of n) (lit key) = Some v.

(** [n] is an element that carries an attribute [key]. *)
Definition has_attr (key : String.string) (n : node) : Prop :=
  exists v, has_attr_value key v n.

(** [l] keeps, in their order, every element of [all] that satisfies
    [must], and only elements that satisfy [may]. *)
Inductive keeps {A} (must may : A -> Prop) : list A -> list A -> Prop :=
| keeps_nil : keeps must may [] []
| keeps_this a all l :
    may a -> keeps must may all l -> keeps must may (a :: all) (a :: l)
| keeps_skip a all l :
    ~ must a -> keeps must may all l -> keeps must may (a :: all) l.

(** [l] is, in their order, the elements of [all] that satisfy [P]. *)
Definition selects {A} (P : A -> Prop) (all l : list A) : Prop :=
  keeps P P all l.

(** [link] is the first anchor below [n] that carries an href, and
    [href] is the value of that attribute. *)
Definition first_anchor_with_href (n link : node) (href : pystr) : Prop :=
  exists before after,
    descendants n = before ++ link :: after /\
    named "a" link /\ has_attr_value "href" href link /\
    forall e, In e before -> ~ (named "a" e /\ has_attr "href" e).

(** Layer 1 as the specification words it: an article element, or any
    element with [role=article]. *)
Definition layer1_as_specified (e : node) : Prop :=
  named "article" e \/ has_attr_value "role" (lit "article") e.

(** Layer 2 as the specification words it: a truthy [data-ft]. *)
Definition layer2_as_specified (e : node) : Prop :=
  exists v, has_attr_value "data-ft" v e /\ v <> [].

(** The calls of one turn of the retry loop, as the code makes them. *)
Definition attempt_calls (request : Request) (max_retries : Z)
  (backoff_factor : float) (attempt : Z) : list Event :=
  CallGet request
    :: (if attempt <? max_retries
        then [CallSleep (float_mul_int backoff_factor attempt)]
        else []).

(** The calls of one attempt that fails and is followed by another. *)
Definition failed_attempt (request : Request) (backoff_factor : float)
  (attempt : Z) : list Event :=
  [CallGet request; CallSleep (float_mul_int backoff_factor attempt)].

(** The calls of a fetch whose last attempt has number [last]: the
    attempts [1 .. last - 1] fail and are each followed by a sleep, the
    attempt [last] is followed by none. *)
Definition attempts_up_to (request : Request) (backoff_factor : float)
  (last : Z) : list Event :=
  flat_map (failed_attempt request backoff_factor) (range 1 last)
  ++ [CallGet request].

(** The answer is not a 200 response. *)
Definition retryable (o : Outcome) : Prop :=
  match o with
  | Response status_code _ => status_code <> 200
  | RequestException => True
  end.

(** [time.sleep(backoff_factor * attempt)] as the retry loop evaluates
    it: the product, then the sleep. *)
Definition backoff_sleep `{Collaborators} (backoff_factor : float)
  (attempt : Z) : result unit :=
  bind (float_times_int backoff_factor attempt) time_sleep.

Definition is_get (e : Event) : bool :=
  match e with
  | CallGet _ => true
  | _ => false
  end.

(** The request a fetch of [url] sends from the world [w]: its
    user agent and its proxies are the ones the rotators hand out in [w]. *)
Definition request_of `{Collaborators} (self : FacebookHashtagScraper)
  (url : pystr) (w : World) : Request :=
  {| req_url := url;
     req_headers :=
       [(lit "User-Agent", fst (get_user_agent (user_agent_rotator w)));
        (lit "Accept-Language", lit "en-US,en;q=0.9")];
     req_timeout := timeout self;
     req_proxies :=
       match fst (get_next_proxy (proxy_manager w)) with
       | Some (item :: items) => Some (item :: items)
       | _ => None
       end |}.

(** The two calls to the rotators that open a fetch from the world [w]. *)
Definition rotation_calls `{Collaborators} (w : World) : list Event :=
  [CallGetUserAgent (fst (get_user_agent (user_agent_rotator w)));
   CallGetNextProxy (fst (get_next_proxy (proxy_manager w)))].

(** The world [w] after [sent] more requests and the calls [calls]. *)
Definition advance `{Collaborators} (w : World) (sent : nat)
  (calls : list Event) : World :=
  {| user_agent_rotator := user_agent_rotator w;
     proxy_manager := proxy_manager w;
     requests_sent := requests_sent w + sent;
     trace := trace w ++ calls |}.

(** The world [w] once both rotators have been called. *)
Definition rotated `{Collaborators} (w : World) : World :=
  {| user_agent_rotator := snd (get_user_agent (user_agent_rotator w));
     proxy_manager := snd (get_next_proxy (proxy_manager w));
     requests_sent := requests_sent w;
     trace := trace w ++ rotation_calls w |}.

(** The calls of a fetch as the specification words them: each attempt
    obtains a user agent and a proxy configuration from the rotators and
    sends its request with that user agent; sleeps come in between. *)
Inductive rotates_per_attempt : list Event -> Prop :=
| rpa_done : rotates_per_attempt []
| rpa_attempt user_agent proxies request rest :
    In (lit "User-Agent", user_agent) (req_headers request) ->
    rotates_per_attempt rest ->
    rotates_per_attempt
      (CallGetUserAgent user_agent :: CallGetNextProxy proxies
         :: CallGet request :: rest)
| rpa_sleep seconds rest :
    rotates_per_attempt rest ->
    rotates_per_attempt (CallSleep seconds :: rest).

Definition is_fetch_start (e : Event) : bool :=
  match e with
  | CallGetUserAgent _ => true
  | _ => false
  end.

(** Number of page fetches among the calls: each starts by asking for a
    user agent. *)
Definition count_fetches (events : list Event) : nat :=
  length (filter is_fetch_start events).


(** Number of HTTP requests among the calls. *)
Definition count_gets (events : list Event) : nat :=
  length (filter is_get events).

(** ** Words of the further properties *)

(** A character [clean_content] does not keep as it is: whitespace or
    one of the control characters. *)
Definition blank (c : char) : bool := isspace c || CONTROL_CHARS_RE c.

(** The other characters of [s], in their order. *)
Definition visible (s : pystr) : pystr := filter (fun c => negb (blank c)) s.

(** The ASCII digits of [s], in their order. *)
Definition digits_of (s : pystr) : pystr := filter is_digit s.

(** The multiplier a last character stands for: a thousand for the letter
    K, a million for the letter M, in either case, and one otherwise. *)
Definition suffix_multiplier (last : char) : Z :=
  if ((last =? 107) || (last =? 75))%N then 1000
  else if ((last =? 109) || (last =? 77))%N then 1000000
  else 1.

(** The [proxies] argument [requests] is given for a configured proxy:
    a URL stands for both schemes, a dictionary for itself. *)
Definition as_requests_proxies (proxy : ProxyType) : dict :=
  match proxy with
  | ProxyUrl url => [(lit "http", url); (lit "https", url)]
  | ProxyDict d => d
  end.

(** The answers of [k] calls of [get_next_proxy] in a row, and the
    manager after them. *)
Fixpoint successive_proxies (k : nat) (self : ProxyManager)
  : list (option dict) * ProxyManager :=
  match k with
  | O => ([], self)
  | S k' =>
      let (answer, self) := get_next_proxy self in
      let (answers, self) := successive_proxies k' self in
      (answer :: answers, self)
  end.

(** The entry a proxy URL read from the environment becomes. *)
Definition proxy_of_token (token : pystr) : ProxyType :=
  ProxyDict [(lit "http", token); (lit "https", token)].

(** A token as the environment variable lists it: not empty, without
    whitespace at either end, and without a comma. *)
Definition is_token (token : pystr) : Prop :=
  token <> [] /\ strip token = token /\ ~ In comma token.

(** [e] is the first element named [name] below [n]. *)
Definition first_named (name : String.string) (n e : node) : Prop :=
  exists before after,
    descendants n = before ++ e :: after /\ named name e /\
    forall x, In x before -> ~ named name x.

(** No element below [n] is named [name]. *)
Definition none_named (name : String.string) (n : node) : Prop :=
  forall e, In e (descendants n) -> ~ named name e.

(** The characters a percent-encoded string is made of: the letters,
    the digits, [_.-~], the percent sign and the plus sign. *)
Definition url_safe (c : char) : bool :=
  always_safe c || (c =? percent)%N || (c =? plus)%N.

(** A Unicode scalar value: a code point that is not a surrogate. *)
Definition is_scalar_value (c : char) : bool :=
  ((c <? 55296) || (57343 <? c) && (c <? 1114112))%N.

(** The query a page number adds to the URL. *)
Definition page_query (page : Z) : pystr :=
  if page <=? 1 then [] else lit "?page=" ++ decimal_of_int page.

(** The numeral of [z] is within the limit on integer strings: the limit
    is off, or the numeral has no more digits than it allows (the sign
    is not counted). *)
Definition numeral_within_limit `{Runtime} (z : Z) : bool :=
  (int_max_str_digits =? 0)%nat
  || (length (decimal_of_int (Z.abs z)) <=? int_max_str_digits)%nat.


(** What holds of every record the scraper returns. *)
Definition well_formed (post : FacebookPost) : Prop :=
  counters_in_order post /\
  (content post <> [] \/ permalink post <> []) /\
  len (content post) <= 10000 /\
  (permalink post = [] \/ occurs_in site_domain (permalink post)).


End Spec.

(* ================================================================== *)
(** * Reference runtime and sample inputs                              *)
(* ================================================================== *)

Module Samples.
Import Py ContentCleaner ProxyManagerPy Bs4 Urllib FacebookParser Spec.

(** [int(s)] where [s] is made of ASCII digits only. *)
Definition int_of_ascii_digits (s : pystr) : option Z :=
  match s with
  | [] => None
  | _ => if forallb is_digit s then Some (decimal_value 0 s) else None
  end.

(** An interpreter as seen on ASCII text, with the default limit on
    integer strings.  No sample carries a timestamp, and the local time
    zone is left unset. *)
Definition ascii_runtime : Runtime :=
  {| str_lower := map ascii_lower_char;
     int_max_str_digits := 4300;
     int_of_str := int_of_ascii_digits;
     strftime_localtime := fun _ => Raise OSError |}.


(** Modelled from the spec: the Identity Rotator (the user-agent
    rotator the scraper is constructed with), whose code is not among the
    sources: a fixed list and a round-robin cursor that advances exactly
    once per call and wraps at the end of the list; with no identity
    configured, a fixed default is returned on each call. *)
Record IdentityRotator := {
  identities : list pystr;
  cursor : nat
}.

Definition default_identity : pystr := lit "python-requests".

Definition next_identity (r : IdentityRotator) : pystr * IdentityRotator :=
  match nth_error (identities r) (cursor r) with
  | Some identity =>
      (identity,
       {| identities := identities r;
          cursor := (S (cursor r) mod length (identities r))%nat |})
  | None => (default_identity, r)
  end.

(** An operating system that grants every delay its clock can count:
    Linux refuses a deadline of 9,223,372,036 seconds or more. *)
Definition system_clock (ns : Z) : result unit :=
  if 9223372036000000000 <=? ns then Raise OSError else OK tt.

(** Collaborators for the samples: the rotator above, a transport that
    answers the [n]-th request with the [n]-th entry of a script (and
    fails once the script is over), a given parser, and the clock
    above. *)
Definition scripted (script : list Outcome) (parser : pystr -> node)
  : Collaborators :=
  {| UserAgentRotator := IdentityRotator;
     get_user_agent := next_identity;
     session_get := fun n _ => nth n script RequestException;
     BeautifulSoup := parser;
     nanosleep := system_clock |}.

(** A world with two identities and two proxies, before any call. *)
Definition fresh_world (env : Collaborators)
  (rotator : @UserAgentRotator env) : @World env :=
  {| user_agent_rotator := rotator;
     proxy_manager :=
       ProxyManagerPy.__init__
         [ProxyUrl (lit "http://proxy-1:8080");
          ProxyUrl (lit "http://proxy-2:8080")];
     requests_sent := 0;
     trace := [] |}.

Definition two_identities : IdentityRotator :=
  {| identities := [lit "agent-1"; lit "agent-2"]; cursor := 0 |}.

Definition default_settings : Settings :=
  {| base_url_setting := None;
     request_timeout := None;
     sleep_between_requests_setting := None;
     max_retries_setting := None;
     backoff_factor_setting := None |}.

(** Three sample pages and the trees [html.parser] makes of them. *)
Definition page_one_html : pystr :=
  lit "<div role=article><div class=userContent>Hello  world</div><img src=cat.png><a href=/posts/1>12 likes</a></div>".

Definition page_one_post : node :=
  Tag (lit "div") [(lit "role", lit "article")]
    [Tag (lit "div") [(lit "class", lit "userContent")]
       [NavigableString (lit "Hello  world")];
     Tag (lit "img") [(lit "src", lit "cat.png")] [];
     Tag (lit "a") [(lit "href", lit "/posts/1")]
       [NavigableString (lit "12 likes")]].

Definition page_two_html : pystr :=
  lit "<article role=article>Second post, 3 comments <a href=https://www.facebook.com/p/2>open</a></article>".

Definition page_two_post : node :=
  Tag (lit "article") [(lit "role", lit "article")]
    [NavigableString (lit "Second post, 3 comments ");
     Tag (lit "a") [(lit "href", lit "https://www.facebook.com/p/2")]
       [NavigableString (lit "open")]].

(** The record extracted from the first sample page. *)
Definition page_one_record : FacebookPost :=
  {| permalink := lit "https://www.facebook.com/posts/1";
     content := lit "Hello world";
     media_type := lit "photo";
     like_count := 12;
     comment_count := 0;
     share_count := 0;
     total_engagement := 12;
     video_views_count := 0;
     date := [] |}.

Definition empty_page_html : pystr := lit "<p>nothing here</p>".

Definition empty_page_body : node :=
  Tag (lit "p") [] [NavigableString (lit "nothing here")].

(** A section that carries [role=article]. *)
Definition section_html : pystr := lit "<section role=article>hello</section>".

Definition section_element : node :=
  Tag (lit "section") [(lit "role", lit "article")]
    [NavigableString (lit "hello")].

(** A candidate whose only anchor points outside the site. *)
Definition external_link_post : node :=
  Tag (lit "div") [(lit "role", lit "article")]
    [Tag (lit "a") [(lit "href", lit "http://example.com/p")]
       [NavigableString (lit "elsewhere")]].

Definition document (contents : list node) : node :=
  Tag (lit "[document]") [] contents.

(** [BeautifulSoup(html, "html.parser")] on the sample pages. *)
Definition sample_parser (html : pystr) : node :=
  if str_eqb html page_one_html then document [page_one_post]
  else if str_eqb html page_two_html then document [page_two_post]
  else if str_eqb html empty_page_html then document [empty_page_body]
  else if str_eqb html section_html then document [section_element]
  else document [].

(** The specification's pagination scenario: pages 1 and 2 are served,
    every request for page 3 fails. *)
Definition two_pages_then_nothing : Collaborators :=
  scripted
    [Response 200 page_one_html; Response 200 page_two_html;
     Response 404 []; RequestException; Response 500 []]
    sample_parser.

(** Page 1 is served and holds no post. *)
Definition one_empty_page : Collaborators :=
  scripted [Response 200 empty_page_html] sample_parser.

(** Every request fails. *)
Definition unreachable_site : Collaborators := scripted [] sample_parser.

Definition cats_scraper (max_pages : Z) : FacebookHashtagScraper :=
  FacebookParser.__init__ (lit "#cats") max_pages default_settings.

(** 9999 letters [a], a space and a letter [b]. *)
Definition long_text : pystr := repeat 97%N 9999 ++ lit " b".

(** The digit 1, 309 zeros and a dot: [10 ** 309], written as a float. *)
Definition overflow_text : pystr := lit "1" ++ repeat 48%N 309 ++ lit ".".

(** A text with blanks of several kinds around and between two words. *)
Definition untidy_text : pystr :=
  lit "  Hello" ++ [9%N; 10%N; 7%N] ++ lit "world  ".

(** A price in thousands, without its last letter. *)
Definition price_tag_body : pystr := lit " $3,45".

(** 4301 digits 9: one more than the interpreter's default limit. *)
Definition endless_number : pystr := repeat 57%N 4301.

(** Three proxies, the second given as a dictionary. *)
Definition three_proxies : list ProxyType :=
  [ProxyUrl (lit "http://proxy-1:8080");
   ProxyDict [(lit "https", lit "http://proxy-2:8080")];
   ProxyUrl (lit "http://proxy-3:8080")].

(** A value of [SCRAPER_PROXIES] that names no proxy. *)
Definition blank_environment : option pystr := Some (lit " , ,  ").

(** Two proxy URLs, as [SCRAPER_PROXIES] would list them. *)
Definition two_proxy_urls : list pystr :=
  [lit "http://proxy-1:8080"; lit "http://user:pw@proxy-2:3128"].

(** The civil date (year, month, day) of a day counted from 1970-01-01,
    in the proleptic Gregorian calendar. *)
Definition civil_from_days (days : Z) : Z * Z * Z :=
  let z := days + 719468 in
  let era := z / 146097 in
  let doe := z - era * 146097 in
  let yoe := (doe - doe / 1460 + doe / 36524 - doe / 146096) / 365 in
  let doy := doe - (365 * yoe + yoe / 4 - yoe / 100) in
  let mp := (5 * doy + 2) / 153 in
  let d := doy - (153 * mp + 2) / 5 + 1 in
  let m := if mp <? 10 then mp + 3 else mp - 9 in
  (if m <=? 2 then yoe + era * 400 + 1 else yoe + era * 400, m, d).

(** [%m], [%d], [%H], [%M] and [%S]: two digits. *)
Definition two_digits (n : Z) : pystr :=
  (if n <? 10 then lit "0" else []) ++ decimal_of_int n.

(** [time.strftime("%Y-%m-%d %H:%M:%S", time.localtime(ts))] where the
    local time zone is UTC and the platform's [time_t] has 64 bits: a
    timestamp that does not fit [time_t] is refused with an
    [OverflowError], a year that does not fit the C structure with an
    [OSError], a year beyond [2 ^ 31 - 1] with an [OverflowError]. *)
Definition strftime_utc (ts : Z) : result pystr :=
  if (ts <? - 2 ^ 63) || (2 ^ 63 <=? ts) then Raise OverflowError
  else
    let '(y, m, d) := civil_from_days (ts / 86400) in
    let s := ts mod 86400 in
    if (y <? -2147481748) || (2147485547 <? y) then Raise OSError
    else if 2147483647 <? y then Raise OverflowError
    else OK (decimal_of_int y ++ lit "-" ++ two_digits m ++ lit "-" ++ two_digits d
             ++ lit " " ++ two_digits (s / 3600) ++ lit ":"
             ++ two_digits (s / 60 mod 60) ++ lit ":" ++ two_digits (s mod 60)).

(** An interpreter as seen on ASCII text, in the time zone UTC. *)
Definition utc_runtime : Runtime :=
  {| str_lower := map ascii_lower_char;
     int_max_str_digits := 4300;
     int_of_str := int_of_ascii_digits;
     strftime_localtime := strftime_utc |}.

(** An abbr element that carries a timestamp and a title. *)
Definition timestamp_abbr (utime : pystr) : node :=
  Tag (lit "abbr") [(lit "title", lit "Tuesday"); (lit "data-utime", utime)]
    [NavigableString (lit "2 hrs")].

(** A candidate dated by a timestamp. *)
Definition dated_post : node :=
  Tag (lit "div") [(lit "role", lit "article")]
    [NavigableString (lit "On the road");
     timestamp_abbr (lit "1700000000")].

(** The same candidate, with a timestamp beyond what the platform
    converts, and with one that is not a number. *)
Definition misdated_post : node :=
  Tag (lit "div") [(lit "role", lit "article")]
    [NavigableString (lit "On the road");
     timestamp_abbr (lit "100000000000000000")].

Definition undated_post : node :=
  Tag (lit "div") [(lit "role", lit "article")]
    [NavigableString (lit "On the road");
     timestamp_abbr (lit "yesterday")].

(** A candidate with a picture and a video. *)
Definition video_post : node :=
  Tag (lit "div") [(lit "role", lit "article")]
    [Tag (lit "img") [(lit "src", lit "poster.png")] [];
     Tag (lit "video") [(lit "src", lit "clip.mp4")] []].

Definition misdated_page_html : pystr :=
  lit "<div role=article>On the road<abbr title=Tuesday data-utime=100000000000000000>2 hrs</abbr></div>".

(** A parser for that page alone. *)
Definition misdated_parser (html : pystr) : node :=
  if str_eqb html misdated_page_html then document [misdated_post]
  else document [].

(** A hashtag with a space and an accented letter, and one that holds
    a lone surrogate. *)
Definition accented_scraper : FacebookHashtagScraper :=
  FacebookParser.__init__ (lit "#caf" ++ [233%N] ++ lit " noir") 5
    default_settings.

Definition surrogate_scraper : FacebookHashtagScraper :=
  FacebookParser.__init__ (lit "cats" ++ [55357%N]) 5 default_settings.


(** A scraper that is allowed no attempt at all. *)
Definition no_attempt_settings : Settings :=
  {| base_url_setting := None;
     request_timeout := None;
     sleep_between_requests_setting := None;
     max_retries_setting := Some 0;
     backoff_factor_setting := None |}.

Definition idle_scraper : FacebookHashtagScraper :=
  FacebookParser.__init__ (lit "#cats") 5 no_attempt_settings.

(** The float [-1.5]. *)
Definition minus_one_and_a_half : float :=
  S754_finite true 6755399441055744 (-52).

(** A scraper configured with a negative backoff factor, and one
    configured with a negative pacing interval. *)
Definition negative_backoff_settings : Settings :=
  {| base_url_setting := None;
     request_timeout := None;
     sleep_between_requests_setting := None;
     max_retries_setting := None;
     backoff_factor_setting := Some minus_one_and_a_half |}.

Definition negative_backoff_scraper : FacebookHashtagScraper :=
  FacebookParser.__init__ (lit "#cats") 5 negative_backoff_settings.



End Samples.

(* ================================================================== *)
(** * Properties                                                       *)
(* ================================================================== *)

Import Py ContentCleaner ProxyManagerPy Bs4 Urllib FacebookParser Spec Samples.

Unset Implicit Arguments.

(** ** Page URLs *)

Section PageUrl.
Context {rt : Runtime}.

Lemma lstrip_by_repeat (p : char -> bool) (c : char) (k : nat) (s : pystr) :
  p c = true -> lstrip_by p (repeat c k ++ s) = lstrip_by p s.
Proof.
  intros Hc. induction k as [|k IH]; simpl; [reflexivity|].
  now rewrite Hc.
Qed.

Lemma lstrip_by_head (p : char -> bool) (s : pystr) :
  match s with
  | [] => True
  | c :: _ => p c = false
  end ->
  lstrip_by p s = s.
Proof.
  destruct s as [|c r]; simpl; [reflexivity|]. now intros ->.
Qed.

Lemma lstrip_hash_decomposed (k : nat) (h' : pystr) :
  hd_error h' <> Some hash ->
  lstrip_chars (lit "#") (repeat hash k ++ h') = h'.
Proof.
  intros Hhd. unfold lstrip_chars.
  rewrite lstrip_by_repeat by reflexivity.
  apply lstrip_by_head. destruct h' as [|c r]; [exact I|].
  simpl. rewrite orb_false_r. apply N.eqb_neq.
  intros ->. now apply Hhd.
Qed.

Lemma hex_digit_not_hash (d : N) : hex_digit d <> hash.
Proof.
  unfold hex_digit, hash. destruct (d <? 10)%N; lia.
Qed.

Lemma quoter_no_hash (safe : list N) (b : N) :
  ~ In hash safe -> ~ In hash (quoter safe b).
Proof.
  intros Hsafe. unfold quoter.
  destruct (always_safe b || existsb (N.eqb b) safe) eqn:E.
  - intros [Hb|[]]. subst b.
    apply orb_true_iff in E as [E|E]; [discriminate|].
    apply existsb_exists in E as (x & Hx & E).
    apply N.eqb_eq in E. subst x. now apply Hsafe.
  - intros [H|[H|[H|[]]]]; try discriminate;
      now apply hex_digit_not_hash in H.
Qed.

Lemma quote_no_hash (s : pystr) (safe : list N) (q : pystr) :
  ~ In hash safe -> quote s safe = OK q -> ~ In hash q.
Proof.
  intros Hsafe. unfold quote. destruct (utf8_encode s) as [bs|e]; simpl;
    [|discriminate].
  intros [= <-] Hin. apply in_flat_map in Hin as (b & _ & Hb).
  now apply (quoter_no_hash safe b Hsafe).
Qed.

Lemma quote_plus_no_hash (s encoded : pystr) :
  quote_plus s = OK encoded -> ~ In hash encoded.
Proof.
  unfold quote_plus. destruct (existsb (N.eqb space) s).
  - destruct (quote s [space]) as [q|e] eqn:Eq; simpl; [|discriminate].
    intros [= <-] Hin. apply in_map_iff in Hin as (c & Hc & Hin).
    apply (quote_no_hash s [space] q); auto.
    + intros [H|[]]; discriminate.
    + destruct (c =? space)%N; [discriminate|]. now subst c.
  - apply quote_no_hash. intros [].
Qed.

(** C9.  The scraper strips the leading '#' characters of the hashtag it
    is given: writing the hashtag as [k] characters '#' followed by a
    string [h'] that does not start with '#', the scraper keeps [h'], the
    URL it builds for any page is the one built for [h'], and no '#'
    appears in the percent-encoded hashtag of that URL. *)
Theorem build_page_url_ignores_leading_hashes :
  forall (h h' : pystr) (k : nat) (max_pages page : Z) (settings : Settings),
    h = repeat hash k ++ h' ->
    hd_error h' <> Some hash ->
    hashtag (__init__ h max_pages settings) = h' /\
    _build_page_url (__init__ h max_pages settings) page
    = _build_page_url (__init__ h' max_pages settings) page /\
    (forall encoded,
        quote_plus (hashtag (__init__ h max_pages settings)) = OK encoded ->
        ~ In hash encoded).
Proof.
  intros h h' k max_pages page settings -> Hhd.
  assert (E : hashtag (__init__ (repeat hash k ++ h') max_pages settings) = h')
    by (simpl; now apply lstrip_hash_decomposed).
  assert (E' : hashtag (__init__ h' max_pages settings) = h')
    by (simpl; now apply (lstrip_hash_decomposed 0 h')).
  split; [exact E|]. split.
  - unfold _build_page_url. rewrite E, E'. reflexivity.
  - intros encoded. apply quote_plus_no_hash.
Qed.

(** Every hashtag has such a decomposition. *)
Lemma leading_hashes_decomposition (h : pystr) :
  exists k h', h = repeat hash k ++ h' /\ hd_error h' <> Some hash.
Proof.
  induction h as [|c r (k & h' & -> & Hhd)].
  - exists 0%nat, []. split; [reflexivity|discriminate].
  - destruct (N.eq_dec c hash) as [->|Hc].
    + exists (S k), h'. split; [reflexivity|exact Hhd].
    + exists 0%nat, (c :: repeat hash k ++ h'). split; [reflexivity|].
      simpl. congruence.
Qed.

(** The f-string of [_build_page_url] writes the page number when its
    numeral is within the limit on integer strings. *)
Lemma str_of_int_cases (z : Z) :
  str_of_int z
  = if numeral_within_limit z then OK (decimal_of_int z) else Raise ValueError.
Proof.
  unfold str_of_int, numeral_within_limit.
  destruct (int_max_str_digits =? 0)%nat; cbn [negb andb orb]; [reflexivity|].
  destruct (Nat.ltb_spec int_max_str_digits (length (decimal_of_int (Z.abs z))))
    as [H|H];
    destruct (Nat.leb_spec (length (decimal_of_int (Z.abs z))) int_max_str_digits)
      as [H'|H']; try reflexivity; lia.
Qed.

Lemma build_page_url_first (self : FacebookHashtagScraper) (page : Z)
  (encoded : pystr) :
  quote_plus (hashtag self) = OK encoded ->
  page <= 1 ->
  _build_page_url self page = OK (base_url self ++ encoded).
Proof.
  intros H Hp. unfold _build_page_url. rewrite H. cbn [bind].
  now replace (page <=? 1) with true by (symmetry; apply Z.leb_le; lia).
Qed.

Lemma build_page_url_later (self : FacebookHashtagScraper) (page : Z)
  (encoded : pystr) :
  quote_plus (hashtag self) = OK encoded ->
  1 < page ->
  _build_page_url self page
  = if numeral_within_limit page
    then OK (base_url self ++ encoded ++ lit "?page=" ++ decimal_of_int page)
    else Raise ValueError.
Proof.
  intros H Hp. unfold _build_page_url. rewrite H. cbn [bind].
  replace (page <=? 1) with false by (symmetry; apply Z.leb_gt; lia).
  rewrite str_of_int_cases. now destruct (numeral_within_limit page).
Qed.

Lemma build_page_url_shape (self : FacebookHashtagScraper) (page : Z)
  (encoded url : pystr) :
  quote_plus (hashtag self) = OK encoded ->
  _build_page_url self page = OK url ->
  url = base_url self ++ encoded ++ page_query page.
Proof.
  intros H Hurl. unfold page_query.
  destruct (page <=? 1) eqn:Ep; [apply Z.leb_le in Ep|apply Z.leb_gt in Ep].
  - rewrite (build_page_url_first self page encoded H Ep) in Hurl.
    injection Hurl as <-. now rewrite app_nil_r.
  - rewrite (build_page_url_later self page encoded H Ep) in Hurl.
    destruct (numeral_within_limit page); [|discriminate Hurl].
    now injection Hurl as <-.
Qed.

End PageUrl.

(** ** Rounding to binary64 stays finite on moderate numbers *)

Section FloatBounds.

Lemma digits2_pos_bounds (p : positive) :
  2 ^ (Z.pos (digits2_pos p) - 1) <= Z.pos p < 2 ^ Z.pos (digits2_pos p).
Proof.
  induction p as [p IH|p IH|]; cbn [digits2_pos].
  - rewrite Pos2Z.inj_succ, Z.pow_succ_r by lia.
    replace (Z.succ (Z.pos (digits2_pos p)) - 1)
      with (Z.succ (Z.pos (digits2_pos p) - 1)) by lia.
    rewrite Z.pow_succ_r by lia. lia.
  - rewrite Pos2Z.inj_succ, Z.pow_succ_r by lia.
    replace (Z.succ (Z.pos (digits2_pos p)) - 1)
      with (Z.succ (Z.pos (digits2_pos p) - 1)) by lia.
    rewrite Z.pow_succ_r by lia. lia.
  - cbn. lia.
Qed.

Lemma Zdigits2_not_negative (m : Z) : 0 <= Zdigits2 m.
Proof. destruct m; cbn; lia. Qed.

(** A non-negative integer has at most [k] binary digits exactly when it
    is below [2 ^ k]. *)
Lemma Zdigits2_le_iff (m k : Z) :
  0 <= m -> 0 <= k -> (Zdigits2 m <= k <-> m < 2 ^ k).
Proof.
  intros Hm Hk. destruct m as [|p|p]; [| |lia].
  - cbn. split; [intros _; apply Z.pow_pos_nonneg; lia|lia].
  - cbn [Zdigits2]. pose proof (digits2_pos_bounds p) as [Hlo Hhi]. split.
    + intros H. eapply Z.lt_le_trans; [exact Hhi|].
      apply Z.pow_le_mono_r; lia.
    + intros H.
      assert (Hlt : 2 ^ (Z.pos (digits2_pos p) - 1) < 2 ^ k) by lia.
      apply Z.pow_lt_mono_r_iff in Hlt; lia.
Qed.

Lemma Zdigits2_le_mono (a b : Z) : 0 <= a <= b -> Zdigits2 a <= Zdigits2 b.
Proof.
  intros H. apply Zdigits2_le_iff; [lia|apply Zdigits2_not_negative|].
  pose proof (proj1 (Zdigits2_le_iff b (Zdigits2 b) ltac:(lia)
                       (Zdigits2_not_negative b)) (Z.le_refl _)). lia.
Qed.

Lemma Zdigits2_succ (a : Z) : 0 <= a -> Zdigits2 (a + 1) <= Zdigits2 a + 1.
Proof.
  intros H. apply Zdigits2_le_iff; [lia|pose proof (Zdigits2_not_negative a); lia|].
  pose proof (proj1 (Zdigits2_le_iff a (Zdigits2 a) H
                       (Zdigits2_not_negative a)) (Z.le_refl _)) as Ha.
  rewrite Z.pow_add_r by (try apply Zdigits2_not_negative; lia). lia.
Qed.

Lemma Zdigits2_mul (a b : Z) :
  0 <= a -> 0 <= b -> Zdigits2 (a * b) <= Zdigits2 a + Zdigits2 b.
Proof.
  intros Ha Hb.
  pose proof (Zdigits2_not_negative a) as Hda.
  pose proof (Zdigits2_not_negative b) as Hdb.
  apply Zdigits2_le_iff; [nia|lia|].
  pose proof (proj1 (Zdigits2_le_iff a (Zdigits2 a) Ha Hda) (Z.le_refl _)) as Ha'.
  pose proof (proj1 (Zdigits2_le_iff b (Zdigits2 b) Hb Hdb) (Z.le_refl _)) as Hb'.
  rewrite Z.pow_add_r by lia. nia.
Qed.

Lemma shr_1_halves (mrs : shr_record) :
  0 <= shr_m mrs ->
  0 <= shr_m (shr_1 mrs) /\ shr_m (shr_1 mrs) * 2 <= shr_m mrs.
Proof.
  destruct mrs as [m r s]. cbn [shr_m shr_1]. intros Hm.
  destruct m as [|[p|p|]|p]; cbn [shr_m]; lia.
Qed.

Lemma iter_shr_1_divides (p : positive) (mrs : shr_record) :
  0 <= shr_m mrs ->
  0 <= shr_m (iter_pos shr_1 p mrs)
  /\ shr_m (iter_pos shr_1 p mrs) * 2 ^ Z.pos p <= shr_m mrs.
Proof.
  revert mrs. induction p as [p IH|p IH|]; intros mrs Hm; cbn [iter_pos].
  - destruct (shr_1_halves mrs Hm) as [H0 H1].
    destruct (IH _ H0) as [H2 H3]. destruct (IH _ H2) as [H4 H5].
    split; [exact H4|].
    replace (Z.pos p~1) with (Z.pos p + Z.pos p + 1) by lia.
    rewrite !Z.pow_add_r by lia. change (2 ^ 1) with 2.
    pose proof (Z.pow_pos_nonneg 2 (Z.pos p) ltac:(lia) ltac:(lia)). nia.
  - destruct (IH _ Hm) as [H2 H3]. destruct (IH _ H2) as [H4 H5].
    split; [exact H4|].
    replace (Z.pos p~0) with (Z.pos p + Z.pos p) by lia.
    rewrite !Z.pow_add_r by lia.
    pose proof (Z.pow_pos_nonneg 2 (Z.pos p) ltac:(lia) ltac:(lia)). nia.
  - change (2 ^ 1) with 2. now apply shr_1_halves.
Qed.

Lemma shr_m_of_loc (m : Z) (l : location) : shr_m (shr_record_of_loc m l) = m.
Proof. destruct l as [|[]]; reflexivity. Qed.

(** One right shift to the format's exponent keeps the magnitude. *)
Lemma shr_fexp_bounded (m e : Z) (l : location) (B E : Z) :
  0 <= m -> Zdigits2 m + e <= B -> e <= E -> -1074 <= E -> -1074 <= B ->
  let '(mrs, e') := shr_fexp prec emax m e l in
  0 <= shr_m mrs /\ Zdigits2 (shr_m mrs) + e' <= B /\ e' <= Z.max E (B - 53).
Proof.
  intros Hm HB HE HE' HBlo. unfold shr_fexp, shr.
  pose proof (Zdigits2_not_negative m) as Hd.
  assert (Hfexp : fexp prec emax (Zdigits2 m + e)
                  = Z.max (Zdigits2 m + e - 53) (-1074)) by reflexivity.
  destruct (fexp prec emax (Zdigits2 m + e) - e) as [|p|p] eqn:Hp;
    try (rewrite shr_m_of_loc; repeat split; lia).
  destruct (iter_shr_1_divides p (shr_record_of_loc m l)) as [H0 H1];
    [now rewrite shr_m_of_loc|].
  rewrite shr_m_of_loc in H1.
  set (m' := shr_m (iter_pos shr_1 p (shr_record_of_loc m l))) in *.
  split; [exact H0|]. split; [|lia].
  destruct (Z.eq_dec m' 0) as [->|Hnz]; [cbn; lia|].
  assert (Hm' : m' < 2 ^ (Zdigits2 m - Z.pos p)).
  { pose proof (proj1 (Zdigits2_le_iff m (Zdigits2 m) Hm Hd) (Z.le_refl _)) as Hlt.
    pose proof (Z.pow_pos_nonneg 2 (Z.pos p) ltac:(lia) ltac:(lia)) as Hpow.
    assert (Hpd : Z.pos p < Zdigits2 m).
    { apply (Z.pow_lt_mono_r_iff 2); [lia|lia|]. nia. }
    replace (Zdigits2 m) with ((Zdigits2 m - Z.pos p) + Z.pos p) in Hlt by lia.
    rewrite Z.pow_add_r in Hlt by lia. nia. }
  assert (Hdm : Zdigits2 m' <= Zdigits2 m - Z.pos p).
  { apply Zdigits2_le_iff; [lia| |exact Hm'].
    destruct (Z.le_gt_cases 0 (Zdigits2 m - Z.pos p)) as [H|H]; [exact H|].
    rewrite Z.pow_neg_r in Hm' by lia. lia. }
  lia.
Qed.

Lemma round_nearest_even_bounds (m : Z) (l : location) :
  m <= round_nearest_even m l <= m + 1.
Proof.
  destruct l as [|[]]; cbn; try lia. destruct (Z.even m); lia.
Qed.

(** Rounding a number of moderate magnitude gives zero or a finite
    float of about the same magnitude. *)
Lemma binary_round_aux_finite (s : bool) (m e : Z) (l : location) (B E : Z) :
  0 <= m -> Zdigits2 m + e <= B -> e <= E ->
  -1074 <= E -> E <= 971 -> -1074 <= B -> B <= 1023 ->
  match binary_round_aux prec emax s m e l with
  | S754_zero _ => True
  | S754_finite _ m' e' =>
      Zdigits2 (Z.pos m') + e' <= B + 1 /\ e' <= Z.max E (B - 52)
  | _ => False
  end.
Proof.
  intros Hm HB HE HE' HE'' HBlo HB'. unfold binary_round_aux.
  pose proof (shr_fexp_bounded m e l B E Hm HB HE HE' HBlo) as H1.
  destruct (shr_fexp prec emax m e l) as [mrs' e1].
  destruct H1 as (H1m & H1B & H1E).
  pose proof (round_nearest_even_bounds (shr_m mrs') (loc_of_shr_record mrs'))
    as Hr.
  set (m1 := round_nearest_even (shr_m mrs') (loc_of_shr_record mrs')) in *.
  assert (Hd1 : Zdigits2 m1 + e1 <= B + 1).
  { pose proof (Zdigits2_le_mono m1 (shr_m mrs' + 1) ltac:(lia)).
    pose proof (Zdigits2_succ (shr_m mrs') H1m). lia. }
  pose proof (shr_fexp_bounded m1 e1 loc_Exact (B + 1) (Z.max E (B - 53))
                ltac:(lia) Hd1 H1E ltac:(lia) ltac:(lia)) as H2.
  destruct (shr_fexp prec emax m1 e1 loc_Exact) as [mrs'' e2].
  destruct H2 as (H2m & H2B & H2E).
  destruct (shr_m mrs'') as [|p|p] eqn:Hp; [exact I| |lia].
  replace (e2 <=? emax - prec) with true
    by (symmetry; apply Z.leb_le; unfold emax, prec; lia).
  split; lia.
Qed.

Lemma decimal_value_below (s : pystr) (acc : Z) :
  forallb is_digit s = true -> 0 <= acc ->
  decimal_value acc s < (acc + 1) * 10 ^ Z.of_nat (length s).
Proof.
  revert acc. induction s as [|c r IH]; cbn [decimal_value forallb length];
    intros acc Hs Hacc.
  - cbn. lia.
  - apply andb_true_iff in Hs as [Hc Hr]. unfold is_digit in Hc.
    apply andb_true_iff in Hc as [Hc1 Hc2].
    apply N.leb_le in Hc1, Hc2.
    specialize (IH (10 * acc + (Z.of_N c - 48)) Hr ltac:(lia)).
    rewrite Nat2Z.inj_succ, Z.pow_succ_r by lia.
    pose proof (Z.pow_pos_nonneg 10 (Z.of_nat (length r)) ltac:(lia) ltac:(lia)).
    nia.
Qed.

Lemma length_split_at_dot (s ip fp : pystr) :
  split_at_dot s = (ip, Some fp) -> (length ip + length fp < length s)%nat.
Proof.
  revert ip fp. induction s as [|c r IH]; cbn [split_at_dot]; intros ip fp;
    [discriminate|].
  destruct (c =? dot)%N.
  - intros [= <- <-]. cbn. lia.
  - destruct (split_at_dot r) as [a [b|]]; [|discriminate].
    intros [= <- <-]. specialize (IH a b eq_refl). cbn. lia.
Qed.

(** [float] of a decimal literal of at most 300 characters is finite. *)
Lemma float_of_decimal_finite (s : pystr) (x : float) :
  (length s <= 300)%nat ->
  float_of_decimal s = OK x -> finite_below 1001 x.
Proof.
  intros Hlen. unfold float_of_decimal.
  destruct (split_at_dot s) as [ip [fp|]] eqn:Hsplit; [|discriminate].
  apply length_split_at_dot in Hsplit.
  destruct (forallb is_digit ip && forallb is_digit fp && _) eqn:Hd;
    [|discriminate].
  apply andb_true_iff in Hd as [Hd _]. apply andb_true_iff in Hd as [Hip Hfp].
  assert (Hdigits : forallb is_digit (ip ++ fp) = true)
    by (rewrite forallb_app; now rewrite Hip, Hfp).
  pose proof (decimal_value_below (ip ++ fp) 0 Hdigits ltac:(lia)) as Hn.
  rewrite length_app in Hn.
  destruct (decimal_value 0 (ip ++ fp)) as [|n|n]; intros [= <-];
    try exact I.
  assert (Hn' : Z.pos n < 2 ^ 1000).
  { eapply Z.lt_le_trans; [exact Hn|]. rewrite Z.mul_1_l.
    transitivity (10 ^ 300); [apply Z.pow_le_mono_r; lia|].
    apply Z.leb_le. vm_compute. reflexivity. }
  apply (Zdigits2_le_iff (Z.pos n) 1000) in Hn'; [|lia|lia].
  unfold SFdiv, SFdiv_core_binary.
  set (d := Z.pos (pow10 (length fp))).
  set (e' := Z.min (fexp prec emax (Zdigits2 (Z.pos n) + 0 - (Zdigits2 d + 0)))
               (0 - 0)).
  assert (He' : e' <= 0) by (unfold e'; lia).
  set (m' := match 0 - 0 - e' with
             | 0 => Z.pos n
             | Z.pos _ => Z.shiftl (Z.pos n) (0 - 0 - e')
             | Z.neg _ => 0
             end).
  assert (Hm' : 0 <= m' /\ Zdigits2 m' + e' <= 1000).
  { unfold m'. destruct (0 - 0 - e') as [|p|p] eqn:Hs; [lia| |lia].
    rewrite Z.shiftl_mul_pow2 by lia.
    pose proof (Z.pow_pos_nonneg 2 (Z.pos p) ltac:(lia) ltac:(lia)) as Hpow.
    split; [nia|].
    assert (H : Zdigits2 (Z.pos n * 2 ^ Z.pos p) <= Zdigits2 (Z.pos n) + Z.pos p).
    { pose proof (Zdigits2_not_negative (Z.pos n)) as Hdn.
      apply Zdigits2_le_iff; [nia|lia|].
      rewrite Z.pow_add_r by lia.
      pose proof (proj1 (Zdigits2_le_iff (Z.pos n) (Zdigits2 (Z.pos n))
                           ltac:(lia) Hdn) (Z.le_refl _)). nia. }
    lia. }
  destruct Hm' as [Hm0 Hm1].
  pose proof (Z_div_mod m' d ltac:(unfold d; lia)) as Hdiv.
  destruct (Z.div_eucl m' d) as [q r]. destruct Hdiv as [Hq Hr].
  assert (Hq' : 0 <= q <= m') by (unfold d in *; nia).
  pose proof (Zdigits2_le_mono q m' Hq') as Hdq.
  pose proof (binary_round_aux_finite false q e'
                (new_location d r) 1000 0 ltac:(lia) ltac:(lia) He'
                ltac:(lia) ltac:(lia) ltac:(lia) ltac:(lia)) as Hround.
  change (finite_below 1001
            (binary_round_aux prec emax false q e' (new_location d r))).
  destruct (binary_round_aux prec emax false q e' (new_location d r));
    cbn [finite_below]; try exact Hround.
  destruct Hround as [Hr1 Hr2]. split; lia.
Qed.

(** Multiplying such a float by 1, 1000 or 1000000 stays finite. *)
Lemma float_mul_int_finite (x : float) (multiplier : Z) :
  finite_below 1001 x ->
  multiplier = 1 \/ multiplier = 1000 \/ multiplier = 1000000 ->
  finite_below 1022 (float_mul_int x multiplier).
Proof.
  intros Hx Hm. unfold float_mul_int, float_mul.
  assert (Hy : exists my ey, float_of_int multiplier = S754_finite false my ey
                             /\ Zdigits2 (Z.pos my) + ey <= 20 /\ ey <= 0).
  { destruct Hm as [-> | [-> | ->]]; eexists _, _;
      (split; [vm_compute; reflexivity|split; vm_compute; discriminate]). }
  destruct Hy as (my & ey & -> & Hy1 & Hy2).
  destruct x as [sx|sx| |sx mx ex]; try contradiction; [exact I|].
  destruct Hx as [Hx1 Hx2]. cbn [SFmul].
  pose proof (Zdigits2_mul (Z.pos mx) (Z.pos my) ltac:(lia) ltac:(lia)) as Hmul.
  pose proof (binary_round_aux_finite (xorb sx false) (Z.pos (mx * my))
                (ex + ey) loc_Exact 1021 971 ltac:(lia)
                ltac:(rewrite Pos2Z.inj_mul; lia) ltac:(lia)
                ltac:(lia) ltac:(lia) ltac:(lia) ltac:(lia)) as Hround.
  change (finite_below 1022
            (binary_round_aux prec emax (xorb sx false) (Z.pos (mx * my))
               (ex + ey) loc_Exact)).
  destruct (binary_round_aux prec emax (xorb sx false) (Z.pos (mx * my))
              (ex + ey) loc_Exact); cbn [finite_below]; exact Hround.
Qed.

Lemma int_of_float_finite (B : Z) (x : float) :
  finite_below B x -> exists n, int_of_float x = OK n.
Proof.
  destruct x as [sx|sx| |sx mx ex]; try contradiction; intros _;
    unfold int_of_float; eauto.
Qed.

End FloatBounds.

(** ** Shorthand numbers *)

Section SafeInt.

Lemma binary_round_aux_not_negative (m e : Z) (l : location) :
  not_negative (binary_round_aux prec emax false m e l).
Proof.
  unfold binary_round_aux.
  destruct (shr_fexp prec emax m e l) as [mrs' e'].
  destruct (shr_fexp prec emax _ e' loc_Exact) as [mrs'' e''].
  destruct (shr_m mrs''); simpl; auto.
  destruct (e'' <=? 971); exact I.
Qed.

Lemma float_of_int_not_negative (n : Z) :
  0 <= n -> not_negative (float_of_int n).
Proof.
  intros Hn. unfold float_of_int, binary_normalize.
  destruct n as [|p|p]; [exact I| |lia].
  unfold binary_round. destruct (shl_align _ _ _) as [mz ez].
  apply binary_round_aux_not_negative.
Qed.

Lemma float_mul_not_negative (x y : float) :
  not_negative x -> not_negative y -> not_negative (float_mul x y).
Proof.
  destruct x as [sx|sx| |[] mx ex], y as [sy|sy| |[] my ey];
    simpl; intros Hx Hy; try exact I; try contradiction.
  apply binary_round_aux_not_negative.
Qed.

Lemma int_of_float_not_negative (x : float) (n : Z) :
  not_negative x -> int_of_float x = OK n -> 0 <= n.
Proof.
  destruct x as [sx|sx| |[] m e]; intros Hx H;
    try contradiction; try discriminate;
    unfold int_of_float in H; injection H as <-; try lia.
  destruct (0 <=? e) eqn:He.
  - apply Z.leb_le in He. change (0 <= Z.pos m * 2 ^ e).
    apply Z.mul_nonneg_nonneg; [lia|]. now apply Z.pow_nonneg.
  - apply Z.leb_gt in He. change (0 <= Z.pos m / 2 ^ (- e)).
    apply Z.div_pos; [lia|]. apply Z.pow_pos_nonneg; lia.
Qed.

Lemma float_of_decimal_not_negative (s : pystr) (x : float) :
  float_of_decimal s = OK x -> not_negative x.
Proof.
  unfold float_of_decimal. destruct (split_at_dot s) as [ip [fp|]];
    [|discriminate].
  destruct (forallb is_digit ip && forallb is_digit fp && _); [|discriminate].
  destruct (decimal_value 0 (ip ++ fp)) as [|n|n]; intros [= <-];
    try exact I.
  unfold SFdiv. destruct (SFdiv_core_binary _ _ _ _ _ _) as [[mz ez] lz].
  apply binary_round_aux_not_negative.
Qed.

Lemma decimal_value_not_negative (s : pystr) (acc : Z) :
  forallb is_digit s = true -> 0 <= acc -> 0 <= decimal_value acc s.
Proof.
  revert acc. induction s as [|c r IH]; cbn [decimal_value forallb];
    intros acc Hs Hacc; [exact Hacc|].
  apply andb_true_iff in Hs as [Hc Hr]. apply IH; [exact Hr|].
  unfold is_digit in Hc. apply andb_true_iff in Hc as [Hc _].
  apply N.leb_le in Hc. lia.
Qed.

Lemma keep_digits_without_dot (s : pystr) :
  existsb (N.eqb dot) (keep_digits_and_dots s) = false ->
  forallb is_digit (keep_digits_and_dots s) = true.
Proof.
  unfold keep_digits_and_dots.
  induction s as [|c r IH]; simpl; [reflexivity|].
  destruct (is_digit c) eqn:Hd; simpl.
  - rewrite Hd. simpl. intros H. apply orb_false_iff in H as [_ H]. auto.
  - destruct (c =? dot)%N eqn:Hc; simpl; [|exact IH].
    apply N.eqb_eq in Hc. subst c. discriminate.
Qed.

Lemma parse_number_not_negative {rt : Runtime} (s : pystr) (multiplier n : Z) :
  0 <= multiplier ->
  except_ValueError (parse_number (keep_digits_and_dots s) multiplier) 0 = OK n ->
  0 <= n.
Proof.
  intros Hm. unfold parse_number.
  destruct (existsb (N.eqb dot) (keep_digits_and_dots s)) eqn:Hdot.
  - destruct (float_of_decimal (keep_digits_and_dots s)) as [x|e] eqn:Hx;
      simpl.
    + destruct (int_of_float (float_mul_int x multiplier)) as [v|e] eqn:Hv;
        simpl.
      * intros [= <-]. apply (int_of_float_not_negative _ _) in Hv; auto.
        apply float_mul_not_negative.
        -- now apply float_of_decimal_not_negative in Hx.
        -- now apply float_of_int_not_negative.
      * destruct e; intros [= <-]; lia.
    + destruct e; intros [= <-]; lia.
  - unfold int_of_digits. destruct (_ && _); simpl.
    + intros [= <-]; lia.
    + intros [= <-]. apply Z.mul_nonneg_nonneg; [|exact Hm].
      apply decimal_value_not_negative; [|lia].
      now apply keep_digits_without_dot.
Qed.

(** [safe_int] never returns a negative number for a string. *)
Lemma safe_int_str_not_negative {rt : Runtime} (text : pystr) (n : Z) :
  safe_int (VStr text) = OK n -> 0 <= n.
Proof.
  unfold safe_int. destruct (str_lower (strip text)) as [|c s]; [intros [= <-]; lia|].
  destruct (endswith (c :: s) (lit "k")).
  - destruct (keep_digits_and_dots _) eqn:E; [intros [= <-]; lia|].
    rewrite <- E. apply parse_number_not_negative. lia.
  - destruct (endswith (c :: s) (lit "m")).
    + destruct (keep_digits_and_dots _) eqn:E; [intros [= <-]; lia|].
      rewrite <- E. apply parse_number_not_negative. lia.
    + destruct (keep_digits_and_dots _) eqn:E; [intros [= <-]; lia|].
      rewrite <- E. apply parse_number_not_negative. lia.
Qed.

Lemma forallb_lstrip_by (p q : char -> bool) (s : pystr) :
  forallb p s = true -> forallb p (lstrip_by q s) = true.
Proof.
  induction s as [|c r IH]; simpl; [reflexivity|].
  intros H. destruct (q c); [|exact H].
  apply andb_true_iff in H as [_ H]. auto.
Qed.

Lemma forallb_rstrip_by (p q : char -> bool) (s : pystr) :
  forallb p s = true -> forallb p (rstrip_by q s) = true.
Proof.
  induction s as [|c r IH]; simpl; [reflexivity|].
  intros H. apply andb_true_iff in H as [Hc Hr]. specialize (IH Hr).
  destruct (rstrip_by q r) as [|d r'].
  - destruct (q c); simpl; [reflexivity|]. now rewrite Hc.
  - cbn [forallb]. now rewrite Hc.
Qed.

Lemma length_lstrip_by (p : char -> bool) (s : pystr) :
  (length (lstrip_by p s) <= length s)%nat.
Proof.
  induction s as [|c r IH]; simpl; [lia|]. destruct (p c); simpl; lia.
Qed.

Lemma length_rstrip_by (p : char -> bool) (s : pystr) :
  (length (rstrip_by p s) <= length s)%nat.
Proof.
  induction s as [|c r IH]; simpl; [lia|].
  destruct (rstrip_by p r); [destruct (p c)|]; simpl in *; lia.
Qed.

Lemma length_strip (s : pystr) : (length (strip s) <= length s)%nat.
Proof.
  unfold strip. etransitivity; [apply length_rstrip_by|apply length_lstrip_by].
Qed.

Lemma length_slice (s : pystr) (lo hi : Z) :
  (length (slice s lo hi) <= length s)%nat.
Proof.
  unfold slice. rewrite length_skipn.
  generalize (Z.to_nat (slice_index (len s) lo)).
  generalize (Z.to_nat (slice_index (len s) hi)).
  intros a b. rewrite length_firstn. lia.
Qed.

Lemma length_keep_digits_and_dots (s : pystr) :
  (length (keep_digits_and_dots s) <= length s)%nat.
Proof. apply filter_length_le. Qed.

Lemma int_of_digits_below_threshold (limit : nat) (s : pystr) :
  limit = 0%nat \/ (640 <= limit)%nat ->
  (length s <= 640)%nat ->
  int_of_digits limit s = OK (decimal_value 0 s).
Proof.
  intros Hlimit Hs. unfold int_of_digits.
  destruct Hlimit as [->|Hlimit]; [reflexivity|].
  replace (limit <? length s)%nat with false; [now rewrite andb_false_r|].
  symmetry. apply Nat.ltb_ge. lia.
Qed.

Lemma parse_number_below_threshold (rt : Runtime) (cleaned : pystr) (m : Z) :
  conforming rt ->
  (length cleaned <= 640)%nat ->
  parse_number (H := rt) cleaned m = parse_number (H := ascii_runtime) cleaned m.
Proof.
  intros Hrt Hlen. unfold parse_number.
  destruct (existsb (N.eqb dot) cleaned); [reflexivity|].
  rewrite !int_of_digits_below_threshold; auto.
  - right. simpl. lia.
  - apply (digits_threshold Hrt).
Qed.

(** On ASCII text of at most 640 characters, [safe_int] is what the
    reference runtime computes. *)
Lemma safe_int_ascii (rt : Runtime) (text : pystr) :
  conforming rt ->
  forallb is_ascii text = true ->
  (length text <= 640)%nat ->
  safe_int (H := rt) (VStr text) = safe_int (H := ascii_runtime) (VStr text).
Proof.
  intros Hrt Hascii Hlen. unfold safe_int.
  rewrite (lower_ascii Hrt)
    by (unfold strip; now apply forallb_rstrip_by, forallb_lstrip_by).
  change (@str_lower ascii_runtime) with (map ascii_lower_char).
  assert (Hs : (length (map ascii_lower_char (strip text)) <= 640)%nat)
    by (rewrite length_map; pose proof (length_strip text); lia).
  destruct (map ascii_lower_char (strip text)) as [|c s]; [reflexivity|].
  assert (Hcut : (length (slice (c :: s) 0 (-1)) <= 640)%nat)
    by (pose proof (length_slice (c :: s) 0 (-1)); lia).
  destruct (endswith (c :: s) (lit "k")); [|destruct (endswith (c :: s) (lit "m"))];
    (destruct (keep_digits_and_dots _) eqn:E; [reflexivity|]; rewrite <- E;
     rewrite (parse_number_below_threshold rt); [reflexivity|exact Hrt|];
     etransitivity; [apply length_keep_digits_and_dots|assumption]).
Qed.

Lemma float_of_decimal_raises_ValueError (s : pystr) (e : exn) :
  float_of_decimal s = Raise e -> e = ValueError.
Proof.
  unfold float_of_decimal. destruct (split_at_dot s) as [ip [fp|]];
    [|now intros [= <-]].
  destruct (forallb is_digit ip && forallb is_digit fp && _);
    [|now intros [= <-]].
  destruct (decimal_value 0 (ip ++ fp)); discriminate.
Qed.

Lemma parse_number_total {rt : Runtime} (cleaned : pystr) (multiplier : Z) :
  (length cleaned <= 300)%nat ->
  multiplier = 1 \/ multiplier = 1000 \/ multiplier = 1000000 ->
  exists n, except_ValueError (parse_number cleaned multiplier) 0 = OK n.
Proof.
  intros Hlen Hm. unfold parse_number.
  destruct (existsb (N.eqb dot) cleaned).
  - destruct (float_of_decimal cleaned) as [x|e] eqn:Hx; cbn [bind].
    + apply float_of_decimal_finite in Hx; [|exact Hlen].
      destruct (int_of_float_finite 1022 (float_mul_int x multiplier)
                  (float_mul_int_finite x multiplier Hx Hm)) as [n ->].
      now exists n.
    + apply float_of_decimal_raises_ValueError in Hx. subst e. now exists 0.
  - unfold int_of_digits. destruct (_ && _); cbn [bind except_ValueError]; eauto.
Qed.

Lemma length_filter_firstn {A} (f : A -> bool) (n : nat) (l : list A) :
  (length (filter f (firstn n l)) <= length (filter f l))%nat.
Proof.
  pose proof (f_equal (fun x => length (filter f x)) (firstn_skipn n l)) as H.
  cbn beta in H. rewrite filter_app, length_app in H. lia.
Qed.

Lemma length_filter_skipn {A} (f : A -> bool) (n : nat) (l : list A) :
  (length (filter f (skipn n l)) <= length (filter f l))%nat.
Proof.
  pose proof (f_equal (fun x => length (filter f x)) (firstn_skipn n l)) as H.
  cbn beta in H. rewrite filter_app, length_app in H. lia.
Qed.

Lemma length_filter_slice (f : char -> bool) (s : pystr) (lo hi : Z) :
  (length (filter f (slice s lo hi)) <= length (filter f s))%nat.
Proof.
  unfold slice. etransitivity; [apply length_filter_skipn|].
  apply length_filter_firstn.
Qed.

(** [safe_int] returns on every string of at most 300 characters. *)
Lemma safe_int_total (rt : Runtime) (text : pystr) :
  conforming rt ->
  (length text <= 300)%nat ->
  exists n, safe_int (VStr text) = OK n.
Proof.
  intros Hrt Hlen. unfold safe_int.
  assert (Hkeep : (length (keep_digits_and_dots (str_lower (strip text))) <= 300)%nat).
  { rewrite (lower_digits Hrt).
    pose proof (length_keep_digits_and_dots (strip text)).
    pose proof (length_strip text). lia. }
  destruct (str_lower (strip text)) as [|c s]; [now exists 0|].
  assert (Hcut : (length (keep_digits_and_dots (slice (c :: s) 0 (-1))) <= 300)%nat).
  { pose proof (length_filter_slice (fun c => is_digit c || (c =? dot)%N)
                  (c :: s) 0 (-1)) as H. unfold keep_digits_and_dots in *. lia. }
  assert (Hgen : forall cleaned multiplier,
             (length cleaned <= 300)%nat ->
             multiplier = 1 \/ multiplier = 1000 \/ multiplier = 1000000 ->
             exists n,
               match cleaned with
               | [] => OK 0
               | _ :: _ => except_ValueError (parse_number cleaned multiplier) 0
               end = OK n).
  { intros cleaned multiplier Hc Hm. destruct cleaned as [|d rest] eqn:E;
      [now exists 0|]. now apply parse_number_total. }
  destruct (endswith (c :: s) (lit "k")); [|destruct (endswith (c :: s) (lit "m"))];
    cbv beta iota zeta; apply Hgen; (assumption || tauto).
Qed.

(** C7.  On the reference inputs [safe_int] returns the values the
    specification lists; on the digit 1 followed by 309 zeros and a dot,
    [float] gives infinity and [int] raises [OverflowError], which
    [safe_int] does not catch. *)
Theorem safe_int_reference_values_and_overflow :
  forall rt : Runtime,
    conforming rt ->
    safe_int VNone = OK 0 /\
    safe_int (VStr (lit "1.2k")) = OK 1200 /\
    safe_int (VStr (lit "3,456")) = OK 3456 /\
    safe_int (VStr (lit "789")) = OK 789 /\
    safe_int (VStr (lit "")) = OK 0 /\
    safe_int (VStr (lit "abc")) = OK 0 /\
    safe_int (VInt 5) = OK 5 /\
    safe_int (VStr overflow_text) = Raise OverflowError.
Proof.
  intros rt Hrt.
  repeat split; try reflexivity;
    (rewrite (safe_int_ascii rt);
     [vm_compute; reflexivity
     |exact Hrt
     |vm_compute; reflexivity
     |apply Nat.leb_le; vm_compute; reflexivity]).
Qed.

End SafeInt.

(** ** The content normalizer *)

Section CleanContent.

Lemma sub_control_chars_fixed (s : pystr) :
  forallb (fun c => negb (CONTROL_CHARS_RE c)) s = true ->
  sub_control_chars s = s.
Proof.
  unfold sub_control_chars. induction s as [|c r IH]; simpl; [reflexivity|].
  intros H. apply andb_true_iff in H as [Hc Hr]. rewrite Hc. f_equal. auto.
Qed.

Lemma sub_whitespace_no_control (b : bool) (s : pystr) :
  forallb (fun c => negb (CONTROL_CHARS_RE c)) s = true ->
  forallb (fun c => negb (CONTROL_CHARS_RE c)) (sub_whitespace_from b s) = true.
Proof.
  revert b. induction s as [|c r IH]; intros b; simpl; [reflexivity|].
  intros H. apply andb_true_iff in H as [Hc Hr].
  destruct (isspace c); [destruct b|]; simpl; auto.
  rewrite Hc. simpl. auto.
Qed.

Lemma sub_control_chars_no_control (s : pystr) :
  forallb (fun c => negb (CONTROL_CHARS_RE c)) (sub_control_chars s) = true.
Proof.
  unfold sub_control_chars. apply forallb_forall. intros c Hc.
  now apply filter_In in Hc.
Qed.

Lemma sub_whitespace_single_spaced (b : bool) (s : pystr) :
  single_spaced b (sub_whitespace_from b s) = true.
Proof.
  revert b. induction s as [|c r IH]; intros b; cbn [sub_whitespace_from];
    [reflexivity|].
  destruct (isspace c) eqn:Hc.
  - destruct b; [apply IH|]. cbn [single_spaced].
    change (isspace space) with true. cbn iota. rewrite N.eqb_refl. apply IH.
  - cbn [single_spaced]. rewrite Hc. apply IH.
Qed.

Lemma single_spaced_fixed (b : bool) (s : pystr) :
  single_spaced b s = true -> sub_whitespace_from b s = s.
Proof.
  revert b. induction s as [|c r IH]; intros b;
    cbn [sub_whitespace_from single_spaced]; [reflexivity|].
  destruct (isspace c).
  - intros H. apply andb_true_iff in H as [H Hr].
    apply andb_true_iff in H as [Hc Hb]. apply N.eqb_eq in Hc.
    destruct b; [discriminate|]. subst c. f_equal. auto.
  - intros H. f_equal. auto.
Qed.

Lemma single_spaced_lstrip (b : bool) (s : pystr) :
  single_spaced b s = true ->
  single_spaced false (lstrip_by isspace s) = true.
Proof.
  revert b. induction s as [|c r IH]; intros b;
    cbn [lstrip_by single_spaced]; [reflexivity|].
  destruct (isspace c) eqn:Hc.
  - intros H. apply andb_true_iff in H as [_ Hr]. now apply (IH true).
  - intros H. cbn [single_spaced]. now rewrite Hc.
Qed.

Lemma single_spaced_rstrip (b : bool) (s : pystr) :
  single_spaced b s = true ->
  single_spaced b (rstrip_by isspace s) = true.
Proof.
  revert b. induction s as [|c r IH]; intros b;
    cbn [rstrip_by single_spaced]; [reflexivity|].
  destruct (isspace c) eqn:Hc.
  - intros H. apply andb_true_iff in H as [H Hr]. specialize (IH true Hr).
    destruct (rstrip_by isspace r) as [|d r']; [reflexivity|].
    cbn [single_spaced] in *. now rewrite Hc, H, IH.
  - intros H. specialize (IH false H).
    destruct (rstrip_by isspace r) as [|d r'];
      cbn [single_spaced] in *; rewrite Hc; [reflexivity|exact IH].
Qed.

Lemma lstrip_by_idempotent (p : char -> bool) (s : pystr) :
  lstrip_by p (lstrip_by p s) = lstrip_by p s.
Proof.
  induction s as [|c r IH]; simpl; [reflexivity|].
  destruct (p c) eqn:Hc; [exact IH|]. simpl. now rewrite Hc.
Qed.

Lemma rstrip_by_idempotent (p : char -> bool) (s : pystr) :
  rstrip_by p (rstrip_by p s) = rstrip_by p s.
Proof.
  induction s as [|c r IH]; simpl; [reflexivity|].
  destruct (rstrip_by p r) as [|d r'] eqn:E.
  - destruct (p c) eqn:Hc; simpl; [reflexivity|]. now rewrite Hc.
  - cbn [rstrip_by]. cbn [rstrip_by] in IH. rewrite IH. reflexivity.
Qed.

(** Stripping the end of a string that does not start with a
    character to strip leaves its start alone. *)
Lemma lstrip_rstrip_commute (p : char -> bool) (s : pystr) :
  lstrip_by p s = s -> lstrip_by p (rstrip_by p s) = rstrip_by p s.
Proof.
  destruct s as [|c r]; simpl; [reflexivity|].
  destruct (p c) eqn:Hc.
  - intros H. exfalso. pose proof (length_lstrip_by p r) as Hlen.
    rewrite H in Hlen. simpl in Hlen. lia.
  - intros _. destruct (rstrip_by p r); simpl; now rewrite Hc.
Qed.

Lemma strip_idempotent (s : pystr) : strip (strip s) = strip s.
Proof.
  unfold strip.
  rewrite lstrip_rstrip_commute by apply lstrip_by_idempotent.
  apply rstrip_by_idempotent.
Qed.

Lemma normalized_fixed (text : pystr) :
  normalized (normalized text) = normalized text.
Proof.
  unfold normalized at 1.
  assert (Hctl : forallb (fun c => negb (CONTROL_CHARS_RE c)) (normalized text)
                 = true).
  { unfold normalized, strip.
    apply forallb_rstrip_by, forallb_lstrip_by, sub_whitespace_no_control,
      sub_control_chars_no_control. }
  assert (Hsp : single_spaced false (normalized text) = true).
  { unfold normalized, strip.
    apply single_spaced_rstrip, (single_spaced_lstrip false),
      sub_whitespace_single_spaced. }
  rewrite sub_control_chars_fixed by exact Hctl.
  unfold sub_whitespace. rewrite single_spaced_fixed by exact Hsp.
  unfold normalized. apply strip_idempotent.
Qed.

(** Where nothing is truncated, [clean_content] is idempotent. *)
Lemma clean_content_idempotent_without_truncation (text : pystr) :
  len (normalized text) <= max_len ->
  clean_content (Some (clean_content (Some text))) = clean_content (Some text).
Proof.
  intros Hlen.
  assert (E : clean_content (Some text) = normalized text).
  { unfold clean_content. fold (normalized text).
    replace (max_len <? len (normalized text)) with false; [reflexivity|].
    symmetry. apply Z.ltb_ge. exact Hlen. }
  rewrite E. unfold clean_content. fold (normalized (normalized text)).
  rewrite normalized_fixed.
  replace (max_len <? len (normalized text)) with false; [reflexivity|].
  symmetry. apply Z.ltb_ge. exact Hlen.
Qed.

Lemma list_neq_snoc {A} (l : list A) (x : A) : l <> l ++ [x].
Proof.
  intros H. apply (f_equal (@length A)) in H.
  rewrite length_app in H. simpl in H. lia.
Qed.

(** C1.  [clean_content] is not idempotent on [long_text]: the cleaned
    text has 10001 characters, truncating it to 10000 leaves the space
    at its end, and a second pass strips that space. *)
Theorem clean_content_truncation_keeps_trailing_space :
  clean_content (Some long_text) = repeat 97%N 9999 ++ [space] /\
  clean_content (Some (clean_content (Some long_text))) = repeat 97%N 9999 /\
  clean_content (Some (clean_content (Some long_text)))
  <> clean_content (Some long_text).
Proof.
  assert (E1 : clean_content (Some long_text) = repeat 97%N 9999 ++ [space])
    by (vm_compute; reflexivity).
  assert (E2 : clean_content (Some (repeat 97%N 9999 ++ [space]))
               = repeat 97%N 9999)
    by (vm_compute; reflexivity).
  split; [exact E1|]. split.
  - rewrite E1. exact E2.
  - rewrite E1. intros H. pose proof (eq_trans (eq_sym E2) H) as H'.
    now apply list_neq_snoc in H'.
Qed.

End CleanContent.

(** ** Substring search and slices *)

Section Strings.

Lemma startswith_app (sub rest : pystr) : startswith sub (sub ++ rest) = true.
Proof.
  induction sub as [|c sub IH]; simpl; [reflexivity|].
  now rewrite N.eqb_refl.
Qed.

Lemma startswith_prefix (sub s : pystr) :
  startswith sub s = true -> exists rest, s = sub ++ rest.
Proof.
  revert s. induction sub as [|c sub IH]; intros s; simpl.
  - intros _. now exists s.
  - destruct s as [|d s]; [discriminate|].
    intros H. apply andb_true_iff in H as [Hc Hs].
    apply N.eqb_eq in Hc. subst d.
    destruct (IH s Hs) as [rest ->]. now exists rest.
Qed.

Lemma occurs_in_iff (sub s : pystr) :
  occurs_in sub s <->
  exists j, (j <= length s)%nat /\ startswith sub (skipn j s) = true.
Proof.
  split.
  - intros (before & after & ->). exists (length before). split.
    + rewrite length_app. lia.
    + rewrite skipn_app, skipn_all, Nat.sub_diag. simpl.
      apply startswith_app.
  - intros (j & _ & H). apply startswith_prefix in H as [rest H].
    exists (firstn j s), rest. rewrite <- H. symmetry. apply firstn_skipn.
Qed.

Lemma first_occurrence_unique (sub s : pystr) (i j : nat) :
  first_occurrence sub s i -> first_occurrence sub s j -> i = j.
Proof.
  intros (Hi & _ & Hi') (Hj & _ & Hj').
  destruct (Nat.lt_trichotomy i j) as [H|[H|H]]; [|exact H|].
  - specialize (Hj' i H). congruence.
  - specialize (Hi' j H). congruence.
Qed.

Lemma find_from_spec (sub s : pystr) (i : Z) :
  (find_from i sub s = -1 /\
   forall j, (j <= length s)%nat -> startswith sub (skipn j s) = false)
  \/ (exists k, find_from i sub s = i + Z.of_nat k /\ first_occurrence sub s k).
Proof.
  revert i. induction s as [|c r IH]; intros i.
  - simpl. destruct (startswith sub []) eqn:E.
    + right. exists 0%nat. split; [lia|]. repeat split; auto. intros j Hj. lia.
    + left. split; [reflexivity|]. intros j Hj. now destruct j.
  - cbn [find_from]. destruct (startswith sub (c :: r)) eqn:E.
    + right. exists 0%nat. split; [lia|]. repeat split; auto.
      * simpl. lia.
      * intros j Hj. lia.
    + destruct (IH (i + 1)) as [[Hf Hn]|(k & Hf & Hk & Hle & Hmin)].
      * left. split; [exact Hf|]. intros [|j] Hj; [exact E|].
        simpl in *. apply Hn. lia.
      * right. exists (S k). split; [lia|]. repeat split.
        -- exact Hk.
        -- simpl. lia.
        -- intros [|j] Hj; [exact E|]. simpl. apply Hmin. lia.
Qed.

(** [find] returns [-1] exactly when the substring does not occur. *)
Lemma find_absent (s sub : pystr) :
  ~ occurs_in sub s -> Py.find s sub = -1.
Proof.
  intros Hn. unfold Py.find.
  destruct (find_from_spec sub s 0) as [[Hf _]|(k & _ & Hk & Hle & _)];
    [exact Hf|].
  exfalso. apply Hn, occurs_in_iff. now exists k.
Qed.

(** Otherwise [find] returns the index of the first occurrence. *)
Lemma find_present (s sub : pystr) (idx : nat) :
  first_occurrence sub s idx -> Py.find s sub = Z.of_nat idx.
Proof.
  intros Hidx. unfold Py.find.
  destruct (find_from_spec sub s 0) as [[_ Hn]|(k & Hf & Hk)].
  - destruct Hidx as (Hi & Hle & _). rewrite Hn in Hi by exact Hle.
    discriminate.
  - rewrite Hf. rewrite (first_occurrence_unique sub s idx k Hidx Hk). lia.
Qed.

Lemma find_cases (s sub : pystr) :
  (Py.find s sub = -1 /\ ~ occurs_in sub s)
  \/ (exists idx, Py.find s sub = Z.of_nat idx /\ first_occurrence sub s idx).
Proof.
  unfold Py.find.
  destruct (find_from_spec sub s 0) as [[Hf Hn]|(k & Hf & Hk)].
  - left. split; [exact Hf|]. intros H. apply occurs_in_iff in H as (j & Hj & H).
    rewrite Hn in H by exact Hj. discriminate.
  - right. exists k. split; [lia|exact Hk].
Qed.

(** [sub in s] holds exactly when [sub] occurs in [s]. *)
Lemma contains_iff (sub s : pystr) :
  contains sub s = true <-> occurs_in sub s.
Proof.
  unfold contains. destruct (find_cases s sub) as [[-> Hn]|(idx & -> & Hidx)].
  - split; [discriminate|]. intros H. now apply Hn in H.
  - split; [|intros _; apply Z.leb_le; lia].
    intros _. apply occurs_in_iff. destruct Hidx as (H & Hle & _). now exists idx.
Qed.

(** The slice taken by [_extract_stat] is the window around the match. *)
Lemma slice_window (text : pystr) (idx : nat) :
  (idx <= length text)%nat ->
  slice text (Z.max 0 (Z.of_nat idx - 10)) (Z.of_nat idx + 20)
  = window_around text idx.
Proof.
  intros Hidx. unfold slice, window_around, slice_index, len.
  replace (Z.max 0 (Z.of_nat idx - 10) <? 0) with false
    by (symmetry; apply Z.ltb_ge; lia).
  replace (Z.of_nat idx + 20 <? 0) with false
    by (symmetry; apply Z.ltb_ge; lia).
  replace (Z.to_nat (Z.min (Z.max 0 (Z.of_nat idx - 10)) (Z.of_nat (length text))))
    with (idx - 10)%nat by lia.
  f_equal.
  destruct (Nat.le_gt_cases (idx + 20) (length text)) as [H|H].
  - f_equal. lia.
  - rewrite !firstn_all2; [reflexivity|lia|lia].
Qed.

End Strings.

(** ** Engagement counters *)

Section ExtractStat.
Context {rt : Runtime}.

Lemma mapM_app {A B} (f : A -> result B) (l1 l2 : list A) :
  mapM f (l1 ++ l2)
  = bind (mapM f l1) (fun v1 => bind (mapM f l2) (fun v2 => OK (v1 ++ v2))).
Proof.
  induction l1 as [|a l1 IH]; simpl.
  - destruct (mapM f l2); reflexivity.
  - destruct (f a) as [b|e]; simpl; [|reflexivity]. rewrite IH.
    destruct (mapM f l1) as [v1|e]; simpl; [|reflexivity].
    destruct (mapM f l2); reflexivity.
Qed.

Lemma maximum_not_negative (values : list Z) : 0 <= maximum values.
Proof.
  induction values as [|v values IH]; simpl; lia.
Qed.

Lemma maximum_app (l1 l2 : list Z) :
  maximum (l1 ++ l2) = Z.max (maximum l1) (maximum l2).
Proof.
  induction l1 as [|v l1 IH]; simpl.
  - pose proof (maximum_not_negative l2). lia.
  - rewrite IH. lia.
Qed.

Lemma scan_tokens_maximum (tokens : list pystr) (candidate_value : Z) :
  0 <= candidate_value ->
  scan_tokens tokens candidate_value
  = bind (token_values tokens)
      (fun values => OK (Z.max candidate_value (maximum values))).
Proof.
  unfold token_values. revert candidate_value.
  induction tokens as [|tok rest IH]; intros cv Hcv; cbn [scan_tokens mapM].
  - cbn [bind maximum fold_right]. f_equal. lia.
  - destruct (safe_int (VStr tok)) as [val|e]; cbn [bind]; [|reflexivity].
    rewrite IH by (destruct (cv <? val) eqn:E;
                   [apply Z.ltb_lt in E|apply Z.ltb_ge in E]; lia).
    destruct (mapM _ rest) as [values|e]; cbn [bind]; [|reflexivity].
    f_equal. cbn [maximum fold_right]. fold (maximum values).
    destruct (cv <? val) eqn:E;
      [apply Z.ltb_lt in E|apply Z.ltb_ge in E]; lia.
Qed.

Lemma scan_keywords_maximum (text : pystr) (keywords tokens : list pystr)
  (candidate_value : Z) :
  window_tokens text keywords tokens ->
  0 <= candidate_value ->
  scan_keywords text keywords candidate_value
  = bind (token_values tokens)
      (fun values => OK (Z.max candidate_value (maximum values))).
Proof.
  intros Hw. revert candidate_value.
  induction Hw as [|keyword rest tokens Habsent Hw IH
                   |keyword rest tokens idx Hidx Hw IH]; intros cv Hcv.
  - cbn [scan_keywords token_values mapM bind maximum fold_right].
    f_equal. lia.
  - cbn [scan_keywords]. rewrite (find_absent text keyword Habsent).
    rewrite Z.eqb_refl. now apply IH.
  - cbn [scan_keywords]. rewrite (find_present text keyword idx Hidx).
    replace (Z.of_nat idx =? -1) with false by (symmetry; apply Z.eqb_neq; lia).
    rewrite slice_window by apply Hidx.
    rewrite scan_tokens_maximum by exact Hcv.
    unfold token_values in *. rewrite mapM_app.
    destruct (mapM _ (split (window_around text idx))) as [v1|e]; cbn [bind];
      [|reflexivity].
    rewrite IH by (pose proof (maximum_not_negative v1); lia).
    destruct (mapM _ tokens) as [v2|e]; cbn [bind]; [|reflexivity].
    f_equal. rewrite maximum_app. lia.
Qed.

(** The window tokens exist for every text and list of keywords. *)
Lemma window_tokens_computed (text : pystr) (keywords : list pystr) :
  window_tokens text keywords (window_tokens_of text keywords).
Proof.
  induction keywords as [|keyword rest IH]; cbn [window_tokens_of].
  - constructor.
  - destruct (find_cases text keyword) as [[-> Hn]|(idx & -> & Hidx)].
    + now constructor.
    + replace (Z.of_nat idx <? 0) with false by (symmetry; apply Z.ltb_ge; lia).
      rewrite Nat2Z.id. now constructor.
Qed.

Lemma window_tokens_total (text : pystr) (keywords : list pystr) :
  exists tokens, window_tokens text keywords tokens.
Proof. eexists. apply window_tokens_computed. Qed.

Lemma window_tokens_absent (text : pystr) (keywords tokens : list pystr) :
  (forall keyword, In keyword keywords -> ~ occurs_in keyword text) ->
  window_tokens text keywords tokens -> tokens = [].
Proof.
  intros Hn Hw. induction Hw as [|keyword rest tokens Habsent Hw IH
                                 |keyword rest tokens idx Hidx Hw IH].
  - reflexivity.
  - apply IH. intros k Hk. apply Hn. now right.
  - exfalso. apply (Hn keyword); [now left|].
    apply occurs_in_iff. exists idx. split; apply Hidx.
Qed.

Lemma split_aux_token_length (cur s tok : pystr) :
  In tok (split_aux cur s) -> (length tok <= length cur + length s)%nat.
Proof.
  revert cur. induction s as [|c r IH]; intros cur; cbn [split_aux].
  - destruct cur; [intros []|]. intros [<-|[]]. rewrite length_rev. lia.
  - destruct (isspace c).
    + destruct cur as [|d cur].
      * intros H. apply IH in H. cbn in *. lia.
      * intros [<-|H]; [rewrite length_rev; cbn; lia|].
        apply IH in H. cbn in *. lia.
    + intros H. apply IH in H. cbn in *. lia.
Qed.

Lemma window_around_length (text : pystr) (idx : nat) :
  (length (window_around text idx) <= 30)%nat.
Proof.
  unfold window_around. rewrite length_skipn, length_firstn. lia.
Qed.

(** Every token of a window has at most 30 characters. *)
Lemma window_tokens_short (text : pystr) (keywords tokens : list pystr) :
  window_tokens text keywords tokens ->
  Forall (fun tok => (length tok <= 30)%nat) tokens.
Proof.
  induction 1 as [|keyword rest tokens Habsent Hw IH
                  |keyword rest tokens idx Hidx Hw IH]; auto.
  apply Forall_app. split; [|exact IH].
  apply Forall_forall. intros tok Htok.
  apply split_aux_token_length in Htok.
  pose proof (window_around_length text idx). cbn in Htok. lia.
Qed.

Lemma token_values_total (tokens : list pystr) :
  conforming rt ->
  Forall (fun tok => (length tok <= 30)%nat) tokens ->
  exists values, token_values tokens = OK values.
Proof.
  intros Hrt. unfold token_values.
  induction 1 as [|tok rest Htok _ [values IH]]; cbn [mapM].
  - now exists [].
  - destruct (safe_int_total rt tok Hrt ltac:(lia)) as [v ->].
    rewrite IH. cbn [bind]. now exists (v :: values).
Qed.

(** C6.  The value [_extract_stat] returns for a candidate is the
    largest of the values [safe_int] gives to the whitespace-delimited
    tokens of the windows (10 characters before the match, 20 from its
    start on) around the first occurrence of each keyword in the
    lowercased flattened text, and at least 0; it is 0 when no keyword
    occurs.  On a conforming interpreter [safe_int] returns on each of
    these tokens, so that a value is always extracted. *)
Theorem extract_stat_is_window_maximum :
  forall (n : node) (keywords tokens : list pystr),
    window_tokens (str_lower (get_text n [space])) keywords tokens ->
    _extract_stat n keywords
    = bind (token_values tokens) (fun values => OK (maximum values))
    /\ ((forall keyword, In keyword keywords ->
          ~ occurs_in keyword (str_lower (get_text n [space]))) ->
        _extract_stat n keywords = OK 0)
    /\ (conforming rt ->
        exists values,
          token_values tokens = OK values /\
          _extract_stat n keywords = OK (maximum values)).
Proof.
  intros n keywords tokens Hw.
  assert (E : _extract_stat n keywords
              = bind (token_values tokens) (fun values => OK (maximum values))).
  { unfold _extract_stat. rewrite (scan_keywords_maximum _ _ tokens) by (auto; lia).
    destruct (token_values tokens) as [values|e]; cbn [bind]; [|reflexivity].
    f_equal. pose proof (maximum_not_negative values). lia. }
  split; [exact E|]. split.
  - intros Hn. rewrite E.
    now rewrite (window_tokens_absent _ _ _ Hn Hw).
  - intros Hrt.
    destruct (token_values_total tokens Hrt (window_tokens_short _ _ _ Hw))
      as [values Hvalues].
    exists values. split; [exact Hvalues|]. rewrite E, Hvalues. reflexivity.
Qed.

Lemma extract_stat_not_negative (n : node) (keywords : list pystr) (v : Z) :
  _extract_stat n keywords = OK v -> 0 <= v.
Proof.
  destruct (window_tokens_total (str_lower (get_text n [space])) keywords)
    as [tokens Hw].
  unfold _extract_stat. rewrite (scan_keywords_maximum _ _ tokens 0 Hw) by lia.
  destruct (token_values tokens) as [values|e]; cbn [bind]; [|discriminate].
  intros [= <-]. lia.
Qed.

Lemma compute_total_engagement_sum (a b c d : Z) :
  0 <= a -> 0 <= b -> 0 <= c -> 0 <= d ->
  compute_total_engagement (Some a) (Some b) (Some c) (Some d) = a + b + c + d.
Proof.
  intros Ha Hb Hc Hd. unfold compute_total_engagement, or_zero.
  replace (a + b + c + d <? 0) with false; [reflexivity|].
  symmetry. apply Z.ltb_ge. lia.
Qed.

(** What a candidate that is kept looks like. *)
Lemma parse_single_post_inv (n : node) (post : FacebookPost) :
  _parse_single_post n = OK (Some post) ->
  exists likes comments shares views date_str,
    _extract_stat n [lit "like"; lit "reaction"] = OK likes /\
    _extract_stat n [lit "comment"] = OK comments /\
    _extract_stat n [lit "share"] = OK shares /\
    _extract_stat n [lit "view"] = OK views /\
    _extract_date n = OK date_str /\
    post = {| permalink := find_permalink n;
              content := clean_content (Some (find_raw_content n));
              media_type := _detect_media_type n;
              like_count := likes;
              comment_count := comments;
              share_count := shares;
              total_engagement :=
                compute_total_engagement (Some likes) (Some comments)
                  (Some shares) (Some views);
              video_views_count := views;
              date := date_str |}.
Proof.
  unfold _parse_single_post.
  destruct (_extract_stat n [lit "like"; lit "reaction"]) as [a|e];
    [|destruct (clean_content _); [destruct (find_permalink n)|]; discriminate].
  destruct (_extract_stat n [lit "comment"]) as [b|e];
    [|destruct (clean_content _); [destruct (find_permalink n)|]; discriminate].
  destruct (_extract_stat n [lit "share"]) as [c|e];
    [|destruct (clean_content _); [destruct (find_permalink n)|]; discriminate].
  destruct (_extract_stat n [lit "view"]) as [d|e];
    [|destruct (clean_content _); [destruct (find_permalink n)|]; discriminate].
  destruct (_extract_date n) as [date_str|e];
    [|destruct (clean_content _); [destruct (find_permalink n)|]; discriminate].
  cbn [bind safe_int]. intros H. exists a, b, c, d, date_str.
  repeat (split; [reflexivity|]).
  destruct (clean_content (Some (find_raw_content n))) as [|c0 content];
    [destruct (find_permalink n) as [|p0 plink]; [discriminate|]|];
    now injection H as <-.
Qed.

Lemma parse_single_post_counters (n : node) (post : FacebookPost) :
  _parse_single_post n = OK (Some post) -> counters_in_order post.
Proof.
  intros H.
  apply parse_single_post_inv in H
    as (a & b & c & d & date_str & Ha & Hb & Hc & Hd & _ & ->).
  apply extract_stat_not_negative in Ha, Hb, Hc, Hd.
  unfold counters_in_order.
  cbn [like_count comment_count share_count video_views_count total_engagement].
  rewrite compute_total_engagement_sum by assumption. auto.
Qed.

End ExtractStat.

(** ** The post extractor *)

Section Extractor.
Context {rt : Runtime} {env : Collaborators}.

Lemma str_eqb_eq (a b : pystr) : str_eqb a b = true <-> a = b.
Proof.
  unfold str_eqb. split.
  - intros H. apply andb_true_iff in H as [Hlen Hpre].
    apply Nat.eqb_eq in Hlen. apply startswith_prefix in Hpre as [rest ->].
    rewrite length_app in Hlen. destruct rest; [now rewrite app_nil_r|].
    simpl in Hlen. lia.
  - intros ->. rewrite Nat.eqb_refl. simpl.
    rewrite <- (app_nil_r b) at 2. apply startswith_app.
Qed.

Lemma filter_keeps {A} (f : A -> bool) (must may : A -> Prop) (all : list A) :
  (forall a, In a all -> must a -> f a = true) ->
  (forall a, In a all -> f a = true -> may a) ->
  keeps must may all (filter f all).
Proof.
  induction all as [|a all IH]; intros Hmust Hmay; simpl; [constructor|].
  assert (IH' : keeps must may all (filter f all))
    by (apply IH; intros b Hb; [apply Hmust|apply Hmay]; now right).
  destruct (f a) eqn:E.
  - constructor; [apply Hmay; auto; now left|exact IH'].
  - apply keeps_skip; [|exact IH'].
    intros HP. apply Hmust in HP; [congruence|now left].
Qed.

Lemma filter_selects {A} (f : A -> bool) (P : A -> Prop) (all : list A) :
  (forall a, In a all -> (f a = true <-> P a)) ->
  selects P all (filter f all).
Proof.
  intros H. apply filter_keeps; intros a Ha; now apply H.
Qed.

Lemma matches_name_attr (name : String.string) (key : String.string)
  (f : attr_filter) (e : node) :
  matches [lit name] [(lit key, f)] e = true <->
  named name e /\ attr_matches (attrs_of e) (lit key, f) = true.
Proof.
  destruct e as [s|nm attrs contents]; simpl.
  - split; [discriminate|intros [[] _]].
  - rewrite !orb_false_r, !andb_true_r, andb_true_iff, str_eqb_eq. tauto.
Qed.

Lemma attr_matches_present (attrs : list (pystr * pystr)) (key : pystr) :
  attr_matches attrs (key, IsPresent) = true <-> exists v, get attrs key = Some v.
Proof.
  unfold attr_matches. simpl. destruct (get attrs key) as [v|].
  - split; [intros _; now exists v|reflexivity].
  - split; [discriminate|intros [v H]; discriminate].
Qed.

Lemma attr_matches_equals (attrs : list (pystr * pystr)) (key v : pystr) :
  attr_matches attrs (key, Equals v) = true <-> get attrs key = Some v.
Proof.
  unfold attr_matches. simpl. destruct (get attrs key) as [w|].
  - rewrite str_eqb_eq. split; congruence.
  - split; discriminate.
Qed.

Lemma matches_layer1 (e : node) :
  matches [lit "article"; lit "div"] [(lit "role", Equals (lit "article"))] e
  = true <->
  (named "article" e \/ named "div" e)
  /\ has_attr_value "role" (lit "article") e.
Proof.
  destruct e as [s|nm attrs contents].
  - simpl. split; [discriminate|intros [[[]|[]] _]].
  - unfold matches, named, has_attr_value. cbn [existsb forallb attrs_of].
    rewrite orb_false_r, andb_true_r, andb_true_iff, orb_true_iff.
    rewrite !str_eqb_eq, attr_matches_equals. tauto.
Qed.

Lemma matches_layer2 (e : node) :
  matches [lit "div"] [(lit "data-ft", IsPresent)] e = true <->
  named "div" e /\ has_attr "data-ft" e.
Proof.
  rewrite (matches_name_attr "div" "data-ft").
  now rewrite attr_matches_present.
Qed.

(** C3 (as amended).  Candidate discovery is layered, the first
    non-empty layer winning.  Layer 1 keeps, in document order, every div
    or article element whose role attribute is "article", and nothing but
    article elements and such div elements: an element of another name is
    not a candidate, whatever its role.  Only when layer 1 is empty does
    layer 2 select the div elements that carry a data-ft attribute,
    whatever its value. *)
Theorem candidates_are_layered :
  forall html : pystr,
  exists layer1 layer2 : list node,
    keeps
      (fun e => (named "div" e \/ named "article" e)
                /\ has_attr_value "role" (lit "article") e)
      (fun e => named "article" e
                \/ (named "div" e /\ has_attr_value "role" (lit "article") e))
      (descendants (BeautifulSoup html)) layer1 /\
    selects (fun e => named "div" e /\ has_attr "data-ft" e)
      (descendants (BeautifulSoup html)) layer2 /\
    find_candidates (BeautifulSoup html)
    = match layer1 with
      | [] => layer2
      | _ => layer1
      end.
Proof.
  intros html. set (soup := BeautifulSoup html).
  exists (find_all soup [lit "article"; lit "div"]
            [(lit "role", Equals (lit "article"))]),
         (find_all soup [lit "div"] [(lit "data-ft", IsPresent)]).
  split; [|split].
  - apply filter_keeps; intros e _ H.
    + apply matches_layer1. tauto.
    + apply matches_layer1 in H. tauto.
  - apply filter_selects. intros e _. apply matches_layer2.
  - unfold find_candidates. now destruct (find_all soup _ _).
Qed.

Lemma hd_error_filter_first {A} (f : A -> bool) (before after : list A) (a : A) :
  f a = true -> (forall e, In e before -> f e = false) ->
  hd_error (filter f (before ++ a :: after)) = Some a.
Proof.
  intros Ha. induction before as [|b before IH]; intros Hb; simpl.
  - now rewrite Ha.
  - rewrite (Hb b) by now left. apply IH. intros e He. apply Hb. now right.
Qed.

Lemma hd_error_filter_none {A} (f : A -> bool) (all : list A) :
  (forall e, In e all -> f e = false) -> hd_error (filter f all) = None.
Proof.
  induction all as [|b all IH]; intros Hb; simpl; [reflexivity|].
  rewrite (Hb b) by now left. apply IH. intros e He. apply Hb. now right.
Qed.

Lemma matches_anchor (e : node) :
  matches [lit "a"] [(lit "href", IsPresent)] e = true <->
  named "a" e /\ has_attr "href" e.
Proof.
  rewrite (matches_name_attr "a" "href").
  now rewrite attr_matches_present.
Qed.

Lemma find_permalink_first_anchor (n link : node) (href : pystr) :
  first_anchor_with_href n link href ->
  find_permalink n
  = if contains site_domain href then href else site_origin ++ href.
Proof.
  intros (before & after & Hd & Hname & Hhref & Hbefore).
  unfold find_permalink, find, find_all. rewrite Hd.
  rewrite (hd_error_filter_first _ before after link).
  - unfold has_attr_value in Hhref. now rewrite Hhref.
  - apply matches_anchor. split; [exact Hname|now exists href].
  - intros e He. specialize (Hbefore e He).
    destruct (matches _ _ e) eqn:E; [|reflexivity].
    apply matches_anchor in E. contradiction.
Qed.

Lemma find_permalink_no_anchor (n : node) :
  (forall e, In e (descendants n) -> ~ (named "a" e /\ has_attr "href" e)) ->
  find_permalink n = [].
Proof.
  intros Hn. unfold find_permalink, find, find_all.
  rewrite hd_error_filter_none; [reflexivity|].
  intros e He. specialize (Hn e He).
  destruct (matches _ _ e) eqn:E; [|reflexivity].
  apply matches_anchor in E. contradiction.
Qed.

(** C4 (as amended).  The permalink of a post is taken from the first
    anchor inside the candidate that carries an href: the href itself
    when it contains the site's domain, and otherwise the canonical site
    origin followed by the href, whether or not the href is a path.  A
    candidate without such an anchor has the empty permalink. *)
Theorem permalink_from_first_anchor :
  forall (n : node) (post : FacebookPost),
    _parse_single_post n = OK (Some post) ->
    (forall link href,
        first_anchor_with_href n link href ->
        (occurs_in site_domain href -> permalink post = href) /\
        (~ occurs_in site_domain href ->
         permalink post = site_origin ++ href)) /\
    ((forall e, In e (descendants n) ->
                ~ (named "a" e /\ has_attr "href" e)) ->
     permalink post = []).
Proof.
  intros n post H.
  apply parse_single_post_inv in H as (a & b & c & d & date_str & _ & _ & _ & _ & _ & ->).
  cbn [permalink]. split.
  - intros link href Hlink.
    rewrite (find_permalink_first_anchor n link href Hlink).
    destruct (contains site_domain href) eqn:E.
    + split; [reflexivity|]. intros Hn. apply contains_iff in E. contradiction.
    + split; [|reflexivity]. intros Ho. apply contains_iff in Ho. congruence.
  - apply find_permalink_no_anchor.
Qed.

(** C10.  [safe_int] never gives a negative value to a string, stat
    extraction never returns one, and every post of a parsed page has
    four non-negative counters whose sum is its total engagement. *)
Theorem parsed_posts_have_consistent_counters :
  (forall (tok : pystr) (v : Z), safe_int (VStr tok) = OK v -> 0 <= v) /\
  (forall (n : node) (keywords : list pystr) (v : Z),
      _extract_stat n keywords = OK v -> 0 <= v) /\
  (forall (html : pystr) (post : FacebookPost),
      In post (_parse_page html) ->
      0 <= like_count post /\ 0 <= comment_count post /\
      0 <= share_count post /\ 0 <= video_views_count post /\
      total_engagement post
      = like_count post + comment_count post + share_count post
        + video_views_count post).
Proof.
  split; [exact safe_int_str_not_negative|].
  split; [exact extract_stat_not_negative|].
  intros html post Hin. unfold _parse_page in Hin.
  apply in_flat_map in Hin as (n & _ & Hin).
  destruct (_parse_single_post n) as [[p|]|e] eqn:E; try contradiction.
  destruct Hin as [<-|[]]. now apply parse_single_post_counters in E.
Qed.

End Extractor.

(** ** The page fetcher *)

Section Fetcher.
Context {env : Collaborators}.

Lemma range_nil (lo hi : Z) : hi <= lo -> range lo hi = [].
Proof.
  intros H. unfold range. replace (Z.to_nat (hi - lo)) with 0%nat by lia.
  reflexivity.
Qed.

Lemma range_cons (lo hi : Z) : lo < hi -> range lo hi = lo :: range (lo + 1) hi.
Proof.
  intros H. unfold range.
  replace (Z.to_nat (hi - lo)) with (S (Z.to_nat (hi - (lo + 1)))) by lia.
  cbn [seq map]. f_equal; [lia|].
  rewrite <- seq_shift, map_map. apply map_ext. intros i. lia.
Qed.

Lemma range_snoc (lo hi : Z) : lo <= hi -> range lo (hi + 1) = range lo hi ++ [hi].
Proof.
  intros H. unfold range.
  replace (Z.to_nat (hi + 1 - lo)) with (Z.to_nat (hi - lo) + 1)%nat by lia.
  rewrite seq_app, map_app. cbn [seq map]. do 2 f_equal. lia.
Qed.

Lemma in_range (lo hi k : Z) : In k (range lo hi) <-> lo <= k < hi.
Proof.
  unfold range. rewrite in_map_iff. split.
  - intros (i & <- & Hi). apply in_seq in Hi. lia.
  - intros H. exists (Z.to_nat (k - lo)). split; [lia|]. apply in_seq. lia.
Qed.

Lemma length_range (lo hi : Z) : length (range lo hi) = Z.to_nat (hi - lo).
Proof. unfold range. now rewrite length_map, length_seq. Qed.

Lemma attempt_calls_before_last (request : Request) (max_retries : Z)
  (backoff_factor : float) (attempts : list Z) :
  (forall k, In k attempts -> k < max_retries) ->
  flat_map (attempt_calls request max_retries backoff_factor) attempts
  = flat_map (failed_attempt request backoff_factor) attempts.
Proof.
  induction attempts as [|k rest IH]; intros H; [reflexivity|].
  cbn [flat_map]. rewrite IH by (intros j Hj; apply H; now right).
  f_equal. unfold attempt_calls, failed_attempt.
  replace (k <? max_retries) with true; [reflexivity|].
  symmetry. apply Z.ltb_lt. apply H. now left.
Qed.

Lemma advance_advance (w : World) (k1 k2 : nat) (c1 c2 : list Event) :
  advance (advance w k1 c1) k2 c2 = advance w (k1 + k2) (c1 ++ c2).
Proof.
  unfold advance. cbn. f_equal; [lia|]. now rewrite app_assoc.
Qed.

Lemma call_get_advance (request : Request) (w : World) :
  call_get request w
  = (session_get (requests_sent w) request, advance w 1 [CallGet request]).
Proof.
  unfold call_get, advance, log. cbn. do 2 f_equal. lia.
Qed.

Lemma call_sleep_advance (seconds : float) (w : World) :
  call_sleep seconds w = (time_sleep seconds, advance w 0 [CallSleep seconds]).
Proof.
  unfold call_sleep, advance, log. cbn. do 2 f_equal. lia.
Qed.

(** An accepted backoff is the sleep of the product. *)
Lemma backoff_sleep_accepted (backoff_factor : float) (attempt : Z) :
  backoff_sleep backoff_factor attempt = OK tt ->
  float_times_int backoff_factor attempt
  = OK (float_mul_int backoff_factor attempt) /\
  time_sleep (float_mul_int backoff_factor attempt) = OK tt.
Proof.
  unfold backoff_sleep, float_times_int, float_mul_int.
  destruct (float_of_int attempt); cbn [bind]; (discriminate || auto).
Qed.

(** One turn of the loop whose request is not answered with a 200: the
    request, then the backoff when an attempt is left, then the rest. *)
Lemma fetch_attempts_turn (request : Request) (max_retries : Z)
  (backoff_factor : float) (attempt : Z) (rest : list Z) (w : World) :
  retryable (session_get (requests_sent w) request) ->
  fetch_attempts request max_retries backoff_factor (attempt :: rest) w
  = if attempt <? max_retries
    then
      match float_times_int backoff_factor attempt with
      | Raise e => (Raise e, advance w 1 [CallGet request])
      | OK sleep_time =>
          match time_sleep sleep_time with
          | Raise e =>
              (Raise e, advance w 1 [CallGet request; CallSleep sleep_time])
          | OK _ =>
              fetch_attempts request max_retries backoff_factor rest
                (advance w 1 [CallGet request; CallSleep sleep_time])
          end
      end
    else fetch_attempts request max_retries backoff_factor rest
           (advance w 1 [CallGet request]).
Proof.
  intros H. cbn [fetch_attempts]. rewrite call_get_advance.
  assert (E : forall A (x y : A),
             match session_get (requests_sent w) request with
             | Response status_code text =>
                 if status_code =? 200 then x else y
             | RequestException => y
             end = y).
  { intros A x y.
    destruct (session_get (requests_sent w) request) as [code text|];
      [|reflexivity].
    cbn in H. apply Z.eqb_neq in H. now rewrite H. }
  destruct (session_get (requests_sent w) request) as [code text|] eqn:Eo.
  - cbn in H. apply Z.eqb_neq in H. rewrite H. clear E.
    destruct (attempt <? max_retries); [|reflexivity].
    destruct (float_times_int backoff_factor attempt) as [d|e]; [|reflexivity].
    rewrite call_sleep_advance, advance_advance. cbn [Nat.add app].
    now destruct (time_sleep d).
  - clear E. destruct (attempt <? max_retries); [|reflexivity].
    destruct (float_times_int backoff_factor attempt) as [d|e]; [|reflexivity].
    rewrite call_sleep_advance, advance_advance. cbn [Nat.add app].
    now destruct (time_sleep d).
Qed.

Lemma fetch_attempts_success (request : Request) (max_retries : Z)
  (backoff_factor : float) (attempt : Z) (rest : list Z) (w : World)
  (text : pystr) :
  session_get (requests_sent w) request = Response 200 text ->
  fetch_attempts request max_retries backoff_factor (attempt :: rest) w
  = (OK (Some text), advance w 1 [CallGet request]).
Proof.
  intros H. cbn [fetch_attempts]. rewrite call_get_advance, H. reflexivity.
Qed.

(** A failed attempt whose backoff is accepted leads to the next. *)
Lemma fetch_attempts_retry (request : Request) (max_retries : Z)
  (backoff_factor : float) (attempt : Z) (rest : list Z) (w : World) :
  retryable (session_get (requests_sent w) request) ->
  (attempt < max_retries -> backoff_sleep backoff_factor attempt = OK tt) ->
  fetch_attempts request max_retries backoff_factor (attempt :: rest) w
  = fetch_attempts request max_retries backoff_factor rest
      (advance w 1 (attempt_calls request max_retries backoff_factor attempt)).
Proof.
  intros H Hsleep. rewrite fetch_attempts_turn by exact H.
  unfold attempt_calls. destruct (attempt <? max_retries) eqn:E; [|reflexivity].
  apply Z.ltb_lt in E.
  destruct (backoff_sleep_accepted _ _ (Hsleep E)) as [-> ->]. reflexivity.
Qed.

(** A failed attempt whose backoff is refused ends the fetch. *)
Lemma fetch_attempts_refused (request : Request) (max_retries : Z)
  (backoff_factor : float) (attempt : Z) (rest : list Z) (w : World)
  (e : exn) :
  retryable (session_get (requests_sent w) request) ->
  attempt < max_retries ->
  backoff_sleep backoff_factor attempt = Raise e ->
  exists calls,
    fetch_attempts request max_retries backoff_factor (attempt :: rest) w
    = (Raise e, advance w 1 (CallGet request :: calls)) /\
    count_gets calls = 0%nat.
Proof.
  intros H Hlt Hsleep. rewrite fetch_attempts_turn by exact H.
  replace (attempt <? max_retries) with true by (symmetry; now apply Z.ltb_lt).
  unfold backoff_sleep in Hsleep.
  destruct (float_times_int backoff_factor attempt) as [d|e'];
    cbn [bind] in Hsleep.
  - rewrite Hsleep. now exists [CallSleep d].
  - injection Hsleep as ->. now exists [].
Qed.

(** When every attempt fails and every backoff is accepted, the loop
    makes all the attempts. *)
Lemma fetch_attempts_exhausted (request : Request) (max_retries : Z)
  (backoff_factor : float) (attempts : list Z) (w : World) :
  (forall i, (i < length attempts)%nat ->
             retryable (session_get (requests_sent w + i) request)) ->
  (forall attempt, In attempt attempts -> attempt < max_retries ->
                   backoff_sleep backoff_factor attempt = OK tt) ->
  fetch_attempts request max_retries backoff_factor attempts w
  = (OK None,
     advance w (length attempts)
       (flat_map (attempt_calls request max_retries backoff_factor) attempts)).
Proof.
  revert w. induction attempts as [|attempt rest IH]; intros w Hfail Hsleep.
  - cbn. unfold advance. destruct w; cbn. do 2 f_equal; [lia|].
    now rewrite app_nil_r.
  - rewrite fetch_attempts_retry;
      [|rewrite <- (Nat.add_0_r (requests_sent w)); apply Hfail; cbn; lia
       |apply Hsleep; now left].
    rewrite IH.
    + rewrite advance_advance. reflexivity.
    + intros i Hi. cbn [advance requests_sent].
      replace (requests_sent w + 1 + i)%nat with (requests_sent w + S i)%nat by lia.
      apply Hfail. cbn. lia.
    + intros a Ha. apply Hsleep. now right.
Qed.

(** When the attempts of [failed] fail with their backoffs accepted, the
    loop reaches the attempt after them in the world they lead to. *)
Lemma fetch_attempts_after_failures (request : Request) (max_retries : Z)
  (backoff_factor : float) (failed rest : list Z) (w : World) :
  (forall i, (i < length failed)%nat ->
             retryable (session_get (requests_sent w + i) request)) ->
  (forall attempt, In attempt failed -> attempt < max_retries ->
                   backoff_sleep backoff_factor attempt = OK tt) ->
  fetch_attempts request max_retries backoff_factor (failed ++ rest) w
  = fetch_attempts request max_retries backoff_factor rest
      (advance w (length failed)
         (flat_map (attempt_calls request max_retries backoff_factor) failed)).
Proof.
  revert w. induction failed as [|a failed IH]; intros w Hfail Hsleep.
  - cbn. f_equal. unfold advance. destruct w; cbn. f_equal; [lia|].
    now rewrite app_nil_r.
  - cbn [app]. rewrite fetch_attempts_retry;
      [|rewrite <- (Nat.add_0_r (requests_sent w)); apply Hfail; cbn; lia
       |apply Hsleep; now left].
    rewrite IH.
    + now rewrite advance_advance.
    + intros i Hi. cbn [advance requests_sent].
      replace (requests_sent w + 1 + i)%nat with (requests_sent w + S i)%nat by lia.
      apply Hfail. cbn. lia.
    + intros b Hb. apply Hsleep. now right.
Qed.

(** When the next attempt is then answered with a 200, the loop stops
    there. *)
Lemma fetch_attempts_until_success (request : Request) (max_retries : Z)
  (backoff_factor : float) (failed : list Z) (attempt : Z) (rest : list Z)
  (w : World) (text : pystr) :
  (forall i, (i < length failed)%nat ->
             retryable (session_get (requests_sent w + i) request)) ->
  (forall attempt, In attempt failed -> attempt < max_retries ->
                   backoff_sleep backoff_factor attempt = OK tt) ->
  session_get (requests_sent w + length failed) request = Response 200 text ->
  fetch_attempts request max_retries backoff_factor
    (failed ++ attempt :: rest) w
  = (OK (Some text),
     advance w (length failed + 1)
       (flat_map (attempt_calls request max_retries backoff_factor) failed
        ++ [CallGet request])).
Proof.
  intros Hfail Hsleep Hok.
  rewrite fetch_attempts_after_failures by assumption.
  rewrite (fetch_attempts_success _ _ _ _ _ _ text) by exact Hok.
  now rewrite advance_advance.
Qed.

Lemma count_gets_app (c1 c2 : list Event) :
  count_gets (c1 ++ c2) = (count_gets c1 + count_gets c2)%nat.
Proof. unfold count_gets. now rewrite filter_app, length_app. Qed.

Lemma count_gets_attempt_calls (request : Request) (max_retries : Z)
  (backoff_factor : float) (attempts : list Z) :
  count_gets (flat_map (attempt_calls request max_retries backoff_factor) attempts)
  = length attempts.
Proof.
  unfold count_gets.
  induction attempts as [|a rest IH]; [reflexivity|].
  cbn [flat_map]. rewrite filter_app, length_app, IH.
  unfold attempt_calls. now destruct (a <? max_retries).
Qed.

(** Whatever the answers and the clock, the loop sends at most one
    request per attempt and calls nothing but the transport and the
    clock. *)
Lemma fetch_attempts_calls (request : Request) (max_retries : Z)
  (backoff_factor : float) (attempts : list Z) (w : World) :
  exists calls,
    snd (fetch_attempts request max_retries backoff_factor attempts w)
    = advance w (count_gets calls) calls /\
    (count_gets calls <= length attempts)%nat /\
    Forall (fun e => e = CallGet request \/ exists d, e = CallSleep d) calls.
Proof.
  revert w. induction attempts as [|attempt rest IH]; intros w.
  - exists []. cbn. split; [|split; [lia|constructor]].
    unfold advance. destruct w; cbn. f_equal; [lia|now rewrite app_nil_r].
  - assert (Hone : exists calls,
               snd (fetch_attempts request max_retries backoff_factor
                      (attempt :: rest) w)
               = advance w (count_gets calls) calls /\
               (count_gets calls <= S (length rest))%nat /\
               Forall (fun e => e = CallGet request \/ exists d, e = CallSleep d)
                 calls).
    { assert (Hnext : forall first,
                 Forall (fun e => e = CallGet request \/ exists d, e = CallSleep d)
                   first ->
                 count_gets first = 1%nat ->
                 exists calls,
                   snd (fetch_attempts request max_retries backoff_factor rest
                          (advance w 1 first))
                   = advance w (count_gets calls) calls /\
                   (count_gets calls <= S (length rest))%nat /\
                   Forall (fun e => e = CallGet request \/ exists d, e = CallSleep d)
                     calls).
      { intros first Hfirst Hcount.
        destruct (IH (advance w 1 first)) as (calls & -> & Hle & Hall).
        exists (first ++ calls). rewrite advance_advance, count_gets_app, Hcount.
        split; [reflexivity|]. split; [lia|]. now apply Forall_app. }
      assert (Hstop : forall first,
                 Forall (fun e => e = CallGet request \/ exists d, e = CallSleep d)
                   first ->
                 count_gets first = 1%nat ->
                 exists calls,
                   advance w 1 first = advance w (count_gets calls) calls /\
                   (count_gets calls <= S (length rest))%nat /\
                   Forall (fun e => e = CallGet request \/ exists d, e = CallSleep d)
                     calls).
      { intros first Hfirst Hcount. exists first. rewrite Hcount.
        split; [reflexivity|]. split; [lia|exact Hfirst]. }
      assert (Hget : Forall (fun e => e = CallGet request \/ exists d, e = CallSleep d)
                       [CallGet request])
        by (constructor; [now left|constructor]).
      assert (Hgs : forall d,
                 Forall (fun e => e = CallGet request \/ exists d, e = CallSleep d)
                   [CallGet request; CallSleep d])
        by (intros d; constructor; [now left|];
            constructor; [right; now exists d|constructor]).
      destruct (session_get (requests_sent w) request) as [code text|] eqn:E.
      - destruct (Z.eq_dec code 200) as [->|Hcode].
        + rewrite (fetch_attempts_success _ _ _ _ _ _ text E). cbn [snd].
          now apply Hstop.
        + rewrite fetch_attempts_turn by (rewrite E; exact Hcode).
          destruct (attempt <? max_retries); [|now apply Hnext].
          destruct (float_times_int backoff_factor attempt) as [d|e];
            [|now apply Hstop].
          destruct (time_sleep d); [now apply Hnext|]. now apply Hstop.
      - rewrite fetch_attempts_turn by (now rewrite E).
        destruct (attempt <? max_retries); [|now apply Hnext].
        destruct (float_times_int backoff_factor attempt) as [d|e];
          [|now apply Hstop].
        destruct (time_sleep d); [now apply Hnext|]. now apply Hstop. }
    exact Hone.
Qed.

(** [_fetch_page] calls both rotators once and then runs the loop with
    the request made of what they returned. *)
Lemma fetch_page_unfold (self : FacebookHashtagScraper) (url : pystr) (w : World) :
  _fetch_page self url w
  = fetch_attempts (request_of self url w)
      (get_default (max_retries_setting (settings self)) 3)
      (get_default (backoff_factor_setting (settings self)) one_and_a_half)
      (range 1 (get_default (max_retries_setting (settings self)) 3 + 1))
      (rotated w).
Proof.
  unfold _fetch_page, call_get_user_agent, call_get_next_proxy, request_of,
    rotated, rotation_calls, log.
  destruct (get_user_agent (user_agent_rotator w)) as [ua rotator].
  cbn [proxy_manager user_agent_rotator requests_sent trace fst snd].
  destruct (get_next_proxy (proxy_manager w)) as [proxies manager].
  cbn [proxy_manager user_agent_rotator requests_sent trace fst snd].
  rewrite <- app_assoc. cbn [app].
  destruct proxies as [[|item items]|]; reflexivity.
Qed.

Lemma range_attempt_calls (request : Request) (max_retries : Z)
  (backoff_factor : float) (last : Z) :
  last <= max_retries ->
  flat_map (attempt_calls request max_retries backoff_factor) (range 1 last)
  = flat_map (failed_attempt request backoff_factor) (range 1 last).
Proof.
  intros H. apply attempt_calls_before_last.
  intros k Hk. apply in_range in Hk. lia.
Qed.

Lemma range_split (lo mid hi : Z) :
  lo <= mid <= hi -> range lo hi = range lo mid ++ range mid hi.
Proof.
  intros H. remember (Z.to_nat (mid - lo)) as n eqn:Hn.
  revert lo Hn H. induction n as [|n IH]; intros lo Hn H.
  - rewrite (range_nil lo mid) by lia. replace mid with lo by lia. reflexivity.
  - rewrite (range_cons lo hi), (range_cons lo mid) by lia.
    cbn [app]. f_equal. apply IH; lia.
Qed.

(** C5 (as amended).  [_fetch_page] sends at most [max_retries]
    requests.  After a failed attempt that is not the last it calls
    [time.sleep] with [backoff_factor * attempt] seconds, and after the
    final attempt it does not sleep.  As long as these sleeps are
    accepted: when the attempt number [last] is the first to be answered
    with a 200, the calls are the two rotations, then each earlier
    attempt followed by its sleep, then the request of attempt [last],
    and the text is returned; when all [max_retries] attempts fail, the
    calls are the same with [last = max_retries] and [None] is returned.
    When the sleep after the failed attempt [last] is refused, what it
    raises is raised by [_fetch_page], after [last] requests. *)
Theorem fetch_page_retries_with_linear_backoff :
  forall (self : FacebookHashtagScraper) (url : pystr) (w : World),
    let max_retries := get_default (max_retries_setting (settings self)) 3 in
    let backoff_factor :=
      get_default (backoff_factor_setting (settings self)) one_and_a_half in
    let request := request_of self url w in
    (exists calls,
        trace (snd (_fetch_page self url w)) = trace w ++ calls /\
        Z.of_nat (count_gets calls) <= Z.max 0 max_retries) /\
    (forall (last : Z) (text : pystr),
        1 <= last <= max_retries ->
        (forall i, (i < Z.to_nat (last - 1))%nat ->
                   retryable (session_get (requests_sent w + i) request)) ->
        (forall attempt, 1 <= attempt < last ->
                         backoff_sleep backoff_factor attempt = OK tt) ->
        session_get (requests_sent w + Z.to_nat (last - 1)) request
        = Response 200 text ->
        fst (_fetch_page self url w) = OK (Some text) /\
        trace (snd (_fetch_page self url w))
        = trace w ++ rotation_calls w
          ++ attempts_up_to request backoff_factor last) /\
    ((forall i, (i < Z.to_nat max_retries)%nat ->
                retryable (session_get (requests_sent w + i) request)) ->
     (forall attempt, 1 <= attempt < max_retries ->
                      backoff_sleep backoff_factor attempt = OK tt) ->
     fst (_fetch_page self url w) = OK None /\
     trace (snd (_fetch_page self url w))
     = trace w ++ rotation_calls w
       ++ (if 1 <=? max_retries
           then attempts_up_to request backoff_factor max_retries
           else [])) /\
    (forall (last : Z) (e : exn),
        1 <= last < max_retries ->
        (forall i, (i < Z.to_nat last)%nat ->
                   retryable (session_get (requests_sent w + i) request)) ->
        (forall attempt, 1 <= attempt < last ->
                         backoff_sleep backoff_factor attempt = OK tt) ->
        backoff_sleep backoff_factor last = Raise e ->
        fst (_fetch_page self url w) = Raise e /\
        count_gets (trace (snd (_fetch_page self url w)))
        = (count_gets (trace w) + Z.to_nat last)%nat).
Proof.
  intros self url w max_retries backoff_factor request.
  rewrite fetch_page_unfold. fold max_retries backoff_factor request.
  split; [|split; [|split]].
  - destruct (fetch_attempts_calls request max_retries backoff_factor
                (range 1 (max_retries + 1)) (rotated w))
      as (calls & -> & Hle & _).
    exists (rotation_calls w ++ calls). split.
    + cbn [advance trace rotated]. now rewrite app_assoc.
    + rewrite length_range in Hle. unfold count_gets in *.
      rewrite filter_app, length_app. cbn [rotation_calls filter is_get length].
      lia.
  - intros last text Hlast Hfail Hsleep Hok.
    rewrite (range_split 1 last (max_retries + 1)) by lia.
    rewrite (range_cons last (max_retries + 1)) by lia.
    rewrite (fetch_attempts_until_success _ _ _ _ _ _ _ text).
    + split; [reflexivity|]. cbn [snd advance trace rotated].
      rewrite range_attempt_calls by lia. unfold attempts_up_to.
      now rewrite <- app_assoc.
    + rewrite length_range. intros i Hi. apply Hfail. lia.
    + intros attempt Hin _. apply Hsleep. apply in_range in Hin. lia.
    + rewrite length_range. cbn [rotated requests_sent]. exact Hok.
  - intros Hfail Hsleep.
    rewrite fetch_attempts_exhausted;
      [|rewrite length_range; intros i Hi; apply Hfail; lia
       |intros attempt Hin Hlt; apply Hsleep; apply in_range in Hin; lia].
    split; [reflexivity|]. cbn [snd advance trace rotated].
    rewrite <- app_assoc. do 2 f_equal.
    destruct (1 <=? max_retries) eqn:E.
    + apply Z.leb_le in E.
      rewrite (range_snoc 1 max_retries) by lia.
      rewrite flat_map_app, range_attempt_calls by lia.
      unfold attempts_up_to. f_equal. cbn [flat_map]. unfold attempt_calls.
      rewrite Z.ltb_irrefl. reflexivity.
    + apply Z.leb_gt in E. now rewrite range_nil by lia.
  - intros last e Hlast Hfail Hsleep Hrefused.
    rewrite (range_split 1 last (max_retries + 1)) by lia.
    rewrite (range_cons last (max_retries + 1)) by lia.
    rewrite fetch_attempts_after_failures;
      [|rewrite length_range; intros i Hi; apply Hfail; lia
       |intros attempt Hin _; apply Hsleep; apply in_range in Hin; lia].
    destruct (fetch_attempts_refused request max_retries backoff_factor last
                (range (last + 1) (max_retries + 1))
                (advance (rotated w) (length (range 1 last))
                   (flat_map (attempt_calls request max_retries backoff_factor)
                      (range 1 last))) e)
      as (calls & -> & Hcalls).
    + cbn [advance requests_sent rotated]. rewrite length_range.
      replace (Z.to_nat (last - 1)) with (Z.to_nat last - 1)%nat by lia.
      apply Hfail. lia.
    + lia.
    + exact Hrefused.
    + split; [reflexivity|]. cbn [snd advance trace rotated].
      rewrite !count_gets_app, count_gets_attempt_calls, length_range.
      change (count_gets (rotation_calls w)) with 0%nat.
      change (count_gets (CallGet request :: calls)) with (S (count_gets calls)).
      rewrite Hcalls. lia.
Qed.

(** C2 (as amended).  A fetch calls each rotator exactly once, before
    the first attempt; every request of the fetch, whatever the attempt,
    is the same request, made with the user agent and the proxy
    configuration those two calls returned, and each rotator has then
    advanced by one call. *)
Theorem rotation_is_per_fetch :
  forall (self : FacebookHashtagScraper) (url : pystr) (w : World),
  exists calls : list Event,
    trace (snd (_fetch_page self url w))
    = trace w
      ++ [CallGetUserAgent (fst (get_user_agent (user_agent_rotator w)));
          CallGetNextProxy (fst (get_next_proxy (proxy_manager w)))]
      ++ calls /\
    Forall (fun e => e = CallGet (request_of self url w)
                     \/ exists seconds, e = CallSleep seconds) calls /\
    In (lit "User-Agent", fst (get_user_agent (user_agent_rotator w)))
      (req_headers (request_of self url w)) /\
    (forall proxies, req_proxies (request_of self url w) = Some proxies ->
                     fst (get_next_proxy (proxy_manager w)) = Some proxies) /\
    user_agent_rotator (snd (_fetch_page self url w))
    = snd (get_user_agent (user_agent_rotator w)) /\
    proxy_manager (snd (_fetch_page self url w))
    = snd (get_next_proxy (proxy_manager w)).
Proof.
  intros self url w. rewrite fetch_page_unfold.
  destruct (fetch_attempts_calls (request_of self url w)
              (get_default (max_retries_setting (settings self)) 3)
              (get_default (backoff_factor_setting (settings self)) one_and_a_half)
              (range 1 (get_default (max_retries_setting (settings self)) 3 + 1))
              (rotated w))
    as (calls & -> & _ & Hall).
  exists calls. cbn [advance rotated trace user_agent_rotator proxy_manager].
  split; [now rewrite <- app_assoc|]. split; [exact Hall|].
  split; [now left|]. split; [|split; reflexivity].
  intros proxies. cbn [request_of req_proxies].
  destruct (fst (get_next_proxy (proxy_manager w))) as [[|item items]|];
    congruence.
Qed.

End Fetcher.

(** ** The pagination controller *)

Section Pagination.
Context {rt : Runtime} {env : Collaborators}.








End Pagination.

(** ** The theorems at work on the samples *)

Section Witnesses.

Lemma ascii_runtime_conforming : conforming ascii_runtime.
Proof.
  split.
  - intros s _. reflexivity.
  - intros s. cbn [str_lower ascii_runtime]. unfold keep_digits_and_dots.
    induction s as [|c r IH]; [reflexivity|]. cbn [map filter]. rewrite IH.
    unfold ascii_lower_char.
    destruct ((65 <=? c) && (c <=? 90))%N eqn:E; [|reflexivity].
    apply andb_true_iff in E as [E1 E2]. apply N.leb_le in E1, E2.
    replace (is_digit (c + 32)%N || (c + 32 =? dot)%N) with false.
    + replace (is_digit c || (c =? dot)%N) with false; [reflexivity|].
      symmetry. apply orb_false_iff. unfold is_digit, dot. split.
      * apply andb_false_iff. right. apply N.leb_gt. lia.
      * apply N.eqb_neq. lia.
    + symmetry. apply orb_false_iff. unfold is_digit, dot. split.
      * apply andb_false_iff. right. apply N.leb_gt. lia.
      * apply N.eqb_neq. lia.
  - right. cbn. lia.
Qed.

(** The hashtag "##cats" is two '#' and "cats". *)
Lemma build_page_url_ignores_leading_hashes_witness :
  lit "##cats" = repeat hash 2 ++ lit "cats" /\
  hd_error (lit "cats") <> Some hash /\
  (hashtag (FacebookParser.__init__ (lit "##cats") 5 default_settings) = lit "cats" /\
   @_build_page_url ascii_runtime
     (FacebookParser.__init__ (lit "##cats") 5 default_settings) 2
   = @_build_page_url ascii_runtime
       (FacebookParser.__init__ (lit "cats") 5 default_settings) 2 /\
   (forall encoded,
       quote_plus (hashtag (FacebookParser.__init__ (lit "##cats") 5 default_settings))
       = OK encoded ->
       ~ In hash encoded)).
Proof.
  split; [reflexivity|]. split; [discriminate|].
  apply (build_page_url_ignores_leading_hashes (lit "##cats") (lit "cats") 2 5 2
           default_settings); [reflexivity|discriminate].
Defined.

Lemma safe_int_reference_values_and_overflow_witness :
  conforming ascii_runtime /\
  (@safe_int ascii_runtime VNone = OK 0 /\
   @safe_int ascii_runtime (VStr (lit "1.2k")) = OK 1200 /\
   @safe_int ascii_runtime (VStr (lit "3,456")) = OK 3456 /\
   @safe_int ascii_runtime (VStr (lit "789")) = OK 789 /\
   @safe_int ascii_runtime (VStr (lit "")) = OK 0 /\
   @safe_int ascii_runtime (VStr (lit "abc")) = OK 0 /\
   @safe_int ascii_runtime (VInt 5) = OK 5 /\
   @safe_int ascii_runtime (VStr overflow_text) = Raise OverflowError).
Proof.
  split; [exact ascii_runtime_conforming|].
  apply (safe_int_reference_values_and_overflow ascii_runtime).
  exact ascii_runtime_conforming.
Defined.

(** The like counter of the first sample post: the window around "like"
    holds the tokens "world", "12" and "likes". *)
Lemma extract_stat_is_window_maximum_witness :
  window_tokens (@str_lower ascii_runtime (get_text page_one_post [space]))
    [lit "like"; lit "reaction"] [lit "world"; lit "12"; lit "likes"] /\
  (@_extract_stat ascii_runtime page_one_post [lit "like"; lit "reaction"]
   = bind (@token_values ascii_runtime [lit "world"; lit "12"; lit "likes"])
       (fun values => OK (maximum values)) /\
   ((forall keyword, In keyword [lit "like"; lit "reaction"] ->
       ~ occurs_in keyword (@str_lower ascii_runtime (get_text page_one_post [space]))) ->
    @_extract_stat ascii_runtime page_one_post [lit "like"; lit "reaction"] = OK 0) /\
   (conforming ascii_runtime ->
    exists values,
      @token_values ascii_runtime [lit "world"; lit "12"; lit "likes"] = OK values /\
      @_extract_stat ascii_runtime page_one_post [lit "like"; lit "reaction"]
      = OK (maximum values))).
Proof.
  assert (H : window_tokens
                (@str_lower ascii_runtime (get_text page_one_post [space]))
                [lit "like"; lit "reaction"] [lit "world"; lit "12"; lit "likes"])
    by exact (window_tokens_computed
                (@str_lower ascii_runtime (get_text page_one_post [space]))
                [lit "like"; lit "reaction"]).
  split; [exact H|].
  exact (@extract_stat_is_window_maximum ascii_runtime page_one_post
           [lit "like"; lit "reaction"] [lit "world"; lit "12"; lit "likes"] H).
Defined.

Lemma permalink_from_first_anchor_witness :
  @_parse_single_post ascii_runtime page_one_post = OK (Some page_one_record) /\
  ((forall link href,
       first_anchor_with_href page_one_post link href ->
       (occurs_in site_domain href -> permalink page_one_record = href) /\
       (~ occurs_in site_domain href ->
        permalink page_one_record = site_origin ++ href)) /\
   ((forall e, In e (descendants page_one_post) ->
               ~ (named "a" e /\ has_attr "href" e)) ->
    permalink page_one_record = [])).
Proof.
  split; [reflexivity|].
  apply (@permalink_from_first_anchor ascii_runtime page_one_post page_one_record).
  reflexivity.
Defined.

Lemma parsed_posts_have_consistent_counters_witness :
  In page_one_record (@_parse_page ascii_runtime two_pages_then_nothing page_one_html) /\
  (0 <= like_count page_one_record /\ 0 <= comment_count page_one_record /\
   0 <= share_count page_one_record /\ 0 <= video_views_count page_one_record /\
   total_engagement page_one_record
   = like_count page_one_record + comment_count page_one_record
     + share_count page_one_record + video_views_count page_one_record).
Proof.
  assert (H : In page_one_record
                (@_parse_page ascii_runtime two_pages_then_nothing page_one_html))
    by (left; reflexivity).
  split; [exact H|].
  exact (proj2 (proj2 (@parsed_posts_have_consistent_counters ascii_runtime
                         two_pages_then_nothing))
           page_one_html page_one_record H).
Defined.

(** No request is answered: three attempts, sleeps of 1.5 and 3 seconds
    between them, none after the third. *)
Lemma fetch_page_retries_with_linear_backoff_witness :
  let w := fresh_world unreachable_site two_identities in
  let url := lit "https://example.org/" in
  let request := @request_of unreachable_site (cats_scraper 5) url w in
  (forall i, (i < 3)%nat ->
             retryable (@session_get unreachable_site (requests_sent w + i) request)) /\
  (forall attempt, 1 <= attempt < 3 ->
                   @backoff_sleep unreachable_site one_and_a_half attempt = OK tt) /\
  fst (@_fetch_page unreachable_site (cats_scraper 5) url w) = OK None /\
  trace (snd (@_fetch_page unreachable_site (cats_scraper 5) url w))
  = [CallGetUserAgent (lit "agent-1");
     CallGetNextProxy
       (Some [(lit "http", lit "http://proxy-1:8080");
              (lit "https", lit "http://proxy-1:8080")]);
     CallGet request;
     CallSleep (S754_finite false 6755399441055744 (-52));
     CallGet request;
     CallSleep (S754_finite false 6755399441055744 (-51));
     CallGet request].
Proof.
  intros w url request.
  assert (H : forall i, (i < 3)%nat ->
                retryable (@session_get unreachable_site (requests_sent w + i) request))
    by (intros [|[|[|i]]] _; exact I).
  assert (Hs : forall attempt, 1 <= attempt < 3 ->
                 @backoff_sleep unreachable_site one_and_a_half attempt = OK tt).
  { intros attempt Ha.
    assert (E : attempt = 1 \/ attempt = 2) by lia.
    destruct E as [->| ->]; reflexivity. }
  split; [exact H|]. split; [exact Hs|].
  exact (proj1 (proj2 (proj2 (@fetch_page_retries_with_linear_backoff
                                unreachable_site (cats_scraper 5) url w)))
           H Hs).
Defined.


(** The same scenario, computed: the posts of pages 1 and 2, three
    fetches, five requests. *)
Example run_two_pages_then_nothing :
  exists w',
    @run ascii_runtime two_pages_then_nothing (cats_scraper 5)
      (fresh_world two_pages_then_nothing two_identities)
    = OK (@_parse_page ascii_runtime two_pages_then_nothing page_one_html
          ++ @_parse_page ascii_runtime two_pages_then_nothing page_two_html, w')
    /\ count_fetches (trace w') = 3%nat /\ count_gets (trace w') = 5%nat.
Proof.
  eexists. split; [vm_compute; reflexivity|]. split; reflexivity.
Qed.

(** Page 1 holds no post: the run returns nothing after one fetch. *)
Example run_one_empty_page :
  exists w',
    @run ascii_runtime one_empty_page (cats_scraper 5)
      (fresh_world one_empty_page two_identities)
    = OK ([], w')
    /\ count_fetches (trace w') = 1%nat /\ count_gets (trace w') = 1%nat.
Proof.
  eexists. split; [vm_compute; reflexivity|]. split; reflexivity.
Qed.

(** C5, as stated, fails.  With a backoff factor of [-1.5] and every
    request failing, the sleep after the first attempt is refused with a
    [ValueError]: the fetch raises after one request, and does not
    return the absence of content. *)
Lemma negative_backoff_ends_the_fetch :
  ~ (forall (env : Collaborators) (self : FacebookHashtagScraper)
            (url : pystr) (w : World),
        (forall i,
            (i < Z.to_nat
                   (get_default (max_retries_setting (settings self)) 3%Z))%nat ->
            retryable (session_get (requests_sent w + i)
                         (request_of self url w))) ->
        fst (_fetch_page self url w) = OK None).
Proof.
  intros H.
  specialize (H unreachable_site negative_backoff_scraper
                (lit "https://example.org/")
                (fresh_world unreachable_site two_identities)).
  assert (E : fst (@_fetch_page unreachable_site negative_backoff_scraper
                     (lit "https://example.org/")
                     (fresh_world unreachable_site two_identities))
              = Raise ValueError) by (vm_compute; reflexivity).
  rewrite E in H. discriminate H.
  intros i _. cbn. destruct i; exact I.
Qed.


(** C2, as stated, fails.  With every request failing, the three
    attempts of one fetch send the same request, made with the first
    user agent and the first proxy; the rotators are called once, not
    once per attempt. *)
Lemma rotation_is_not_per_attempt :
  ~ (forall (env : Collaborators) (self : FacebookHashtagScraper)
            (url : pystr) (w : World) (calls : list Event),
        trace (snd (_fetch_page self url w)) = trace w ++ calls ->
        rotates_per_attempt calls).
Proof.
  intros H.
  specialize (H unreachable_site (cats_scraper 5) (lit "https://example.org/")
                (fresh_world unreachable_site two_identities) _ eq_refl).
  vm_compute in H.
  inversion H as [|user_agent proxies request rest _ Hrest|]; subst.
  inversion Hrest as [| |seconds rest' Hrest']; subst.
  inversion Hrest'.
Qed.

(** C3, as stated, fails.  A section element with [role=article] is a
    layer-1 candidate in the specification's words, and the code does
    not select it. *)
Lemma section_with_role_is_not_a_candidate :
  ~ (forall (soup : node) (layer1 layer2 : list node),
        selects layer1_as_specified (descendants soup) layer1 ->
        selects layer2_as_specified (descendants soup) layer2 ->
        find_candidates soup
        = match layer1 with
          | [] => layer2
          | _ => layer1
          end).
Proof.
  intros H.
  specialize (H (document [section_element]) [section_element] []).
  assert (E : find_candidates (document [section_element]) = [section_element]).
  { apply H.
    - apply keeps_this; [right; reflexivity|].
      apply keeps_skip; [|constructor].
      intros [[]|Hrole]. discriminate Hrole.
    - apply keeps_skip.
      { intros (v & Hv & _). discriminate Hv. }
      apply keeps_skip; [|constructor].
      intros (v & Hv & _). discriminate Hv. }
  discriminate E.
Qed.

(** C4, as stated, fails.  The href "http://example.com/p" neither
    contains the site's domain nor is a path, and the site origin is
    prepended to it all the same. *)
Lemma origin_is_prepended_to_non_paths :
  ~ (forall (rt : Runtime) (n : node) (post : FacebookPost)
            (link : node) (href : pystr),
        _parse_single_post n = OK (Some post) ->
        first_anchor_with_href n link href ->
        ~ occurs_in site_domain href ->
        is_path href = false ->
        permalink post <> site_origin ++ href).
Proof.
  intros H.
  destruct (@_parse_single_post ascii_runtime external_link_post)
    as [[post|]|e] eqn:E; try discriminate E.
  apply (H ascii_runtime external_link_post post
           (Tag (lit "a") [(lit "href", lit "http://example.com/p")]
              [NavigableString (lit "elsewhere")])
           (lit "http://example.com/p")).
  - exact E.
  - exists [], [NavigableString (lit "elsewhere")].
    split; [reflexivity|]. split; [reflexivity|]. split; [reflexivity|].
    intros e0 [].
  - intros Ho. apply contains_iff in Ho. discriminate Ho.
  - reflexivity.
  - injection E as <-. reflexivity.
Qed.

End Witnesses.

(* ================================================================== *)
(** * Further properties of the code                                   *)
(* ================================================================== *)

(** ** Cleaned text *)

Section CleanedText.

Lemma slice_to_firstn (s : pystr) (hi : Z) :
  0 <= hi -> slice_to s hi = firstn (Z.to_nat hi) s.
Proof.
  intros Hhi. unfold slice_to, slice, slice_index, len.
  replace (0 <? 0) with false by reflexivity.
  replace (hi <? 0) with false by (symmetry; apply Z.ltb_ge; lia).
  replace (Z.to_nat (Z.min 0 (Z.of_nat (length s)))) with 0%nat by lia.
  cbn [skipn].
  destruct (Z.min_spec hi (Z.of_nat (length s))) as [[_ ->]|[Hle ->]];
    [reflexivity|].
  rewrite Nat2Z.id, !firstn_all2; (reflexivity || lia).
Qed.

(** [clean_content] keeps the first [max_len] characters of the
    normalised text. *)
Lemma clean_content_firstn (text : pystr) :
  clean_content (Some text) = firstn (Z.to_nat max_len) (normalized text).
Proof.
  unfold clean_content. fold (normalized text).
  destruct (max_len <? len (normalized text)) eqn:E.
  - apply slice_to_firstn. discriminate.
  - apply Z.ltb_ge in E. unfold len in E. rewrite firstn_all2; [reflexivity|lia].
Qed.

Lemma forallb_firstn {A} (p : A -> bool) (n : nat) (l : list A) :
  forallb p l = true -> forallb p (firstn n l) = true.
Proof.
  revert n. induction l as [|a l IH]; intros [|n]; simpl; try reflexivity.
  intros H. apply andb_true_iff in H as [-> H]. simpl. auto.
Qed.

Lemma single_spaced_firstn (b : bool) (n : nat) (s : pystr) :
  single_spaced b s = true -> single_spaced b (firstn n s) = true.
Proof.
  revert b n. induction s as [|c r IH]; intros b [|n]; cbn [firstn single_spaced];
    try reflexivity.
  destruct (isspace c).
  - intros H. apply andb_true_iff in H as [-> H]. cbn [andb]. auto.
  - auto.
Qed.

Lemma single_spaced_in (b : bool) (s : pystr) (c : char) :
  single_spaced b s = true -> In c s -> isspace c = true -> c = space.
Proof.
  revert b. induction s as [|d r IH]; intros b; cbn [single_spaced In];
    [contradiction|].
  intros H [->|Hin] Hc.
  - rewrite Hc in H. apply andb_true_iff in H as [H _].
    apply andb_true_iff in H as [H _]. now apply N.eqb_eq in H.
  - destruct (isspace d); [|now apply (IH false)].
    apply andb_true_iff in H as [_ H]. now apply (IH true).
Qed.

Lemma single_spaced_adjacent (b : bool) (before after : pystr) (c1 c2 : char) :
  single_spaced b (before ++ c1 :: c2 :: after) = true ->
  isspace c1 = true -> isspace c2 = false.
Proof.
  revert b. induction before as [|d r IH]; intros b; cbn [app single_spaced].
  - intros H Hc1. rewrite Hc1 in H. apply andb_true_iff in H as [_ H].
    destruct (isspace c2); [|reflexivity].
    rewrite andb_false_r in H. discriminate.
  - intros H. destruct (isspace d); [|now apply (IH false)].
    apply andb_true_iff in H as [_ H]. now apply (IH true).
Qed.

Lemma hd_lstrip_by (p : char -> bool) (s : pystr) (c : char) :
  hd_error (lstrip_by p s) = Some c -> p c = false.
Proof.
  induction s as [|d r IH]; simpl; [discriminate|].
  destruct (p d) eqn:E; [exact IH|]. simpl. now intros [= <-].
Qed.

Lemma hd_rstrip_by (p : char -> bool) (s : pystr) (c : char) :
  hd_error (rstrip_by p s) = Some c -> hd_error s = Some c.
Proof.
  destruct s as [|d r]; simpl; [discriminate|].
  destruct (rstrip_by p r); [destruct (p d)|]; simpl; (discriminate || auto).
Qed.

Lemma hd_firstn {A} (n : nat) (l : list A) (a : A) :
  hd_error (firstn n l) = Some a -> hd_error l = Some a.
Proof. destruct n, l; simpl; (discriminate || auto). Qed.

Lemma normalized_no_control (text : pystr) :
  forallb (fun c => negb (CONTROL_CHARS_RE c)) (normalized text) = true.
Proof.
  unfold normalized, strip.
  apply forallb_rstrip_by, forallb_lstrip_by, sub_whitespace_no_control,
    sub_control_chars_no_control.
Qed.

Lemma normalized_single_spaced (text : pystr) :
  single_spaced false (normalized text) = true.
Proof.
  unfold normalized, strip.
  apply single_spaced_rstrip, (single_spaced_lstrip false),
    sub_whitespace_single_spaced.
Qed.

Lemma length_sub_whitespace_from (b : bool) (s : pystr) :
  (length (sub_whitespace_from b s) <= length s)%nat.
Proof.
  revert b. induction s as [|c r IH]; intros b; cbn [sub_whitespace_from length];
    [lia|].
  destruct (isspace c); [destruct b|]; cbn [length];
    [pose proof (IH true)|pose proof (IH true)|pose proof (IH false)]; lia.
Qed.

Lemma length_normalized (text : pystr) :
  (length (normalized text) <= length text)%nat.
Proof.
  unfold normalized. etransitivity; [apply length_strip|].
  etransitivity; [apply length_sub_whitespace_from|].
  apply filter_length_le.
Qed.

(** ** What the normalisation leaves of the visible characters *)

Lemma visible_sub_control_chars (s : pystr) :
  visible (sub_control_chars s) = visible s.
Proof.
  unfold visible, sub_control_chars, blank.
  induction s as [|c r IH]; simpl; [reflexivity|].
  destruct (CONTROL_CHARS_RE c) eqn:E; simpl.
  - rewrite orb_true_r. exact IH.
  - rewrite E, IH. reflexivity.
Qed.

Lemma visible_sub_whitespace_from (b : bool) (s : pystr) :
  visible (sub_whitespace_from b s) = visible s.
Proof.
  unfold visible, blank. revert b.
  induction s as [|c r IH]; intros b; cbn [sub_whitespace_from filter];
    [reflexivity|].
  destruct (isspace c) eqn:E; cbn [orb negb].
  - destruct b; [apply IH|]. cbn [filter].
    change (isspace space) with true. cbn [orb negb]. apply IH.
  - cbn [filter]. rewrite E. cbn [orb]. now rewrite IH.
Qed.

Lemma visible_lstrip (s : pystr) : visible (lstrip_by isspace s) = visible s.
Proof.
  unfold visible, blank. induction s as [|c r IH]; cbn [lstrip_by filter];
    [reflexivity|].
  destruct (isspace c) eqn:E; [exact IH|]. cbn [filter]. now rewrite E.
Qed.

Lemma visible_rstrip (s : pystr) : visible (rstrip_by isspace s) = visible s.
Proof.
  unfold visible, blank. induction s as [|c r IH]; cbn [rstrip_by filter];
    [reflexivity|].
  rewrite <- IH. destruct (rstrip_by isspace r) as [|d r'].
  - destruct (isspace c) eqn:E; cbn [filter]; [reflexivity|]. now rewrite E.
  - reflexivity.
Qed.

Lemma visible_normalized (text : pystr) : visible (normalized text) = visible text.
Proof.
  unfold normalized, strip, sub_whitespace.
  now rewrite visible_rstrip, visible_lstrip, visible_sub_whitespace_from,
    visible_sub_control_chars.
Qed.

Lemma visible_nil_iff (s : pystr) : visible s = [] <-> forallb blank s = true.
Proof.
  unfold visible. induction s as [|c r IH]; simpl; [tauto|].
  destruct (blank c); simpl; [exact IH|]. split; discriminate.
Qed.

Lemma lstrip_by_all (p : char -> bool) (s : pystr) :
  forallb p s = true -> lstrip_by p s = [].
Proof.
  induction s as [|c r IH]; simpl; [reflexivity|].
  intros H. apply andb_true_iff in H as [-> H]. auto.
Qed.

Lemma normalized_nil_iff (text : pystr) :
  normalized text = [] <-> forallb blank text = true.
Proof.
  rewrite <- visible_nil_iff. split.
  - intros H. rewrite <- visible_normalized, H. reflexivity.
  - intros H. rewrite <- visible_normalized in H.
    apply visible_nil_iff in H.
    assert (Hsp : forallb isspace (normalized text) = true).
    { pose proof (normalized_no_control text) as Hctl.
      rewrite forallb_forall in *. intros c Hc.
      specialize (H c Hc). specialize (Hctl c Hc). unfold blank in H.
      destruct (CONTROL_CHARS_RE c); [discriminate|].
      now rewrite orb_false_r in H. }
    rewrite <- normalized_fixed. unfold normalized at 1.
    rewrite sub_control_chars_fixed by apply normalized_no_control.
    unfold sub_whitespace.
    rewrite single_spaced_fixed by apply normalized_single_spaced.
    unfold strip. now rewrite lstrip_by_all.
Qed.

Lemma clean_content_idempotent_below_limit (text : pystr) :
  len text <= max_len ->
  clean_content (Some (clean_content (Some text))) = clean_content (Some text).
Proof.
  intros H. apply clean_content_idempotent_without_truncation.
  pose proof (length_normalized text). unfold len in *. lia.
Qed.

Lemma clean_content_within_limit (text : option pystr) :
  len (clean_content text) <= max_len.
Proof.
  destruct text as [text|]; [|discriminate].
  rewrite clean_content_firstn. unfold len. rewrite length_firstn.
  assert (0 <= max_len) by discriminate. lia.
Qed.

(** X1.  Whatever it is given, [clean_content] returns at most 10,000
    characters. *)
Theorem clean_content_length_bound :
  forall text : option pystr, len (clean_content text) <= 10000.
Proof.
  intros [text|]; [|discriminate].
  rewrite clean_content_firstn. unfold len. rewrite length_firstn.
  change 10000 with max_len. assert (0 <= max_len) by discriminate. lia.
Qed.

(** X2.  The text [clean_content] returns holds none of the control
    characters it removes; its only whitespace characters are spaces, no
    two of them follow each other, and it does not start with one. *)
Theorem clean_content_output_is_normalised :
  forall text : option pystr,
    (forall c, In c (clean_content text) -> CONTROL_CHARS_RE c = false) /\
    (forall c, In c (clean_content text) -> isspace c = true -> c = space) /\
    (forall before c1 c2 after,
        clean_content text = before ++ c1 :: c2 :: after ->
        c1 = space -> c2 <> space) /\
    (forall c, hd_error (clean_content text) = Some c -> c <> space).
Proof.
  intros [text|].
  2:{ cbn. repeat split; try contradiction; try discriminate.
      intros [|? [|? ?]]; discriminate. }
  rewrite clean_content_firstn.
  pose proof (forallb_firstn _ (Z.to_nat max_len) _ (normalized_no_control text))
    as Hctl.
  pose proof (single_spaced_firstn false (Z.to_nat max_len) _
                (normalized_single_spaced text)) as Hsp.
  split; [|split; [|split]].
  - intros c Hc. rewrite forallb_forall in Hctl. specialize (Hctl c Hc).
    now destruct (CONTROL_CHARS_RE c).
  - intros c. now apply single_spaced_in with (b := false).
  - intros before c1 c2 after E -> ->. rewrite E in Hsp.
    now apply single_spaced_adjacent in Hsp.
  - intros c Hc ->. apply hd_firstn in Hc. unfold normalized, strip in Hc.
    apply hd_rstrip_by, hd_lstrip_by in Hc. discriminate.
Qed.

(** X3.  [clean_content] returns the empty string exactly on the texts
    made of nothing but whitespace and control characters (the empty
    text among them). *)
Theorem clean_content_is_empty_on_blank_text_only :
  forall text : pystr,
    clean_content (Some text) = [] <-> forallb blank text = true.
Proof.
  intros text. rewrite <- normalized_nil_iff, clean_content_firstn.
  split; [|now intros ->].
  destruct (normalized text) as [|c r]; [reflexivity|].
  change (Z.to_nat max_len) with (S (Z.to_nat (max_len - 1))). discriminate.
Qed.

(** X4.  On a text of at most 10,000 characters [clean_content] is
    idempotent. *)
Theorem clean_content_idempotent_on_short_text :
  forall text : pystr,
    len text <= 10000 ->
    clean_content (Some (clean_content (Some text))) = clean_content (Some text).
Proof.
  intros text H. apply clean_content_idempotent_without_truncation.
  pose proof (length_normalized text). unfold len in *.
  change 10000 with max_len in H. lia.
Qed.

(** X5.  A second pass of [clean_content] always reaches a fixed point:
    a third pass changes nothing, whatever the text. *)
Theorem clean_content_settles_after_two_passes :
  forall text : pystr,
    clean_content (Some (clean_content (Some (clean_content (Some text)))))
    = clean_content (Some (clean_content (Some text))).
Proof.
  intros text. apply clean_content_idempotent_below_limit.
  apply clean_content_within_limit.
Qed.

(** X6.  [clean_content] neither alters nor reorders what is not
    whitespace or a control character: the visible characters of its
    result are the visible characters of the text, up to where the result
    is cut, and all of them when the text has at most 10,000 characters. *)
Theorem clean_content_keeps_visible_characters :
  forall text : pystr,
  exists cut : pystr,
    visible text = visible (clean_content (Some text)) ++ cut /\
    (len text <= 10000 -> cut = []).
Proof.
  intros text. rewrite clean_content_firstn.
  exists (visible (skipn (Z.to_nat max_len) (normalized text))). split.
  - unfold visible at 2 3. rewrite <- filter_app, firstn_skipn.
    symmetry. apply visible_normalized.
  - intros H. rewrite skipn_all2; [reflexivity|].
    pose proof (length_normalized text). unfold len in H.
    change 10000 with max_len in H. assert (0 <= max_len) by discriminate. lia.
Qed.

End CleanedText.

Section CleanedTextWitnesses.

Lemma clean_content_idempotent_on_short_text_witness :
  len untidy_text <= 10000 /\
  clean_content (Some (clean_content (Some untidy_text)))
  = clean_content (Some untidy_text).
Proof.
  split; [discriminate|].
  apply (clean_content_idempotent_on_short_text untidy_text). discriminate.
Defined.

End CleanedTextWitnesses.

(** ** Numbers read by [safe_int] *)

Section Numbers.

Lemma lstrip_by_snoc (p : char -> bool) (s : pystr) (last : char) :
  p last = false -> lstrip_by p (s ++ [last]) = lstrip_by p s ++ [last].
Proof.
  intros H. induction s as [|c r IH]; simpl; [now rewrite H|].
  destruct (p c); [exact IH|reflexivity].
Qed.

Lemma rstrip_by_snoc (p : char -> bool) (s : pystr) (last : char) :
  p last = false -> rstrip_by p (s ++ [last]) = s ++ [last].
Proof.
  intros H. induction s as [|c r IH]; simpl; [now rewrite H|].
  rewrite IH. destruct (r ++ [last]) eqn:E; [now destruct r|reflexivity].
Qed.

Lemma strip_snoc (s : pystr) (last : char) :
  isspace last = false -> strip (s ++ [last]) = lstrip_by isspace s ++ [last].
Proof.
  intros H. unfold strip. now rewrite lstrip_by_snoc, rstrip_by_snoc.
Qed.

Lemma endswith_snoc (x : pystr) (l c : char) :
  endswith (x ++ [l]) [c] = (c =? l)%N.
Proof. unfold endswith. rewrite rev_app_distr. simpl. apply andb_true_r. Qed.

Lemma slice_init (x : pystr) (l : char) : slice (x ++ [l]) 0 (-1) = x.
Proof.
  unfold slice, slice_index, len. rewrite length_app. cbn [length].
  replace (0 <? 0) with false by reflexivity.
  replace (-1 <? 0) with true by reflexivity.
  replace (Z.to_nat (Z.min 0 (Z.of_nat (length x + 1)))) with 0%nat by lia.
  replace (Z.to_nat (Z.max 0 (-1 + Z.of_nat (length x + 1)))) with (length x)
    by lia.
  cbn [skipn]. rewrite firstn_app, firstn_all, Nat.sub_diag. cbn [firstn].
  apply app_nil_r.
Qed.

Lemma space_is_no_digit (c : char) : isspace c = true -> is_digit c = false.
Proof.
  unfold isspace, is_digit. intros H.
  rewrite !orb_true_iff, !andb_true_iff, !N.leb_le, !N.eqb_eq in H.
  apply andb_false_iff. rewrite !N.leb_gt. lia.
Qed.

Lemma digits_of_lstrip (s : pystr) :
  digits_of (lstrip_by isspace s) = digits_of s.
Proof.
  unfold digits_of. induction s as [|c r IH]; cbn [lstrip_by filter]; [reflexivity|].
  destruct (isspace c) eqn:E; [|reflexivity].
  now rewrite (space_is_no_digit c E).
Qed.

Lemma digits_of_keep (s : pystr) :
  ~ In dot s -> keep_digits_and_dots s = digits_of s.
Proof.
  unfold keep_digits_and_dots, digits_of.
  induction s as [|c r IH]; cbn [filter In]; [reflexivity|].
  intros H. replace (c =? dot)%N with false
    by (symmetry; apply N.eqb_neq; intros ->; apply H; now left).
  rewrite orb_false_r, IH by tauto. reflexivity.
Qed.

Lemma digits_of_digits (s : pystr) : forallb is_digit s = true -> digits_of s = s.
Proof.
  unfold digits_of. induction s as [|c r IH]; cbn [filter forallb]; [reflexivity|].
  intros H. apply andb_true_iff in H as [-> H]. now rewrite IH.
Qed.

Lemma digits_have_no_dot (s : pystr) :
  existsb (N.eqb dot) (digits_of s) = false.
Proof.
  unfold digits_of. induction s as [|c r IH]; cbn [filter]; [reflexivity|].
  destruct (is_digit c) eqn:E; [|exact IH]. cbn [existsb]. rewrite IH.
  rewrite orb_false_r. apply N.eqb_neq. intros <-. discriminate.
Qed.

Lemma keep_lower_ascii (rt : Runtime) (s : pystr) :
  conforming rt -> forallb is_ascii s = true ->
  keep_digits_and_dots (map ascii_lower_char s) = keep_digits_and_dots s.
Proof.
  intros Hrt Hs. rewrite <- (lower_ascii Hrt) by exact Hs.
  apply (lower_digits Hrt).
Qed.

Lemma suffix_multiplier_lower (last : char) :
  suffix_multiplier last
  = if (107 =? ascii_lower_char last)%N then 1000
    else if (109 =? ascii_lower_char last)%N then 1000000
    else 1.
Proof.
  unfold suffix_multiplier, ascii_lower_char.
  destruct ((65 <=? last) && (last <=? 90))%N eqn:U.
  - apply andb_true_iff in U as [U1 U2]. apply N.leb_le in U1, U2.
    replace (last =? 107)%N with false by (symmetry; apply N.eqb_neq; lia).
    replace (last =? 109)%N with false by (symmetry; apply N.eqb_neq; lia).
    cbn [orb].
    destruct (last =? 75)%N eqn:K.
    + apply N.eqb_eq in K. subst last. reflexivity.
    + apply N.eqb_neq in K.
      replace (107 =? last + 32)%N with false by (symmetry; apply N.eqb_neq; lia).
      destruct (last =? 77)%N eqn:M.
      * apply N.eqb_eq in M. subst last. reflexivity.
      * apply N.eqb_neq in M.
        now replace (109 =? last + 32)%N with false
          by (symmetry; apply N.eqb_neq; lia).
  - apply andb_false_iff in U. rewrite !N.leb_gt in U.
    replace (last =? 75)%N with false by (symmetry; apply N.eqb_neq; lia).
    replace (last =? 77)%N with false by (symmetry; apply N.eqb_neq; lia).
    rewrite !orb_false_r, (N.eqb_sym 107), (N.eqb_sym 109). reflexivity.
Qed.

Lemma suffix_letter_is_no_digit (last : char) :
  suffix_multiplier last <> 1 -> is_digit last = false.
Proof.
  unfold suffix_multiplier, is_digit. intros H.
  apply andb_false_iff. rewrite !N.leb_gt.
  destruct (last =? 107)%N eqn:E1; [apply N.eqb_eq in E1; lia|].
  destruct (last =? 75)%N eqn:E2; [apply N.eqb_eq in E2; lia|].
  destruct (last =? 109)%N eqn:E3; [apply N.eqb_eq in E3; lia|].
  destruct (last =? 77)%N eqn:E4; [apply N.eqb_eq in E4; lia|].
  now cbn in H.
Qed.

Lemma digits_of_snoc_suffix (body : pystr) (last : char) :
  suffix_multiplier last <> 1 -> digits_of (body ++ [last]) = digits_of body.
Proof.
  intros H. unfold digits_of. rewrite filter_app. cbn [filter].
  rewrite (suffix_letter_is_no_digit last H). apply app_nil_r.
Qed.

(** On ASCII text that holds no dot and ends on a character that is not
    whitespace, [safe_int] takes the integer branch on the digits of the
    text. *)
Lemma safe_int_without_dot (rt : Runtime) (body : pystr) (last : char) :
  conforming rt ->
  forallb is_ascii (body ++ [last]) = true ->
  ~ In dot (body ++ [last]) ->
  isspace last = false ->
  safe_int (VStr (body ++ [last]))
  = match digits_of (body ++ [last]) with
    | [] => OK 0
    | d :: ds =>
        except_ValueError
          (bind (int_of_digits int_max_str_digits (d :: ds))
             (fun num => OK (num * suffix_multiplier last))) 0
    end.
Proof.
  intros Hrt Hascii Hdot Hsp.
  assert (Hb : forallb is_ascii (lstrip_by isspace body) = true).
  { apply forallb_lstrip_by. rewrite forallb_app in Hascii.
    now apply andb_true_iff in Hascii. }
  assert (Hl : is_ascii last = true).
  { rewrite forallb_app in Hascii. apply andb_true_iff in Hascii as [_ H].
    cbn in H. now rewrite andb_true_r in H. }
  assert (Hbdot : ~ In dot (lstrip_by isspace body)).
  { intros Hin. apply Hdot. apply in_or_app. left.
    clear - Hin. induction body as [|c r IH]; [exact Hin|].
    cbn [lstrip_by] in Hin. destruct (isspace c); [right; auto|exact Hin]. }
  assert (Hldot : ~ In dot (lstrip_by isspace body ++ [last])).
  { intros Hin. apply in_app_or in Hin as [Hin|Hin]; [now apply Hbdot|].
    apply Hdot. apply in_or_app. now right. }
  assert (Hgen : forall cleaned multiplier,
             cleaned = digits_of (body ++ [last]) ->
             multiplier = suffix_multiplier last ->
             match cleaned with
             | [] => OK 0
             | _ :: _ => except_ValueError (parse_number cleaned multiplier) 0
             end
             = match digits_of (body ++ [last]) with
               | [] => OK 0
               | d :: ds =>
                   except_ValueError
                     (bind (int_of_digits int_max_str_digits (d :: ds))
                        (fun num => OK (num * suffix_multiplier last))) 0
               end).
  { intros cleaned multiplier -> ->.
    pose proof (digits_have_no_dot (body ++ [last])) as Hnd.
    destruct (digits_of (body ++ [last])) as [|d ds]; [reflexivity|].
    unfold parse_number. now rewrite Hnd. }
  unfold safe_int. rewrite strip_snoc by exact Hsp.
  rewrite (lower_ascii Hrt)
    by (rewrite forallb_app, Hb; cbn; now rewrite Hl).
  rewrite map_app. cbn [map].
  destruct (map ascii_lower_char (lstrip_by isspace body)
            ++ [ascii_lower_char last]) as [|c s] eqn:E;
    [now destruct (map ascii_lower_char (lstrip_by isspace body))|].
  rewrite <- E. clear E c s.
  change (lit "k") with [107%N]. change (lit "m") with [109%N].
  rewrite !endswith_snoc, slice_init.
  pose proof (suffix_multiplier_lower last) as Hm.
  destruct (107 =? ascii_lower_char last)%N.
  - cbv beta iota zeta. apply Hgen; [|now rewrite Hm].
    rewrite (keep_lower_ascii rt) by assumption.
    rewrite digits_of_keep by exact Hbdot.
    rewrite digits_of_lstrip, digits_of_snoc_suffix; [reflexivity|].
    rewrite Hm. discriminate.
  - destruct (109 =? ascii_lower_char last)%N.
    + cbv beta iota zeta. apply Hgen; [|now rewrite Hm].
      rewrite (keep_lower_ascii rt) by assumption.
      rewrite digits_of_keep by exact Hbdot.
      rewrite digits_of_lstrip, digits_of_snoc_suffix; [reflexivity|].
      rewrite Hm. discriminate.
    + cbv beta iota zeta. apply Hgen; [|now rewrite Hm].
      replace (map ascii_lower_char (lstrip_by isspace body) ++ [ascii_lower_char last])
        with (map ascii_lower_char (lstrip_by isspace body ++ [last]))
        by (now rewrite map_app).
      rewrite (keep_lower_ascii rt);
        [|exact Hrt|rewrite forallb_app, Hb; cbn; now rewrite Hl].
      rewrite digits_of_keep by exact Hldot.
      unfold digits_of. rewrite !filter_app. f_equal.
      apply digits_of_lstrip.
Qed.

(** X7.  In an ASCII text without a dot, [safe_int] reads the digits and
    nothing else: signs, separators and letters are passed over, the value
    is the exact integer the digits write, times a thousand or a million
    when the text ends on the letter K or M. *)
Theorem safe_int_reads_the_digits_only :
  forall (rt : Runtime) (body : pystr) (last : char),
    conforming rt ->
    forallb is_ascii (body ++ [last]) = true ->
    ~ In dot (body ++ [last]) ->
    isspace last = false ->
    (length body < 640)%nat ->
    safe_int (VStr (body ++ [last]))
    = OK (decimal_value 0 (digits_of (body ++ [last])) * suffix_multiplier last).
Proof.
  intros rt body last Hrt Hascii Hdot Hsp Hlen.
  rewrite (safe_int_without_dot rt body last Hrt Hascii Hdot Hsp).
  assert (Hd : (length (digits_of (body ++ [last])) <= 640)%nat).
  { unfold digits_of. etransitivity; [apply filter_length_le|].
    rewrite length_app. cbn. lia. }
  destruct (digits_of (body ++ [last])) as [|d ds]; [reflexivity|].
  rewrite int_of_digits_below_threshold;
    [reflexivity|apply (digits_threshold Hrt)|exact Hd].
Qed.

(** X8.  On a text of at most 300 characters [safe_int] raises nothing:
    it returns an integer, and that integer is not negative. *)
Theorem safe_int_returns_on_short_text :
  forall (rt : Runtime) (text : pystr),
    conforming rt ->
    (length text <= 300)%nat ->
    exists n : Z, safe_int (VStr text) = OK n /\ 0 <= n.
Proof.
  intros rt text Hrt Hlen.
  destruct (safe_int_total rt text Hrt Hlen) as [n Hn].
  exists n. split; [exact Hn|]. now apply safe_int_str_not_negative in Hn.
Qed.

(** X9.  A string of digits longer than the interpreter's limit on
    integer strings is not a number to [safe_int]: [int] refuses it with
    a [ValueError] and the result is 0. *)
Theorem safe_int_is_zero_beyond_the_digit_limit :
  forall (rt : Runtime) (digits : pystr),
    conforming rt ->
    forallb is_digit digits = true ->
    int_max_str_digits <> 0%nat ->
    (int_max_str_digits < length digits)%nat ->
    safe_int (VStr digits) = OK 0.
Proof.
  intros rt digits Hrt Hd Hlimit Hlen.
  destruct (exists_last (l := digits)) as (body & last & ->);
    [intros ->; cbn in Hlen; lia|].
  assert (Hlast : is_digit last = true).
  { rewrite forallb_app in Hd. apply andb_true_iff in Hd as [_ H].
    cbn in H. now rewrite andb_true_r in H. }
  rewrite (safe_int_without_dot rt body last Hrt).
  - rewrite digits_of_digits by exact Hd.
    destruct (body ++ [last]) as [|d ds] eqn:E; [reflexivity|].
    unfold int_of_digits.
    replace (negb (int_max_str_digits =? 0)%nat) with true
      by (symmetry; apply negb_true_iff, Nat.eqb_neq; exact Hlimit).
    replace (int_max_str_digits <? length (d :: ds))%nat with true
      by (symmetry; apply Nat.ltb_lt; exact Hlen).
    reflexivity.
  - rewrite forallb_forall in *. intros c Hc. specialize (Hd c Hc).
    unfold is_digit in Hd. apply andb_true_iff in Hd as [_ H].
    apply N.leb_le in H. apply N.ltb_lt. lia.
  - intros Hin. rewrite forallb_forall in Hd. now specialize (Hd dot Hin).
  - destruct (isspace last) eqn:E; [|reflexivity].
    apply space_is_no_digit in E. congruence.
Qed.

End Numbers.

Section NumbersWitnesses.

Lemma safe_int_reads_the_digits_only_witness :
  @safe_int ascii_runtime (VStr (price_tag_body ++ [75%N])) = OK (345 * 1000).
Proof.
  apply (safe_int_reads_the_digits_only ascii_runtime price_tag_body 75%N).
  - exact ascii_runtime_conforming.
  - reflexivity.
  - vm_compute. intuition discriminate.
  - reflexivity.
  - vm_compute. lia.
Defined.

Lemma safe_int_returns_on_short_text_witness :
  exists n : Z, @safe_int ascii_runtime (VStr (lit "1.2k")) = OK n /\ 0 <= n.
Proof.
  apply (safe_int_returns_on_short_text ascii_runtime (lit "1.2k")).
  - exact ascii_runtime_conforming.
  - vm_compute. lia.
Defined.

Lemma safe_int_is_zero_beyond_the_digit_limit_witness :
  @safe_int ascii_runtime (VStr endless_number) = OK 0.
Proof.
  apply (safe_int_is_zero_beyond_the_digit_limit ascii_runtime endless_number).
  - exact ascii_runtime_conforming.
  - vm_compute. reflexivity.
  - discriminate.
  - apply Nat.ltb_lt. vm_compute. reflexivity.
Defined.

End NumbersWitnesses.

(** ** The proxy manager *)

Section Proxies.

Lemma get_next_proxy_at (l : list ProxyType) (c : nat) (proxy : ProxyType) :
  nth_error l c = Some proxy ->
  get_next_proxy {| _proxies := l; _cycle := Some c |}
  = (Some (as_requests_proxies proxy),
     {| _proxies := l; _cycle := Some (S c mod length l)%nat |}).
Proof.
  intros H. unfold get_next_proxy. cbn [_cycle _proxies]. rewrite H.
  now destruct proxy.
Qed.

(** From any position of the cycle, the answers follow the list and
    wrap around at its end. *)
Lemma successive_proxies_from (l : list ProxyType) (d : ProxyType) (k c : nat) :
  (c < length l)%nat ->
  successive_proxies k {| _proxies := l; _cycle := Some c |}
  = (map (fun i => Some (as_requests_proxies (nth ((c + i) mod length l) l d)))
       (seq 0 k),
     {| _proxies := l; _cycle := Some ((c + k) mod length l)%nat |}).
Proof.
  revert c. induction k as [|k IH]; intros c Hc.
  - cbn. now rewrite Nat.add_0_r, Nat.mod_small.
  - cbn [successive_proxies].
    rewrite (get_next_proxy_at l c (nth c l d)) by now apply nth_error_nth'.
    rewrite IH by (apply Nat.mod_upper_bound; lia).
    rewrite Nat.Div0.add_mod_idemp_l. cbn [seq map].
    rewrite Nat.add_0_r, (Nat.mod_small c) by exact Hc.
    replace (c + S k)%nat with (S c + k)%nat by lia.
    f_equal. f_equal. rewrite <- seq_shift, map_map. apply map_ext. intros i.
    rewrite Nat.Div0.add_mod_idemp_l.
    now replace (c + S i)%nat with (S c + i)%nat by lia.
Qed.

(** X10.  The manager hands its proxies out in turn: the call number [i]
    (from 0) answers with the proxy at position [i mod n] of the list of
    [n] proxies it was built with, a URL being turned into a dictionary
    for both schemes; after [n] calls the manager is as it was built. *)
Theorem proxies_are_handed_out_in_turn :
  forall (first : ProxyType) (others : list ProxyType) (k : nat),
    fst (successive_proxies k (ProxyManagerPy.__init__ (first :: others)))
    = map (fun i =>
             Some (as_requests_proxies
                     (nth (i mod length (first :: others)) (first :: others) first)))
        (seq 0 k) /\
    snd (successive_proxies (length (first :: others))
           (ProxyManagerPy.__init__ (first :: others)))
    = ProxyManagerPy.__init__ (first :: others).
Proof.
  intros first others k. unfold ProxyManagerPy.__init__.
  rewrite !(successive_proxies_from (first :: others) first) by (cbn; lia).
  cbn [fst snd]. split; [reflexivity|].
  now rewrite Nat.add_0_l, Nat.Div0.mod_same.
Qed.

Lemma successive_proxies_without_proxies (k : nat) :
  successive_proxies k (ProxyManagerPy.__init__ [])
  = (repeat None k, ProxyManagerPy.__init__ []).
Proof.
  induction k as [|k IH]; [reflexivity|].
  cbn [successive_proxies repeat].
  change (get_next_proxy (ProxyManagerPy.__init__ []))
    with (@None dict, ProxyManagerPy.__init__ []).
  cbv beta iota. now rewrite IH.
Qed.

Lemma strip_all_space (s : pystr) : forallb isspace s = true -> strip s = [].
Proof. intros H. unfold strip. now rewrite lstrip_by_all. Qed.

Lemma split_on_pieces (p : char -> bool) (sep : char) (s : pystr) :
  forallb p s = true -> Forall (fun piece => forallb p piece = true) (split_on sep s).
Proof.
  induction s as [|c r IH]; cbn [split_on forallb].
  - intros _. now constructor.
  - intros H. apply andb_true_iff in H as [Hc Hr]. specialize (IH Hr).
    destruct (c =? sep)%N; [now constructor|].
    destruct (split_on sep r) as [|piece pieces].
    + constructor; [cbn; now rewrite Hc|constructor].
    + inversion IH as [|? ? Hpiece Hpieces]; subst.
      constructor; [cbn; now rewrite Hc, Hpiece|exact Hpieces].
Qed.

Lemma split_on_no_separator (sep : char) (s : pystr) :
  Forall (fun piece => ~ In sep piece) (split_on sep s).
Proof.
  induction s as [|c r IH]; cbn [split_on].
  - constructor; [intros []|constructor].
  - destruct (c =? sep)%N eqn:E.
    + constructor; [intros []|exact IH].
    + apply N.eqb_neq in E. destruct (split_on sep r) as [|piece pieces].
      * constructor; [|constructor]. intros [H|[]]. congruence.
      * inversion IH as [|? ? Hpiece Hpieces]; subst.
        constructor; [|exact Hpieces]. intros [H|H]; [congruence|auto].
Qed.

Lemma in_lstrip_by (p : char -> bool) (s : pystr) (c : char) :
  In c (lstrip_by p s) -> In c s.
Proof.
  induction s as [|d r IH]; cbn [lstrip_by]; [auto|].
  destruct (p d); [right; auto|auto].
Qed.

Lemma in_rstrip_by (p : char -> bool) (s : pystr) (c : char) :
  In c (rstrip_by p s) -> In c s.
Proof.
  induction s as [|d r IH]; cbn [rstrip_by]; [auto|].
  destruct (rstrip_by p r) as [|e r'].
  - destruct (p d); [intros []|]. intros [->|[]]. now left.
  - intros [->|H]; [now left|right; auto].
Qed.

Lemma in_strip (s : pystr) (c : char) : In c (strip s) -> In c s.
Proof.
  unfold strip. intros H.
  apply (in_lstrip_by isspace), (in_rstrip_by isspace). exact H.
Qed.

(** The proxies one piece of the variable gives. *)
Lemma load_piece_cases (piece : pystr) :
  match strip piece with
  | [] => []
  | c :: token => [ProxyDict [(lit "http", c :: token); (lit "https", c :: token)]]
  end
  = match strip piece with
    | [] => []
    | _ => [proxy_of_token (strip piece)]
    end.
Proof. now destruct (strip piece). Qed.

(** X11.  When the environment names no proxy (the variable is not set,
    or holds nothing but whitespace and commas), a manager built without
    a list has no proxy: every call of [get_next_proxy] answers [None]
    and leaves the manager as it is. *)
Theorem blank_environment_means_direct_connection :
  forall (environ : option pystr) (k : nat),
    (forall v, environ = Some v ->
               forallb (fun c => isspace c || (c =? comma)%N) v = true) ->
    _load_from_env environ = [] /\
    successive_proxies k (new environ None)
    = (repeat None k, new environ None).
Proof.
  intros environ k Hblank.
  assert (E : _load_from_env environ = []).
  { unfold _load_from_env. destruct environ as [v|]; [|reflexivity].
    specialize (Hblank v eq_refl).
    destruct (strip v) as [|c s] eqn:Es; [reflexivity|]. rewrite <- Es.
    assert (Hs : forallb (fun c => isspace c || (c =? comma)%N) (strip v) = true)
      by (unfold strip; now apply forallb_rstrip_by, forallb_lstrip_by).
    pose proof (split_on_pieces _ comma _ Hs) as Hp.
    pose proof (split_on_no_separator comma (strip v)) as Hn.
    induction (split_on comma (strip v)) as [|piece pieces IH]; [reflexivity|].
    inversion Hp as [|? ? Hpiece Hpieces]; subst.
    inversion Hn as [|? ? Hnpiece Hnpieces]; subst.
    cbn [flat_map]. rewrite IH by assumption.
    rewrite strip_all_space; [reflexivity|].
    rewrite forallb_forall in *. intros d Hd. specialize (Hpiece d Hd).
    destruct (d =? comma)%N eqn:Ed;
      [apply N.eqb_eq in Ed; subst d; contradiction|].
    now rewrite orb_false_r in Hpiece. }
  split; [exact E|]. unfold new. rewrite E.
  apply successive_proxies_without_proxies.
Qed.

Lemma split_on_token (sep : char) (token : pystr) :
  ~ In sep token -> split_on sep token = [token].
Proof.
  induction token as [|c r IH]; cbn [split_on In]; [reflexivity|].
  intros H. replace (c =? sep)%N with false
    by (symmetry; apply N.eqb_neq; intros ->; apply H; now left).
  rewrite IH by tauto. reflexivity.
Qed.

Lemma split_on_token_then (sep : char) (token rest : pystr) :
  ~ In sep token ->
  split_on sep (token ++ sep :: rest) = token :: split_on sep rest.
Proof.
  induction token as [|c r IH]; cbn [split_on In app].
  - intros _. now rewrite N.eqb_refl.
  - intros H. replace (c =? sep)%N with false
      by (symmetry; apply N.eqb_neq; intros ->; apply H; now left).
    rewrite IH by tauto. reflexivity.
Qed.

Lemma split_on_join (sep : char) (token : pystr) (tokens : list pystr) :
  Forall (fun t => ~ In sep t) (token :: tokens) ->
  split_on sep (join [sep] (token :: tokens)) = token :: tokens.
Proof.
  revert token. induction tokens as [|t ts IH]; intros token H;
    inversion H as [|? ? Htoken Hrest]; subst.
  - cbn [join]. now apply split_on_token.
  - change (join [sep] (token :: t :: ts))
      with (token ++ sep :: join [sep] (t :: ts)).
    rewrite split_on_token_then by exact Htoken. f_equal. now apply IH.
Qed.

Lemma length_lstrip_by_fixed (p : char -> bool) (s : pystr) :
  length (lstrip_by p s) = length s -> lstrip_by p s = s.
Proof.
  destruct s as [|c r]; cbn [lstrip_by]; [reflexivity|].
  destruct (p c); [|reflexivity].
  intros H. pose proof (length_lstrip_by p r). cbn [length] in H. lia.
Qed.

Lemma strip_fixed (s : pystr) :
  strip s = s -> lstrip_by isspace s = s /\ rstrip_by isspace s = s.
Proof.
  unfold strip. intros H.
  assert (E : lstrip_by isspace s = s).
  { apply length_lstrip_by_fixed.
    pose proof (length_rstrip_by isspace (lstrip_by isspace s)).
    pose proof (length_lstrip_by isspace s). rewrite H in *. lia. }
  split; [exact E|]. now rewrite E in H.
Qed.

Lemma lstrip_by_app_fixed (p : char -> bool) (a b : pystr) :
  a <> [] -> lstrip_by p a = a -> lstrip_by p (a ++ b) = a ++ b.
Proof.
  destruct a as [|c r]; [contradiction|]. intros _. cbn [lstrip_by app].
  destruct (p c); [|reflexivity].
  intros H. pose proof (length_lstrip_by p r) as Hlen. rewrite H in Hlen.
  cbn [length] in Hlen. lia.
Qed.

Lemma rstrip_by_app_fixed (p : char -> bool) (a b : pystr) :
  b <> [] -> rstrip_by p b = b -> rstrip_by p (a ++ b) = a ++ b.
Proof.
  intros Hb H. induction a as [|c r IH]; cbn [app rstrip_by]; [exact H|].
  rewrite IH. destruct (r ++ b) eqn:E; [|reflexivity].
  apply app_eq_nil in E as [_ E]. contradiction.
Qed.

Lemma join_snoc (sep : pystr) (tokens : list pystr) (l : pystr) :
  tokens <> [] -> join sep (tokens ++ [l]) = join sep tokens ++ sep ++ l.
Proof.
  induction tokens as [|t ts IH]; [contradiction|]. intros _.
  destruct ts as [|t' ts']; [reflexivity|].
  change (join sep ((t :: t' :: ts') ++ [l]))
    with (t ++ sep ++ join sep ((t' :: ts') ++ [l])).
  rewrite IH by discriminate.
  change (join sep (t :: t' :: ts')) with (t ++ sep ++ join sep (t' :: ts')).
  now rewrite <- !app_assoc.
Qed.

Lemma join_ends_with_last (sep : pystr) (tokens : list pystr) (l : pystr) :
  exists before, join sep (tokens ++ [l]) = before ++ l.
Proof.
  destruct tokens as [|t ts]; [now exists []|].
  exists (join sep (t :: ts) ++ sep).
  rewrite join_snoc by discriminate. now rewrite <- app_assoc.
Qed.

(** X12.  Reading the variable gives back the tokens it lists: for
    tokens that are not empty, carry no whitespace at their ends and no
    comma, the proxies loaded from their comma-separated list are, in
    order, one entry per token, the token standing for both schemes. *)
Theorem load_from_env_reads_back_the_tokens :
  forall tokens : list pystr,
    Forall is_token tokens ->
    _load_from_env (Some (join [comma] tokens)) = map proxy_of_token tokens.
Proof.
  intros [|token tokens] H; [reflexivity|].
  assert (Hstrip : strip (join [comma] (token :: tokens))
                   = join [comma] (token :: tokens)).
  { destruct (@exists_last _ (token :: tokens) ltac:(discriminate))
      as (init & l & Einit).
    destruct (join_ends_with_last [comma] init l) as [before E].
    rewrite <- Einit in E.
    assert (Hlast : is_token l).
    { rewrite Forall_forall in H. apply H. rewrite Einit.
      apply in_or_app. right. now left. }
    inversion H as [|? ? (Hne & Hfix & _) _]; subst.
    destruct Hlast as (Hlne & Hlfix & _).
    apply strip_fixed in Hfix as [Hl _]. apply strip_fixed in Hlfix as [_ Hr].
    unfold strip.
    assert (El : lstrip_by isspace (join [comma] (token :: tokens))
                 = join [comma] (token :: tokens)).
    { destruct tokens as [|t ts]; [exact Hl|].
      change (join [comma] (token :: t :: ts))
        with (token ++ [comma] ++ join [comma] (t :: ts)).
      now apply lstrip_by_app_fixed. }
    rewrite El, E. now apply rstrip_by_app_fixed. }
  unfold _load_from_env. rewrite Hstrip.
  destruct (join [comma] (token :: tokens)) as [|c s] eqn:E.
  { inversion H as [|? ? (Hne & _) _]; subst.
    destruct tokens; cbn [join] in E; [contradiction|].
    apply app_eq_nil in E as [E _]. contradiction. }
  rewrite <- E, split_on_join
    by (eapply Forall_impl; [|exact H]; now intros t (_ & _ & Ht)).
  clear E Hstrip c s.
  induction H as [|t ts (Hne & Hfix & _) _ IH]; [reflexivity|].
  cbn [flat_map map]. rewrite IH, Hfix.
  destruct t; [contradiction|reflexivity].
Qed.

(** X13.  Whatever the variable holds, every proxy loaded from it is an
    entry made of one token for both schemes, and that token is not
    empty, has no whitespace at its ends and holds no comma. *)
Theorem loaded_proxies_are_made_of_tokens :
  forall environ : option pystr,
    Forall (fun proxy => exists token, proxy = proxy_of_token token /\ is_token token)
      (_load_from_env environ).
Proof.
  intros environ. unfold _load_from_env.
  destruct (strip _) as [|c s] eqn:E; [constructor|]. rewrite <- E. clear E.
  pose proof (split_on_no_separator comma
                (strip match environ with Some v => v | None => [] end)) as Hn.
  induction Hn as [|piece pieces Hpiece _ IH]; [constructor|].
  cbn [flat_map]. apply Forall_app. split; [|exact IH].
  destruct (strip piece) as [|d token] eqn:Ep; constructor; [|constructor].
  exists (d :: token). split; [reflexivity|]. rewrite <- Ep.
  split; [rewrite Ep; discriminate|].
  split; [apply strip_idempotent|].
  intros Hin. now apply in_strip in Hin.
Qed.

End Proxies.

Section ProxiesWitnesses.

Lemma blank_environment_means_direct_connection_witness :
  _load_from_env blank_environment = [] /\
  successive_proxies 3 (new blank_environment None)
  = (repeat None 3, new blank_environment None).
Proof.
  apply (blank_environment_means_direct_connection blank_environment 3).
  intros v [= <-]. reflexivity.
Defined.

Lemma load_from_env_reads_back_the_tokens_witness :
  _load_from_env (Some (lit "http://proxy-1:8080,http://user:pw@proxy-2:3128"))
  = map proxy_of_token two_proxy_urls.
Proof.
  apply (load_from_env_reads_back_the_tokens two_proxy_urls).
  repeat constructor; try discriminate; vm_compute; intuition discriminate.
Defined.

End ProxiesWitnesses.

(** ** Media type and date of a post *)

Section MediaAndDate.
Context {rt : Runtime} {env : Collaborators}.

Lemma matches_name (name : String.string) (e : node) :
  matches [lit name] [] e = true <-> named name e.
Proof.
  destruct e as [s|nm attrs contents]; simpl.
  - split; [discriminate|intros []].
  - now rewrite orb_false_r, andb_true_r, str_eqb_eq.
Qed.

Lemma find_first_named (name : String.string) (n e : node) :
  first_named name n e -> find n [lit name] [] = Some e.
Proof.
  intros (before & after & Hd & Hname & Hbefore).
  unfold find, find_all. rewrite Hd. apply hd_error_filter_first.
  - now apply matches_name.
  - intros x Hx. specialize (Hbefore x Hx).
    destruct (matches _ _ x) eqn:E; [|reflexivity].
    apply matches_name in E. contradiction.
Qed.

Lemma find_none_named (name : String.string) (n : node) :
  none_named name n -> find n [lit name] [] = None.
Proof.
  intros Hn. unfold find, find_all. apply hd_error_filter_none.
  intros x Hx. specialize (Hn x Hx).
  destruct (matches _ _ x) eqn:E; [|reflexivity].
  apply matches_name in E. contradiction.
Qed.

Lemma find_some_named (name : String.string) (n e : node) :
  In e (descendants n) -> named name e ->
  exists e', find n [lit name] [] = Some e'.
Proof.
  intros Hin Hname. unfold find, find_all.
  assert (H : In e (filter (matches [lit name] []) (descendants n)))
    by (apply filter_In; split; [exact Hin|now apply matches_name]).
  destruct (filter _ _) as [|e' l]; [contradiction|now exists e'].
Qed.

(** X14.  The media type of a candidate is "video" as soon as it holds a
    video element, whatever else it holds; "photo" when it holds an img
    element and no video; "text" when it holds neither. *)
Theorem media_type_is_video_before_photo :
  forall n : node,
    ((exists e, In e (descendants n) /\ named "video" e) ->
     _detect_media_type n = lit "video") /\
    (none_named "video" n ->
     (exists e, In e (descendants n) /\ named "img" e) ->
     _detect_media_type n = lit "photo") /\
    (none_named "video" n -> none_named "img" n ->
     _detect_media_type n = lit "text").
Proof.
  intros n. unfold _detect_media_type. split; [|split].
  - intros (e & Hin & Hname).
    now destruct (find_some_named "video" n e Hin Hname) as [e' ->].
  - intros Hv (e & Hin & Hname). rewrite (find_none_named "video" n Hv).
    now destruct (find_some_named "img" n e Hin Hname) as [e' ->].
  - intros Hv Hi.
    now rewrite (find_none_named "video" n Hv), (find_none_named "img" n Hi).
Qed.

(** X15.  When the first abbr element of a candidate carries a
    [data-utime] that reads as an integer the platform can convert, the
    date of the post is that timestamp, formatted in local time, whatever
    titles and texts the candidate also holds. *)
Theorem date_is_the_formatted_timestamp :
  forall (n abbr : node) (utime : pystr) (ts : Z) (formatted : pystr),
    first_named "abbr" n abbr ->
    has_attr_value "data-utime" utime abbr ->
    int_of_str utime = Some ts ->
    strftime_localtime ts = OK formatted ->
    _extract_date n = OK formatted.
Proof.
  intros n abbr utime ts formatted Hfirst Hattr Hint Hfmt.
  unfold _extract_date. rewrite (find_first_named "abbr" n abbr Hfirst).
  unfold has_attr_value in Hattr. now rewrite Hattr, Hint, Hfmt.
Qed.

(** X16.  A candidate that holds neither a time nor an abbr element has
    the empty date.  A [data-utime] that does not read as an integer is
    passed over: with no time element, the date is then the title of
    that abbr element when it has one. *)
Theorem date_without_usable_timestamp :
  forall n : node,
    (none_named "time" n -> none_named "abbr" n -> _extract_date n = OK []) /\
    (forall abbr utime c title,
        none_named "time" n ->
        first_named "abbr" n abbr ->
        has_attr_value "data-utime" utime abbr ->
        int_of_str utime = None ->
        has_attr_value "title" (c :: title) abbr ->
        _extract_date n = OK (c :: title)).
Proof.
  intros n. split.
  - intros Ht Ha. unfold _extract_date, date_from_tags.
    now rewrite (find_none_named "abbr" n Ha), (find_none_named "time" n Ht).
  - intros abbr utime c title Ht Hfirst Hattr Hint Htitle.
    unfold _extract_date, date_from_tags.
    rewrite (find_first_named "abbr" n abbr Hfirst),
      (find_none_named "time" n Ht).
    unfold has_attr_value in *. now rewrite Hattr, Hint, Htitle.
Qed.

Lemma extract_date_raises (n abbr : node) (utime : pystr) (ts : Z) (e : exn) :
  first_named "abbr" n abbr ->
  has_attr_value "data-utime" utime abbr ->
  int_of_str utime = Some ts ->
  strftime_localtime ts = Raise e ->
  e <> ValueError ->
  _extract_date n = Raise e.
Proof.
  intros Hfirst Hattr Hint Hfmt He.
  unfold _extract_date. rewrite (find_first_named "abbr" n abbr Hfirst).
  unfold has_attr_value in Hattr. rewrite Hattr, Hint, Hfmt.
  destruct e; (reflexivity || contradiction).
Qed.

(** X17.  A timestamp the platform refuses to convert with an error
    other than [ValueError] is not caught by [_extract_date]: the
    candidate gives no post, and a page whose only candidate it is parses
    to no post at all. *)
Theorem posts_with_unconvertible_timestamps_are_dropped :
  forall (n abbr : node) (utime : pystr) (ts : Z) (e : exn),
    first_named "abbr" n abbr ->
    has_attr_value "data-utime" utime abbr ->
    int_of_str utime = Some ts ->
    strftime_localtime ts = Raise e ->
    e <> ValueError ->
    (forall post, _parse_single_post n <> OK (Some post)) /\
    (forall html, find_candidates (BeautifulSoup html) = [n] ->
                  _parse_page html = []).
Proof.
  intros n abbr utime ts e Hfirst Hattr Hint Hfmt He.
  pose proof (extract_date_raises n abbr utime ts e Hfirst Hattr Hint Hfmt He)
    as Hdate.
  assert (Hn : forall post, _parse_single_post n <> OK (Some post)).
  { intros post H.
    apply parse_single_post_inv in H
      as (a & b & c & d & date_str & _ & _ & _ & _ & H & _).
    congruence. }
  split; [exact Hn|].
  intros html Hc. unfold _parse_page. rewrite Hc. cbn [flat_map].
  destruct (_parse_single_post n) as [[post|]|e'];
    [exfalso; exact (Hn post eq_refl)|reflexivity|reflexivity].
Qed.

End MediaAndDate.

(** ** The records of a parsed page *)

Section Records.
Context {rt : Runtime} {env : Collaborators}.

Lemma parse_page_forall (P : FacebookPost -> Prop) :
  (forall n post, _parse_single_post n = OK (Some post) -> P post) ->
  forall html, Forall P (_parse_page html).
Proof.
  intros H html. apply Forall_forall. intros post Hin.
  unfold _parse_page in Hin. apply in_flat_map in Hin as (n & _ & Hin).
  destruct (_parse_single_post n) as [[p|]|e] eqn:E; try contradiction.
  destruct Hin as [<-|[]]. now apply (H n).
Qed.

Lemma parse_single_post_not_blank (n : node) (post : FacebookPost) :
  _parse_single_post n = OK (Some post) ->
  content post <> [] \/ permalink post <> [].
Proof.
  intros H. pose proof H as Hinv.
  apply parse_single_post_inv in Hinv
    as (a & b & c & d & date_str & _ & _ & _ & _ & _ & ->).
  cbn [content permalink]. unfold _parse_single_post in H.
  destruct (clean_content (Some (find_raw_content n))) as [|c0 s];
    [|left; discriminate].
  destruct (find_permalink n) as [|p0 s]; [discriminate|right; discriminate].
Qed.

Lemma find_permalink_on_site (n : node) :
  find_permalink n = [] \/ occurs_in site_domain (find_permalink n).
Proof.
  unfold find_permalink. destruct (find n _ _) as [link|]; [right|now left].
  cbv zeta. destruct (contains (lit "facebook.com") _) eqn:E.
  - now apply contains_iff in E.
  - exists (lit "https://www."), (get_default (get (attrs_of link) (lit "href")) []).
    reflexivity.
Qed.

(** X18.  No record of a parsed page is blank: each has a content or a
    permalink that is not empty. *)
Theorem parsed_posts_are_never_blank :
  forall html : pystr,
    Forall (fun post => content post <> [] \/ permalink post <> [])
      (_parse_page html).
Proof. apply parse_page_forall. exact parse_single_post_not_blank. Qed.

(** X19.  The permalink of every record of a parsed page is either
    empty or a string in which the site's domain occurs. *)
Theorem permalinks_are_empty_or_on_the_site :
  forall html : pystr,
    Forall (fun post => permalink post = []
                        \/ occurs_in site_domain (permalink post))
      (_parse_page html).
Proof.
  apply parse_page_forall. intros n post H.
  apply parse_single_post_inv in H
    as (a & b & c & d & date_str & _ & _ & _ & _ & _ & ->).
  apply find_permalink_on_site.
Qed.

End Records.

Section RecordsWitnesses.

Lemma media_type_is_video_before_photo_witness :
  _detect_media_type video_post = lit "video".
Proof.
  apply (media_type_is_video_before_photo video_post).
  exists (Tag (lit "video") [(lit "src", lit "clip.mp4")] []).
  split; [right; now left|reflexivity].
Defined.

Lemma timestamp_abbr_is_first (utime : pystr) :
  first_named "abbr"
    (Tag (lit "div") [(lit "role", lit "article")]
       [NavigableString (lit "On the road"); timestamp_abbr utime])
    (timestamp_abbr utime).
Proof.
  exists [NavigableString (lit "On the road")], [NavigableString (lit "2 hrs")].
  split; [reflexivity|]. split; [reflexivity|].
  intros x [<-|[]] H. exact H.
Defined.

Lemma date_is_the_formatted_timestamp_witness :
  @_extract_date utc_runtime dated_post = OK (lit "2023-11-14 22:13:20").
Proof.
  apply (@date_is_the_formatted_timestamp utc_runtime dated_post
           (timestamp_abbr (lit "1700000000")) (lit "1700000000") 1700000000).
  - apply timestamp_abbr_is_first.
  - reflexivity.
  - reflexivity.
  - vm_compute. reflexivity.
Defined.

Lemma date_without_usable_timestamp_witness :
  @_extract_date utc_runtime undated_post = OK (lit "Tuesday").
Proof.
  apply (@date_without_usable_timestamp utc_runtime undated_post)
    with (abbr := timestamp_abbr (lit "yesterday")) (utime := lit "yesterday").
  - intros e [<-|[<-|[<-|[]]]] H; try exact H; discriminate H.
  - apply timestamp_abbr_is_first.
  - reflexivity.
  - reflexivity.
  - reflexivity.
Defined.

Lemma posts_with_unconvertible_timestamps_are_dropped_witness :
  (forall post, @_parse_single_post utc_runtime misdated_post <> OK (Some post)) /\
  @_parse_page utc_runtime (scripted [] misdated_parser) misdated_page_html = [].
Proof.
  destruct (@posts_with_unconvertible_timestamps_are_dropped utc_runtime
              (scripted [] misdated_parser) misdated_post
              (timestamp_abbr (lit "100000000000000000"))
              (lit "100000000000000000") 100000000000000000 OSError)
    as [Hpost Hpage].
  - apply timestamp_abbr_is_first.
  - reflexivity.
  - reflexivity.
  - vm_compute. reflexivity.
  - discriminate.
  - split; [exact Hpost|]. apply Hpage. reflexivity.
Defined.

End RecordsWitnesses.

(** ** Page URLs, further *)

Section PageUrls.
Context {rt : Runtime}.

Lemma mapM_forall {A B} (f : A -> result B) (P : B -> Prop) (l : list A)
  (bs : list B) :
  (forall a b, f a = OK b -> P b) -> mapM f l = OK bs -> Forall P bs.
Proof.
  intros Hf. revert bs. induction l as [|a l IH]; intros bs; cbn [mapM].
  - intros [= <-]. constructor.
  - destruct (f a) as [b|e] eqn:Ea; cbn [bind]; [|discriminate].
    destruct (mapM f l) as [bs'|e]; cbn [bind]; [|discriminate].
    intros [= <-]. constructor; [now apply (Hf a)|now apply IH].
Qed.

Lemma mapM_total {A B} (f : A -> result B) (l : list A) :
  (forall a, In a l -> exists b, f a = OK b) -> exists bs, mapM f l = OK bs.
Proof.
  induction l as [|a l IH]; intros H; cbn [mapM]; [now exists []|].
  destruct (H a (or_introl eq_refl)) as [b ->].
  destruct IH as [bs ->]; [intros x Hx; apply H; now right|].
  now exists (b :: bs).
Qed.

Lemma mapM_raises {A B} (f : A -> result B) (l : list A) (a : A) (e : exn) :
  In a l -> f a = Raise e ->
  (forall x e', f x = Raise e' -> e' = e) ->
  mapM f l = Raise e.
Proof.
  intros Hin Ha Hall. induction l as [|x l IH]; [contradiction|].
  cbn [mapM]. destruct (f x) as [b|e'] eqn:Ex; cbn [bind].
  - destruct Hin as [->|Hin]; [congruence|]. now rewrite IH.
  - f_equal. now apply (Hall x).
Qed.

Lemma OK_inj {A} (a b : A) : OK a = OK b -> a = b.
Proof. now intros [= ->]. Qed.

Lemma utf8_encode_char_bytes (c : char) (bs : list N) :
  utf8_encode_char c = OK bs -> Forall (fun b => (b < 256)%N) bs.
Proof.
  assert (H1 : forall b1, (b1 < 256)%N -> Forall (fun b => (b < 256)%N) [b1])
    by (intros; now repeat constructor).
  assert (H2 : forall b1 b2, (b1 < 256)%N -> (b2 < 256)%N ->
                             Forall (fun b => (b < 256)%N) [b1; b2])
    by (intros; now repeat constructor).
  assert (H3 : forall b1 b2 b3, (b1 < 256)%N -> (b2 < 256)%N -> (b3 < 256)%N ->
                                Forall (fun b => (b < 256)%N) [b1; b2; b3])
    by (intros; now repeat constructor).
  assert (H4 : forall b1 b2 b3 b4,
             (b1 < 256)%N -> (b2 < 256)%N -> (b3 < 256)%N -> (b4 < 256)%N ->
             Forall (fun b => (b < 256)%N) [b1; b2; b3; b4])
    by (intros; now repeat constructor).
  unfold utf8_encode_char.
  destruct (c <? 128)%N eqn:E1; [apply N.ltb_lt in E1|].
  { intros H; apply OK_inj in H; subst bs. apply H1. lia. }
  destruct (c <? 2048)%N eqn:E2; [apply N.ltb_lt in E2|].
  { intros H; apply OK_inj in H; subst bs.
    pose proof (N.Div0.div_lt_upper_bound c 64 32 ltac:(lia)).
    pose proof (N.mod_lt c 64 ltac:(lia)). apply H2; lia. }
  destruct ((55296 <=? c) && (c <=? 57343))%N; [discriminate|].
  destruct (c <? 65536)%N eqn:E3; [apply N.ltb_lt in E3|].
  { intros H; apply OK_inj in H; subst bs.
    pose proof (N.Div0.div_lt_upper_bound c 4096 16 ltac:(lia)).
    pose proof (N.mod_lt (c / 64) 64 ltac:(lia)).
    pose proof (N.mod_lt c 64 ltac:(lia)). apply H3; lia. }
  destruct (c <? 1114112)%N eqn:E4; [apply N.ltb_lt in E4|discriminate].
  intros H; apply OK_inj in H; subst bs.
  pose proof (N.Div0.div_lt_upper_bound c 262144 5 ltac:(lia)).
  pose proof (N.mod_lt (c / 4096) 64 ltac:(lia)).
  pose proof (N.mod_lt (c / 64) 64 ltac:(lia)).
  pose proof (N.mod_lt c 64 ltac:(lia)). apply H4; lia.
Qed.

Lemma utf8_encode_bytes (s : pystr) (bs : list N) :
  utf8_encode s = OK bs -> Forall (fun b => (b < 256)%N) bs.
Proof.
  unfold utf8_encode.
  destruct (mapM utf8_encode_char s) as [bss|e] eqn:E; cbn [bind];
    [|discriminate].
  intros [= <-].
  apply (mapM_forall _ (Forall (fun b => (b < 256)%N))) in E;
    [|exact utf8_encode_char_bytes].
  induction E as [|l bss Hl _ IH]; cbn [concat]; [constructor|].
  now apply Forall_app.
Qed.

Lemma utf8_encode_char_cases (c : char) :
  if is_scalar_value c then exists bs, utf8_encode_char c = OK bs
  else utf8_encode_char c = Raise UnicodeEncodeError.
Proof.
  unfold is_scalar_value, utf8_encode_char.
  destruct (c <? 128)%N eqn:E1.
  { apply N.ltb_lt in E1.
    replace (c <? 55296)%N with true by (symmetry; apply N.ltb_lt; lia).
    cbn [orb]. eauto. }
  destruct (c <? 2048)%N eqn:E2.
  { apply N.ltb_lt in E2.
    replace (c <? 55296)%N with true by (symmetry; apply N.ltb_lt; lia).
    cbn [orb]. eauto. }
  apply N.ltb_ge in E2.
  destruct (55296 <=? c)%N eqn:E3; cbn [andb].
  - apply N.leb_le in E3.
    replace (c <? 55296)%N with false by (symmetry; apply N.ltb_ge; lia).
    cbn [orb]. destruct (c <=? 57343)%N eqn:E4.
    + apply N.leb_le in E4.
      now replace (57343 <? c)%N with false by (symmetry; apply N.ltb_ge; lia).
    + apply N.leb_gt in E4.
      replace (57343 <? c)%N with true by (symmetry; apply N.ltb_lt; lia).
      cbn [andb]. destruct (c <? 65536)%N eqn:E5.
      * apply N.ltb_lt in E5.
        replace (c <? 1114112)%N with true by (symmetry; apply N.ltb_lt; lia).
        eauto.
      * destruct (c <? 1114112)%N; eauto.
  - apply N.leb_gt in E3.
    replace (c <? 55296)%N with true by (symmetry; apply N.ltb_lt; lia).
    replace (c <? 65536)%N with true by (symmetry; apply N.ltb_lt; lia).
    cbn [orb]. eauto.
Qed.

Lemma utf8_encode_char_raises (c : char) (e : exn) :
  utf8_encode_char c = Raise e -> e = UnicodeEncodeError.
Proof.
  unfold utf8_encode_char.
  repeat match goal with
         | |- context [if ?b then _ else _] => destruct b
         end; now intros [= <-].
Qed.

Lemma hex_digit_safe (d : N) : (d < 16)%N -> always_safe (hex_digit d) = true.
Proof.
  intros H. unfold hex_digit, always_safe.
  destruct (d <? 10)%N eqn:E; [apply N.ltb_lt in E|apply N.ltb_ge in E].
  - replace ((48 <=? 48 + d) && (48 + d <=? 57))%N with true;
      [now rewrite !orb_true_r|].
    symmetry. apply andb_true_iff. rewrite !N.leb_le. lia.
  - replace ((65 <=? 55 + d) && (55 + d <=? 90))%N with true; [reflexivity|].
    symmetry. apply andb_true_iff. rewrite !N.leb_le. lia.
Qed.

Lemma quoter_chars (safe : list N) (b : N) :
  (b < 256)%N ->
  Forall (fun c => always_safe c = true \/ c = percent \/ In c safe)
    (quoter safe b).
Proof.
  intros Hb. unfold quoter.
  destruct (always_safe b || existsb (N.eqb b) safe) eqn:E.
  - constructor; [|constructor].
    apply orb_true_iff in E as [E|E]; [now left|].
    apply existsb_exists in E as (x & Hx & E). apply N.eqb_eq in E. subst x.
    right. now right.
  - pose proof (N.Div0.div_lt_upper_bound b 16 16 ltac:(lia)).
    pose proof (N.mod_lt b 16 ltac:(lia)).
    apply Forall_cons; [right; now left|].
    apply Forall_cons; [left; now apply hex_digit_safe|].
    apply Forall_cons; [left; now apply hex_digit_safe|]. apply Forall_nil.
Qed.

Lemma quote_chars (s : pystr) (safe : list N) (q : pystr) :
  quote s safe = OK q ->
  Forall (fun c => always_safe c = true \/ c = percent \/ In c safe) q.
Proof.
  unfold quote. destruct (utf8_encode s) as [bs|e] eqn:E; cbn [bind];
    [|discriminate].
  intros [= <-]. apply utf8_encode_bytes in E.
  induction E as [|b bs Hb _ IH]; cbn [flat_map]; [constructor|].
  apply Forall_app. split; [now apply quoter_chars|exact IH].
Qed.

Lemma quote_plus_chars (s encoded : pystr) :
  quote_plus s = OK encoded -> forallb url_safe encoded = true.
Proof.
  unfold quote_plus. destruct (existsb (N.eqb space) s).
  - destruct (quote s [space]) as [q|e] eqn:E; cbn [bind]; [|discriminate].
    intros [= <-]. apply quote_chars in E. apply forallb_forall.
    intros c Hc. apply in_map_iff in Hc as (x & <- & Hx).
    rewrite Forall_forall in E. specialize (E x Hx). unfold url_safe.
    destruct (x =? space)%N eqn:Ex; [reflexivity|].
    destruct E as [->|[->|[E|[]]]]; try reflexivity.
    rewrite <- E in Ex. now rewrite N.eqb_refl in Ex.
  - intros E. apply quote_chars in E. apply forallb_forall.
    intros c Hc. rewrite Forall_forall in E. specialize (E c Hc).
    unfold url_safe. destruct E as [->|[->|[]]]; reflexivity.
Qed.

Lemma quote_plus_total (s : pystr) :
  forallb is_scalar_value s = true -> exists encoded, quote_plus s = OK encoded.
Proof.
  intros H.
  assert (Hq : forall safe, exists q, quote s safe = OK q).
  { intros safe. unfold quote, utf8_encode.
    destruct (mapM_total utf8_encode_char s) as [bss ->]; [|cbn; eauto].
    intros c Hc. rewrite forallb_forall in H. specialize (H c Hc).
    pose proof (utf8_encode_char_cases c) as Hc'. now rewrite H in Hc'. }
  unfold quote_plus. destruct (existsb (N.eqb space) s).
  - destruct (Hq [space]) as [q ->]. cbn. eauto.
  - apply Hq.
Qed.

Lemma quote_plus_raises (s : pystr) (c : char) :
  In c s -> is_scalar_value c = false ->
  quote_plus s = Raise UnicodeEncodeError.
Proof.
  intros Hin Hc.
  assert (Hq : forall safe, quote s safe = Raise UnicodeEncodeError).
  { intros safe. unfold quote, utf8_encode.
    rewrite (mapM_raises utf8_encode_char s c UnicodeEncodeError Hin);
      [reflexivity| |exact utf8_encode_char_raises].
    pose proof (utf8_encode_char_cases c) as Hc'. now rewrite Hc in Hc'. }
  unfold quote_plus. rewrite !Hq. now destruct (existsb (N.eqb space) s).
Qed.

(** X20.  A page URL is the base URL followed by the hashtag as
    [quote_plus] encodes it and, from page 2 on, by the page query; the
    encoded hashtag holds nothing but letters, digits, [_.-~], percent
    and plus signs, so that no character of the hashtag can end the path
    or start a query. *)
Theorem page_urls_hold_an_encoded_hashtag :
  forall (self : FacebookHashtagScraper) (page : Z) (url : pystr),
    _build_page_url self page = OK url ->
    exists encoded : pystr,
      quote_plus (hashtag self) = OK encoded /\
      url = base_url self ++ encoded ++ page_query page /\
      forallb url_safe encoded = true.
Proof.
  intros self page url H.
  destruct (quote_plus (hashtag self)) as [encoded|e] eqn:E.
  - exists encoded. split; [reflexivity|]. split.
    + now apply build_page_url_shape.
    + now apply quote_plus_chars in E.
  - unfold _build_page_url in H. rewrite E in H. discriminate.
Qed.

(** X21.  A hashtag made of Unicode scalar values has the URL of every
    page whose number the f-string can write: page 1 and below, where no
    number is written, and the pages whose numeral is within the limit
    on integer strings.  For a page above 1 whose numeral exceeds the
    limit, building the URL raises [ValueError]. *)
Theorem page_urls_exist_for_unicode_hashtags :
  forall (self : FacebookHashtagScraper) (page : Z),
    forallb is_scalar_value (hashtag self) = true ->
    (page <= 1 \/ numeral_within_limit page = true ->
     exists url : pystr, _build_page_url self page = OK url) /\
    (1 < page -> numeral_within_limit page = false ->
     _build_page_url self page = Raise ValueError).
Proof.
  intros self page H. destruct (quote_plus_total _ H) as [encoded E]. split.
  - intros Hp. destruct (Z.le_gt_cases page 1) as [Hle|Hgt].
    + rewrite (build_page_url_first self page encoded E Hle). eauto.
    + destruct Hp as [Hp|Hp]; [lia|].
      rewrite (build_page_url_later self page encoded E Hgt), Hp. eauto.
  - intros Hgt Hp.
    now rewrite (build_page_url_later self page encoded E Hgt), Hp.
Qed.

Lemma digits_of_uint_inj (d1 d2 : Decimal.uint) :
  digits_of_uint d1 = digits_of_uint d2 -> d1 = d2.
Proof.
  revert d2. induction d1 as [|d1 IH|d1 IH|d1 IH|d1 IH|d1 IH|d1 IH|d1 IH|d1 IH
                              |d1 IH|d1 IH];
    intros [|d2|d2|d2|d2|d2|d2|d2|d2|d2|d2]; cbn [digits_of_uint];
    intros H; try discriminate H; try reflexivity;
    injection H as H; f_equal; now apply IH.
Qed.

Lemma digits_of_uint_no_sign (d1 d2 : Decimal.uint) :
  digits_of_uint d1 <> 45%N :: digits_of_uint d2.
Proof. destruct d1; cbn [digits_of_uint]; discriminate. Qed.

Lemma decimal_of_int_inj (p q : Z) : decimal_of_int p = decimal_of_int q -> p = q.
Proof.
  unfold decimal_of_int. intros H. apply DecimalZ.to_int_inj.
  destruct (Z.to_int p) as [d1|d1], (Z.to_int q) as [d2|d2].
  - f_equal. now apply digits_of_uint_inj.
  - now apply digits_of_uint_no_sign in H.
  - symmetry in H. now apply digits_of_uint_no_sign in H.
  - injection H as H. f_equal. now apply digits_of_uint_inj.
Qed.

(** X22.  Two pages have the same URL exactly when they are the same
    page or both are pages 1 or below: the pages from 2 on have URLs of
    their own, every page below shares the URL of page 1. *)
Theorem page_urls_differ_from_page_two_on :
  forall (self : FacebookHashtagScraper) (p q : Z) (url_p url_q : pystr),
    _build_page_url self p = OK url_p ->
    _build_page_url self q = OK url_q ->
    (url_p = url_q <-> p = q \/ (p <= 1 /\ q <= 1)).
Proof.
  intros self p q url_p url_q Hp Hq.
  destruct (quote_plus (hashtag self)) as [encoded|e] eqn:E;
    [|unfold _build_page_url in Hp; rewrite E in Hp; discriminate].
  apply (build_page_url_shape self p encoded url_p E) in Hp.
  apply (build_page_url_shape self q encoded url_q E) in Hq.
  subst url_p url_q. split.
  - intros H. apply app_inv_head, app_inv_head in H. unfold page_query in H.
    destruct (p <=? 1) eqn:Ep, (q <=? 1) eqn:Eq;
      try apply Z.leb_le in Ep; try apply Z.leb_le in Eq.
    + right. lia.
    + discriminate H.
    + discriminate H.
    + left. apply app_inv_head in H. now apply decimal_of_int_inj.
  - intros [->|[Hp Hq]]; [reflexivity|]. unfold page_query.
    now replace (p <=? 1) with true by (symmetry; apply Z.leb_le; lia);
      replace (q <=? 1) with true by (symmetry; apply Z.leb_le; lia).
Qed.

End PageUrls.

(** ** Runs *)

Section Runs.
Context {rt : Runtime} {env : Collaborators}.

(** The calls of one fetch: the two rotators, then requests, all the
    same, and sleeps. *)
Lemma fetch_page_calls (self : FacebookHashtagScraper) (url : pystr) (w : World) :
  exists calls,
    snd (_fetch_page self url w)
    = advance (rotated w) (count_gets calls) calls /\
    (count_gets calls
     <= Z.to_nat (get_default (max_retries_setting (settings self)) 3%Z))%nat /\
    Forall (fun e => e = CallGet (request_of self url w)
                     \/ exists d, e = CallSleep d) calls.
Proof.
  rewrite fetch_page_unfold.
  destruct (fetch_attempts_calls (request_of self url w)
              (get_default (max_retries_setting (settings self)) 3)
              (get_default (backoff_factor_setting (settings self)) one_and_a_half)
              (range 1 (get_default (max_retries_setting (settings self)) 3 + 1))
              (rotated w))
    as (calls & E & Hle & Hall).
  exists calls. split; [exact E|]. split; [|exact Hall].
  rewrite length_range in Hle. lia.
Qed.

(** The loop of [run], one page at a time. *)
Lemma run_pages_step (self : FacebookHashtagScraper) (page : Z) (rest : list Z)
  (all_posts posts : list FacebookPost) (w w' : World) :
  run_pages self (page :: rest) all_posts w = OK (posts, w') ->
  exists url,
    _build_page_url self page = OK url /\
    ((posts = all_posts /\ w' = snd (_fetch_page self url w)) \/
     (exists html,
         fst (_fetch_page self url w) = OK (Some html) /\
         run_pages self rest (all_posts ++ _parse_page html)
           (snd (call_sleep (sleep_between_requests self)
                   (snd (_fetch_page self url w))))
         = OK (posts, w'))).
Proof.
  cbn [run_pages]. destruct (_build_page_url self page) as [url|e];
    cbn [bind]; [|discriminate].
  intros H. exists url. split; [reflexivity|].
  destruct (_fetch_page self url w) as [[[[|c html]|]|e] w1]; cbn [fst snd].
  - left. now injection H as <- <-.
  - destruct (_parse_page (c :: html)) as [|post page_posts] eqn:E.
    + left. now injection H as <- <-.
    + right. exists (c :: html). split; [reflexivity|]. rewrite E.
      unfold call_sleep in *. cbn [snd].
      now destruct (time_sleep (sleep_between_requests self)).
  - left. now injection H as <- <-.
  - discriminate H.
Qed.

Lemma run_pages_budget (self : FacebookHashtagScraper) (pages : list Z) :
  forall (all_posts posts : list FacebookPost) (w w' : World),
    run_pages self pages all_posts w = OK (posts, w') ->
    exists calls,
      trace w' = trace w ++ calls /\
      (count_gets calls
       <= length pages
          * Z.to_nat (get_default (max_retries_setting (settings self)) 3%Z))%nat.
Proof.
  induction pages as [|page rest IH]; intros all_posts posts w w' H.
  - injection H as <- <-. exists []. split; [now rewrite app_nil_r|cbn; lia].
  - apply run_pages_step in H as (url & _ & H).
    destruct (fetch_page_calls self url w) as (calls & E & Hle & _).
    destruct H as [[_ ->]|(html & _ & H)].
    + exists (rotation_calls w ++ calls). rewrite E. cbn [advance rotated trace].
      split; [now rewrite app_assoc|].
      rewrite count_gets_app. cbn [length]. change (count_gets (rotation_calls w)) with 0%nat.
      lia.
    + apply IH in H as (calls' & Etrace & Hle').
      exists (rotation_calls w ++ calls
              ++ CallSleep (sleep_between_requests self) :: calls').
      rewrite Etrace, E. unfold call_sleep, log.
      cbn [snd advance rotated trace].
      split; [now rewrite <- !app_assoc|].
      rewrite !count_gets_app. change (count_gets (rotation_calls w)) with 0%nat.
      change (count_gets (CallSleep (sleep_between_requests self) :: calls'))
        with (count_gets calls').
      cbn [length]. lia.
Qed.

Lemma run_pages_forall (P : FacebookPost -> Prop) (self : FacebookHashtagScraper)
  (pages : list Z) :
  (forall html, Forall P (_parse_page html)) ->
  forall (all_posts posts : list FacebookPost) (w w' : World),
    Forall P all_posts ->
    run_pages self pages all_posts w = OK (posts, w') ->
    Forall P posts.
Proof.
  intros HP. induction pages as [|page rest IH]; intros all_posts posts w w' Hall H.
  - now injection H as <- <-.
  - apply run_pages_step in H as (url & _ & [[-> _]|(html & _ & H)]);
      [exact Hall|].
    apply IH in H; [exact H|]. apply Forall_app. split; [exact Hall|apply HP].
Qed.


(** X23.  With [max_pages] at 0 or below, [run] returns no post and
    calls nothing: no rotator, no request, no sleep. *)
Theorem run_without_pages_does_nothing :
  forall (self : FacebookHashtagScraper) (w : World),
    max_pages self <= 0 -> run self w = OK ([], w).
Proof.
  intros self w H. unfold run. rewrite range_nil by lia. reflexivity.
Qed.

(** X24.  A run sends at most [max_pages * max_retries] requests. *)
Theorem run_stays_within_its_request_budget :
  forall (self : FacebookHashtagScraper) (w w' : World)
         (posts : list FacebookPost),
    run self w = OK (posts, w') ->
    exists calls : list Event,
      trace w' = trace w ++ calls /\
      Z.of_nat (count_gets calls)
      <= Z.max 0 (max_pages self)
         * Z.max 0 (get_default (max_retries_setting (settings self)) 3).
Proof.
  intros self w w' posts H. unfold run in H.
  apply run_pages_budget in H as (calls & E & Hle).
  exists calls. split; [exact E|]. rewrite length_range in Hle.
  apply Nat2Z.inj_le in Hle. rewrite Nat2Z.inj_mul in Hle.
  replace (Z.of_nat (Z.to_nat (max_pages self + 1 - 1)))
    with (Z.max 0 (max_pages self)) in Hle by lia.
  replace (Z.of_nat (Z.to_nat (get_default (max_retries_setting (settings self)) 3)))
    with (Z.max 0 (get_default (max_retries_setting (settings self)) 3)) in Hle
    by lia.
  exact Hle.
Qed.

(** X25.  A hashtag that holds a code point UTF-8 cannot encode (a lone
    surrogate) has no page URL: building one raises
    [UnicodeEncodeError], and so does a run of at least one page. *)
Theorem unencodable_hashtags_stop_the_run :
  forall (self : FacebookHashtagScraper) (w : World) (c : char),
    In c (hashtag self) ->
    is_scalar_value c = false ->
    (forall page, _build_page_url self page = Raise UnicodeEncodeError) /\
    (1 <= max_pages self -> run self w = Raise UnicodeEncodeError).
Proof.
  intros self w c Hin Hc.
  assert (Hurl : forall page, _build_page_url self page = Raise UnicodeEncodeError).
  { intros page. unfold _build_page_url.
    now rewrite (quote_plus_raises _ c Hin Hc). }
  split; [exact Hurl|]. intros Hpages. unfold run.
  rewrite range_cons by lia. cbn [run_pages]. now rewrite Hurl.
Qed.

(** X26.  Every record a run returns is well formed: its counters are
    not negative and add up to its total engagement, its content and its
    permalink are not both empty, its content has at most 10,000
    characters, and its permalink is empty or mentions the site. *)
Theorem run_returns_well_formed_records :
  forall (self : FacebookHashtagScraper) (w w' : World)
         (posts : list FacebookPost),
    run self w = OK (posts, w') -> Forall well_formed posts.
Proof.
  intros self w w' posts H. unfold run in H.
  apply (run_pages_forall well_formed) in H; [exact H| |constructor].
  apply parse_page_forall. intros n post Hpost. unfold well_formed.
  split; [now apply parse_single_post_counters in Hpost|].
  split; [now apply parse_single_post_not_blank in Hpost|].
  apply parse_single_post_inv in Hpost
    as (a & b & c & d & date_str & _ & _ & _ & _ & _ & ->).
  cbn [content permalink].
  split; [apply clean_content_within_limit|apply find_permalink_on_site].
Qed.


(** X28.  With [max_retries] at 0 or below a fetch sends no request: it
    asks both rotators once and returns nothing, and a run of at least
    one page ends there with no post. *)
Theorem fetch_without_attempts_returns_nothing :
  forall self : FacebookHashtagScraper,
    get_default (max_retries_setting (settings self)) 3 <= 0 ->
    (forall url w, _fetch_page self url w = (OK None, rotated w)) /\
    (forall w encoded,
        quote_plus (hashtag self) = OK encoded ->
        1 <= max_pages self ->
        run self w = OK ([], rotated w)).
Proof.
  intros self H.
  assert (Hfetch : forall url w, _fetch_page self url w = (OK None, rotated w)).
  { intros url w. rewrite fetch_page_unfold, range_nil by lia. reflexivity. }
  split; [exact Hfetch|]. intros w encoded Henc Hpages. unfold run.
  rewrite range_cons by lia. cbn [run_pages].
  rewrite (build_page_url_first self 1 encoded Henc) by lia. cbn [bind].
  now rewrite Hfetch.
Qed.


End Runs.

Section RunsWitnesses.

Lemma page_urls_hold_an_encoded_hashtag_witness :
  exists encoded : pystr,
    quote_plus (hashtag accented_scraper) = OK encoded /\
    lit "https://www.facebook.com/hashtag/caf%C3%A9+noir?page=2"
    = base_url accented_scraper ++ encoded ++ page_query 2 /\
    forallb url_safe encoded = true.
Proof.
  apply (@page_urls_hold_an_encoded_hashtag ascii_runtime accented_scraper 2).
  vm_compute. reflexivity.
Defined.

(** Page 3 has its URL; the page [10 ** 4300], whose numeral has 4301
    digits, has none under the default limit of 4300. *)
Lemma page_urls_exist_for_unicode_hashtags_witness :
  (exists url : pystr,
      @_build_page_url ascii_runtime accented_scraper 3 = OK url) /\
  @_build_page_url ascii_runtime accented_scraper (10 ^ 4300) = Raise ValueError.
Proof.
  split.
  - apply (proj1 (@page_urls_exist_for_unicode_hashtags ascii_runtime
                    accented_scraper 3 eq_refl)).
    right. vm_compute. reflexivity.
  - apply (proj2 (@page_urls_exist_for_unicode_hashtags ascii_runtime
                    accented_scraper (10 ^ 4300) eq_refl)).
    + vm_compute. reflexivity.
    + vm_compute. reflexivity.
Defined.

Lemma page_urls_differ_from_page_two_on_witness :
  lit "https://www.facebook.com/hashtag/cats?page=2"
  = lit "https://www.facebook.com/hashtag/cats?page=3"
  <-> 2 = 3 \/ (2 <= 1 /\ 3 <= 1).
Proof.
  apply (@page_urls_differ_from_page_two_on ascii_runtime (cats_scraper 5) 2 3);
    vm_compute; reflexivity.
Defined.

Lemma run_without_pages_does_nothing_witness :
  @run ascii_runtime unreachable_site (cats_scraper 0)
    (fresh_world unreachable_site two_identities)
  = OK ([], fresh_world unreachable_site two_identities).
Proof.
  apply (@run_without_pages_does_nothing ascii_runtime unreachable_site
           (cats_scraper 0)).
  vm_compute. discriminate.
Defined.

Lemma run_stays_within_its_request_budget_witness :
  exists (w' : @World two_pages_then_nothing) (calls : list Event),
    trace w' = trace (fresh_world two_pages_then_nothing two_identities) ++ calls /\
    Z.of_nat (count_gets calls) <= Z.max 0 5 * Z.max 0 3.
Proof.
  eexists.
  eapply (@run_stays_within_its_request_budget ascii_runtime
            two_pages_then_nothing (cats_scraper 5)
            (fresh_world two_pages_then_nothing two_identities)).
  vm_compute. reflexivity.
Defined.

Lemma unencodable_hashtags_stop_the_run_witness :
  (forall page, @_build_page_url ascii_runtime surrogate_scraper page
                = Raise UnicodeEncodeError) /\
  (1 <= max_pages surrogate_scraper ->
   @run ascii_runtime unreachable_site surrogate_scraper
     (fresh_world unreachable_site two_identities)
   = Raise UnicodeEncodeError).
Proof.
  apply (@unencodable_hashtags_stop_the_run ascii_runtime unreachable_site
           surrogate_scraper (fresh_world unreachable_site two_identities)
           55357%N).
  - vm_compute. tauto.
  - reflexivity.
Defined.

Lemma run_returns_well_formed_records_witness :
  Forall well_formed
    (@_parse_page ascii_runtime two_pages_then_nothing page_one_html
     ++ @_parse_page ascii_runtime two_pages_then_nothing page_two_html).
Proof.
  eapply (@run_returns_well_formed_records ascii_runtime two_pages_then_nothing
            (cats_scraper 5) (fresh_world two_pages_then_nothing two_identities)).
  vm_compute. reflexivity.
Defined.


End RunsWitnesses.

(** ** Counters of a text without digits *)

Section Digitless.
Context {rt : Runtime} {env : Collaborators}.

Lemma in_slice (s : pystr) (lo hi : Z) (c : char) : In c (slice s lo hi) -> In c s.
Proof.
  unfold slice. intros H.
  set (a := Z.to_nat (slice_index (len s) lo)) in *.
  set (b := Z.to_nat (slice_index (len s) hi)) in *.
  rewrite <- (firstn_skipn b s). apply in_or_app. left.
  rewrite <- (firstn_skipn a (firstn b s)). apply in_or_app. now right.
Qed.

Lemma in_split_aux (cur s tok : pystr) (c : char) :
  In tok (split_aux cur s) -> In c tok -> In c cur \/ In c s.
Proof.
  revert cur. induction s as [|d r IH]; intros cur; cbn [split_aux].
  - destruct cur as [|e cur]; [intros []|].
    intros [<-|[]] Hc. left. now apply in_rev.
  - destruct (isspace d).
    + destruct cur as [|e cur].
      * intros H Hc. destruct (IH [] H Hc) as [[]|Hr]. right. now right.
      * intros [<-|H] Hc; [left; now apply in_rev|].
        destruct (IH [] H Hc) as [[]|Hr]. right. now right.
    + intros H Hc. destruct (IH (d :: cur) H Hc) as [[<-|Hcur]|Hr].
      * right. now left.
      * now left.
      * right. now right.
Qed.

Lemma in_split (s tok : pystr) (c : char) : In tok (split s) -> In c tok -> In c s.
Proof.
  intros H Hc. now destruct (in_split_aux [] s tok c H Hc) as [[]|Hs].
Qed.

Lemma lower_keeps_digitless (s : pystr) :
  conforming rt ->
  (forall c, In c s -> is_digit c = false) ->
  forall c, In c (str_lower s) -> is_digit c = false.
Proof.
  intros Hrt Hs c Hc. destruct (is_digit c) eqn:E; [|reflexivity].
  assert (Hin : In c (keep_digits_and_dots (str_lower s)))
    by (apply filter_In; split; [exact Hc|now rewrite E]).
  rewrite (lower_digits Hrt) in Hin. apply filter_In in Hin as [Hin _].
  rewrite <- E. now apply Hs.
Qed.

(** Dots alone are no number. *)
Lemma dots_are_no_number (cleaned : pystr) (multiplier : Z) :
  (forall c, In c cleaned -> c = dot) ->
  match cleaned with
  | [] => OK 0
  | _ :: _ => except_ValueError (parse_number cleaned multiplier) 0
  end = OK 0.
Proof.
  intros H. destruct cleaned as [|c r]; [reflexivity|].
  rewrite (H c (or_introl eq_refl)) in *. unfold parse_number.
  cbn [existsb]. rewrite N.eqb_refl. cbn [orb].
  unfold float_of_decimal. cbn [split_at_dot]. rewrite N.eqb_refl.
  destruct r as [|d r]; [reflexivity|].
  rewrite (H d (or_intror (or_introl eq_refl))). reflexivity.
Qed.

Lemma keep_of_digitless (s : pystr) :
  (forall c, In c s -> is_digit c = false) ->
  forall c, In c (keep_digits_and_dots s) -> c = dot.
Proof.
  intros Hs c Hc. apply filter_In in Hc as [Hin Hc].
  rewrite (Hs c Hin) in Hc. now apply N.eqb_eq in Hc.
Qed.

Lemma safe_int_of_digitless (text : pystr) :
  conforming rt ->
  (forall c, In c text -> is_digit c = false) ->
  safe_int (VStr text) = OK 0.
Proof.
  intros Hrt Htext. unfold safe_int.
  assert (Hs : forall c, In c (str_lower (strip text)) -> is_digit c = false).
  { apply lower_keeps_digitless; [exact Hrt|].
    intros c Hc. apply Htext. now apply in_strip. }
  destruct (str_lower (strip text)) as [|c s]; [reflexivity|].
  assert (Hcut : forall d, In d (slice (c :: s) 0 (-1)) -> is_digit d = false)
    by (intros d Hd; apply Hs; now apply in_slice in Hd).
  destruct (endswith (c :: s) (lit "k")); [|destruct (endswith (c :: s) (lit "m"))];
    cbv beta iota zeta; apply dots_are_no_number; now apply keep_of_digitless.
Qed.

Lemma scan_tokens_of_digitless (tokens : list pystr) :
  conforming rt ->
  (forall tok c, In tok tokens -> In c tok -> is_digit c = false) ->
  scan_tokens tokens 0 = OK 0.
Proof.
  intros Hrt. induction tokens as [|tok rest IH]; intros H; [reflexivity|].
  cbn [scan_tokens].
  rewrite safe_int_of_digitless
    by (exact Hrt || (intros c; apply H; now left)).
  cbn [bind]. apply IH. intros t c Ht. apply H. now right.
Qed.

Lemma scan_keywords_of_digitless (text : pystr) (keywords : list pystr) :
  conforming rt ->
  (forall c, In c text -> is_digit c = false) ->
  scan_keywords text keywords 0 = OK 0.
Proof.
  intros Hrt Htext. induction keywords as [|keyword rest IH]; [reflexivity|].
  cbn [scan_keywords]. destruct (Py.find text keyword =? -1); [exact IH|].
  cbv zeta. rewrite scan_tokens_of_digitless; [exact IH|exact Hrt|].
  intros tok c Htok Hc. apply Htext.
  apply (in_split _ tok c) in Htok; [|exact Hc]. now apply in_slice in Htok.
Qed.

(** X30.  A candidate whose text holds no digit has no count: every
    statistic extracted from it is 0, and so are the four counters and
    the total engagement of the post made of it. *)
Theorem counters_are_zero_without_digits :
  forall n : node,
    conforming rt ->
    (forall c, In c (get_text n [space]) -> is_digit c = false) ->
    (forall keywords, _extract_stat n keywords = OK 0) /\
    (forall post,
        _parse_single_post n = OK (Some post) ->
        like_count post = 0 /\ comment_count post = 0 /\
        share_count post = 0 /\ video_views_count post = 0 /\
        total_engagement post = 0).
Proof.
  intros n Hrt Hn.
  assert (Hstat : forall keywords, _extract_stat n keywords = OK 0).
  { intros keywords. unfold _extract_stat.
    apply scan_keywords_of_digitless; [exact Hrt|].
    now apply lower_keeps_digitless. }
  split; [exact Hstat|]. intros post H.
  apply parse_single_post_inv in H
    as (a & b & c & d & date_str & Ha & Hb & Hc & Hd & _ & ->).
  rewrite Hstat in Ha, Hb, Hc, Hd.
  injection Ha as <-. injection Hb as <-. injection Hc as <-. injection Hd as <-.
  repeat split.
Qed.

End Digitless.

Section FurtherWitnesses.

Lemma fetch_without_attempts_returns_nothing_witness :
  (forall url w,
      @_fetch_page two_pages_then_nothing idle_scraper url w
      = (OK None, rotated w)) /\
  (forall w encoded,
      quote_plus (hashtag idle_scraper) = OK encoded ->
      1 <= max_pages idle_scraper ->
      @run ascii_runtime two_pages_then_nothing idle_scraper w
      = OK ([], rotated w)).
Proof.
  apply (@fetch_without_attempts_returns_nothing ascii_runtime
           two_pages_then_nothing idle_scraper).
  vm_compute. discriminate.
Defined.

Lemma counters_are_zero_without_digits_witness :
  (forall keywords,
      @_extract_stat ascii_runtime external_link_post keywords = OK 0) /\
  (forall post,
      @_parse_single_post ascii_runtime external_link_post = OK (Some post) ->
      like_count post = 0 /\ comment_count post = 0 /\
      share_count post = 0 /\ video_views_count post = 0 /\
      total_engagement post = 0).
Proof.
  apply (@counters_are_zero_without_digits ascii_runtime external_link_post).
  - exact ascii_runtime_conforming.
  - intros c Hc. vm_compute in Hc.
    repeat (destruct Hc as [<-|Hc]; [reflexivity|]). destruct Hc.
Defined.


End FurtherWitnesses.
